(** * SimFOL: hierarchical similarity of weighted first-order formulas

    A shallow embedding of [SimFOL_appariement.ipynb] (the scoring engine
    cell): [pointwise_similarity_weighted], [record_debug],
    [simLiteral_flat], [simLiteral], [generalized_tversky_similarity] and
    [simFormulaSet], followed by the properties of the engine.

    Modelling conventions.
    - Python floats are idealised as exact rationals in canonical form
      ([Qc]), so that equality of scores is Leibniz equality.  Concrete
      inputs used below only involve values that are exact in binary
      floating point wherever the outcome depends on them.
    - A [frozenset] is a [gset]; its iteration order is the one of
      [elements].  A [dict] is a [gmap], except [best_matches], whose
      insertion order is observable and which is an association list.
    - Exceptions are values of [exn]; a computation that touches the
      module-level trace buffers lives in the monad [M], which threads the
      buffers and keeps them when an exception propagates.
    - The atomic similarity [sim_sbert_normalized] (a sentence-embedding
      model) and the float power operator are parameters of the model. *)

From Stdlib Require Import QArith Qcanon Qcabs Lqa.
From Stdlib Require OrderedTypeEx.
From stdpp Require Import numbers gmap strings fin_maps sorting list.

Local Open Scope Qc_scope.

(** ** Exceptions and results *)

Inductive exn : Set :=
| ZeroDivisionError
| ValueError
| KeyError
| AttributeError.

Inductive result (A : Type) : Type :=
| Ok (a : A)
| Raise (e : exn).
Arguments Ok {A} a.
Arguments Raise {A} e.

Definition rbind {A B} (r : result A) (k : A → result B) : result B :=
  match r with
  | Ok a => k a
  | Raise e => Raise e
  end.

Definition rmap {A B} (f : A → B) (r : result A) : result B :=
  rbind r (λ a, Ok (f a)).

Fixpoint rmapM {A B} (f : A → result B) (l : list A) : result (list B) :=
  match l with
  | [] => Ok []
  | x :: l' => rbind (f x) (λ y, rbind (rmapM f l') (λ ys, Ok (y :: ys)))
  end.

Fixpoint rfoldM {A S} (f : S → A → result S) (s : S) (l : list A)
  : result S :=
  match l with
  | [] => Ok s
  | x :: l' => rbind (f s x) (λ s', rfoldM f s' l')
  end.

Definition is_ok {A} (r : result A) : Prop := ∃ a, r = Ok a.

(** Success value of a result, forgetting which exception was raised. *)
Definition outcome {A} (r : result A) : option A :=
  match r with
  | Ok a => Some a
  | Raise _ => None
  end.

(** ** Numbers *)

Definition q_half : Qc := Q2Qc (1 # 2).
Definition q_two : Qc := Q2Qc (2 # 1).
Definition q_08 : Qc := Q2Qc (4 # 5).
Definition q_02 : Qc := Q2Qc (1 # 5).
Definition epsilon : Qc := Q2Qc (1 # 10000).

(** Python's [x / y] on floats. *)
Definition fdiv (x y : Qc) : result Qc :=
  if decide (y = 0) then Raise ZeroDivisionError else Ok (x / y).

(** Python's [sum]: a left fold from [0]. *)
Definition qsum (l : list Qc) : Qc := foldl Qcplus 0 l.

(** ** Data model *)

(** [Tuple[str, Tuple[str, ...]]] *)
Definition Literal : Type := string * list string.
(** [FrozenSet[Literal]] *)
Abbreviation Clause := (gset Literal).
(** [Set[Clause]] *)
Abbreviation Formula := (gset (gset Literal)).

(** Python's [<] on tuples and lists: lexicographic, a proper prefix first. *)
Fixpoint lex_compare {A} (cmp : A → A → comparison) (l1 l2 : list A)
  : comparison :=
  match l1, l2 with
  | [], [] => Eq
  | [], _ :: _ => Lt
  | _ :: _, [] => Gt
  | x :: l1', y :: l2' =>
      match cmp x y with
      | Eq => lex_compare cmp l1' l2'
      | c => c
      end
  end.

Definition lit_compare (l1 l2 : Literal) : comparison :=
  match String.compare l1.1 l2.1 with
  | Eq => lex_compare String.compare l1.2 l2.2
  | c => c
  end.

Definition lit_ltb (l1 l2 : Literal) : bool :=
  match lit_compare l1 l2 with Lt => true | _ => false end.

(** Python's [sorted(l, key=...)], by stable insertion; [ltb] is [<] on
    the keys. *)
Fixpoint insert_by {A K} (ltb : K → K → bool) (key : A → K) (x : A)
    (l : list A) : list A :=
  match l with
  | [] => [x]
  | y :: l' =>
      if ltb (key x) (key y) then x :: y :: l'
      else y :: insert_by ltb key x l'
  end.

Definition sorted_by {A K} (ltb : K → K → bool) (key : A → K)
    (l : list A) : list A :=
  foldl (λ acc x, insert_by ltb key x acc) [] l.

(** [safe_sort_clause]: [sorted(list(c), key=lambda lit: (lit[0], lit[1]))] *)
Definition safe_sort_clause (c : Clause) : list Literal :=
  sorted_by lit_ltb id (elements c).

Definition clause_key_ltb (k1 k2 : list Literal) : bool :=
  match lex_compare lit_compare k1 k2 with Lt => true | _ => false end.

(** [sorted(F, key=safe_sort_clause)] *)
Definition sorted_clauses (F : Formula) : list Clause :=
  sorted_by clause_key_ltb safe_sort_clause (elements F).

(** ** Trace buffers *)

Inductive level : Set :=
| literal_flat
| literal_weighted
| clause_flat
| clause_weighted
| formula.

Global Instance level_eq_dec : EqDecision level.
Proof. solve_decision. Defined.

Definition level_of_name (s : string) : option level :=
  if decide (s = "literal_flat"%string) then Some literal_flat
  else if decide (s = "literal_weighted"%string) then Some literal_weighted
  else if decide (s = "clause_flat"%string) then Some clause_flat
  else if decide (s = "clause_weighted"%string) then Some clause_weighted
  else if decide (s = "formula"%string) then Some formula
  else None.

(** The tuples appended to [_debug_summary]. *)
Inductive entry : Type :=
| ELiteral (l1 l2 : Literal) (sim_pred sim_args score : Qc)
| ETotal (a b c score : Qc)
| EClausePair (x y : Literal) (s : Qc)
| EClausePairScore (c1 c2 : Clause) (s : Qc)
| EFormulaPair (c1 c2 : Clause) (s : Qc).

(** The two module-level dictionaries [_seen_debugs] and [_debug_summary];
    their five keys never change, so each is a total function of the
    level. *)
Record trace_state : Type := {
  seen_debugs : level → gset (gset Literal);
  debug_summary : level → list entry
}.

Definition init_state : trace_state :=
  {| seen_debugs := λ _, ∅; debug_summary := λ _, [] |}.

(** ** The monad of computations on the trace buffers *)

Definition M (A : Type) : Type := trace_state → result A * trace_state.

Definition ret {A} (a : A) : M A := λ st, (Ok a, st).

Definition bind {A B} (m : M A) (k : A → M B) : M B :=
  λ st, match m st with
        | (Ok a, st') => k a st'
        | (Raise e, st') => (Raise e, st')
        end.

Definition lift {A} (r : result A) : M A := λ st, (r, st).

Notation "'let*' x := m 'in' k" := (bind m (λ x, k))
  (at level 10, x pattern, m at level 100, k at level 200,
   format "'let*'  x  :=  m  'in'  '/' k").
Notation "'let+' x := r 'in' k" := (rbind r (λ x, k))
  (at level 10, x pattern, r at level 100, k at level 200,
   format "'let+'  x  :=  r  'in'  '/' k").

Fixpoint mapM {A B} (f : A → M B) (l : list A) : M (list B) :=
  match l with
  | [] => ret []
  | x :: l' => let* y := f x in let* ys := mapM f l' in ret (y :: ys)
  end.

Fixpoint foldM {A S} (f : S → A → M S) (s : S) (l : list A) : M S :=
  match l with
  | [] => ret s
  | x :: l' => let* s' := f s x in foldM f s' l'
  end.

(** [_debug_summary[level].append(entry)] *)
Definition append_summary (lv : level) (e : entry) : M unit :=
  λ st, (Ok (),
         {| seen_debugs := seen_debugs st;
            debug_summary := λ l, if decide (l = lv)
                                  then debug_summary st l ++ [e]
                                  else debug_summary st l |}).

(** [record_debug] *)
Definition record_debug (lv : level) (key : gset Literal) (e : entry)
  : M unit :=
  λ st,
    if decide (key ∈ seen_debugs st lv) then (Ok (), st)
    else (Ok (),
          {| seen_debugs := λ l, if decide (l = lv)
                                 then seen_debugs st l ∪ {[ key ]}
                                 else seen_debugs st l;
             debug_summary := λ l, if decide (l = lv)
                                   then debug_summary st l ++ [e]
                                   else debug_summary st l |}).

(** [debug and debug.get(k, False)]: an absent or empty dictionary, or an
    absent key, disables the level. *)
Definition debug_on (debug : option (gmap string bool)) (k : string) : bool :=
  match debug with
  | Some d => default false (d !! k)
  | None => false
  end.

(** ** Built-in aggregations *)

(** Largest element of a non-empty list, the first one winning ties. *)
Definition qmax_list (x : Qc) (l : list Qc) : Qc :=
  foldl (λ best y, if decide (best < y) then y else best) x l.

(** Python's built-in [max] on a list: [ValueError] on an empty one. *)
Definition py_max (scores : list Qc) : result Qc :=
  match scores with
  | [] => Raise ValueError
  | x :: l => Ok (qmax_list x l)
  end.

(** [agg_max] *)
Definition agg_max (scores : list Qc) : result Qc :=
  match scores with
  | [] => Ok 0
  | _ :: _ => py_max scores
  end.

(** [agg_avg] *)
Definition agg_avg (scores : list Qc) : result Qc :=
  match scores with
  | [] => Ok 0
  | _ :: _ => fdiv (qsum scores) (Q2Qc (inject_Z (Z.of_nat (length scores))))
  end.

(** Python's [max(iterable, key=...)]: the first element whose key is
    largest; [ValueError] on an empty iterable.  The key may raise. *)
Fixpoint max_by_from {A} (key : A → result Qc) (best : A) (kbest : Qc)
    (l : list A) : result A :=
  match l with
  | [] => Ok best
  | x :: l' =>
      let+ kx := key x in
      if decide (kbest < kx) then max_by_from key x kx l'
      else max_by_from key best kbest l'
  end.

Definition max_by {A} (key : A → result Qc) (l : list A) : result A :=
  match l with
  | [] => Raise ValueError
  | x :: l' => let+ kx := key x in max_by_from key x kx l'
  end.

(** [d[k] = v] on a dictionary in insertion order: an existing key keeps
    its position. *)
Fixpoint dict_set {K V} `{EqDecision K} (k : K) (v : V) (d : list (K * V))
  : list (K * V) :=
  match d with
  | [] => [(k, v)]
  | (k', v') :: d' =>
      if decide (k' = k) then (k, v) :: d' else (k', v') :: dict_set k v d'
  end.

(** [d[k]] on a [gmap]-modelled dictionary. *)
Definition dict_get {K V} `{Countable K} (d : gmap K V) (k : K) : result V :=
  match d !! k with
  | Some v => Ok v
  | None => Raise KeyError
  end.

(** ** The scoring engine *)

(** The inner dictionaries of [params], e.g. [params["clause"]]: each key
    may be absent. *)
Record level_params : Type := {
  lp_alpha : option Qc;
  lp_beta : option Qc;
  lp_p : option Qc;
  lp_agg : option (list Qc → result Qc)
}.

Definition empty_level_params : level_params :=
  {| lp_alpha := None; lp_beta := None; lp_p := None; lp_agg := None |}.

Section Engine.

(** [sim_sbert_normalized] *)
Variable simC : string → string → Qc.
(** [x ** p] *)
Variable fpow : Qc → Qc → Qc.

(** One round of the positional loop of [pointwise_similarity_weighted]. *)
Definition pos_step (weights1 weights2 : gmap string Qc)
    (acc : Qc * Qc) (a : string * string) : Qc * Qc :=
  let sim := simC a.1 a.2 in
  let w1 := default 0 (weights1 !! a.1) in
  let w2 := default 0 (weights2 !! a.2) in
  let importance := w1 * w2 in
  (acc.1 + importance * sim, acc.2 + importance).

(** One round of the inner loop of the unordered part. *)
Definition best_step (weights2 : gmap string Qc) (a1 : string) (w1 : Qc)
    (acc : Qc * Qc) (a2 : string) : Qc * Qc :=
  let w2 := default 0 (weights2 !! a2) in
  let sim := simC a1 a2 in
  let importance := w1 * w2 in
  if decide (acc.1 < sim) then (sim, importance) else acc.

(** One round of the outer loop of the unordered part. *)
Definition unordered_step (weights1 weights2 : gmap string Qc)
    (args2 : list string) (acc : Qc * Qc) (a1 : string) : Qc * Qc :=
  let w1 := default 0 (weights1 !! a1) in
  let best := foldl (best_step weights2 a1 w1) (0, 0) args2 in
  (acc.1 + best.1 * best.2, acc.2 + best.2).

(** [pointwise_similarity_weighted].  The positional loop runs over the
    indices below [min(len(args1), len(args2))], that is over
    [zip args1 args2]. *)
Definition pointwise_similarity_weighted (args1 args2 : list string)
    (weights1 weights2 : gmap string Qc)
    (positional_weight unordered_weight diff : Qc) : result Qc :=
  match args1, args2 with
  | [], _ | _, [] => Ok 0
  | _, _ =>
      let pos := foldl (pos_step weights1 weights2) (0, 0)
                       (zip args1 args2) in
      let+ sim_pos :=
        if decide (0 < pos.2) then fdiv pos.1 (pos.2 + diff) else Ok 0 in
      let uno := foldl (unordered_step weights1 weights2 args2) (0, 0)
                       args1 in
      let+ sim_unordered :=
        if decide (0 < uno.2) then fdiv uno.1 (uno.2 + diff) else Ok 0 in
      Ok (positional_weight * sim_pos + unordered_weight * sim_unordered)
  end.

(** [{k: 1.0 for k in args}] *)
Definition unit_weights (args : list string) : gmap string Qc :=
  list_to_map ((λ k, (k, 1)) <$> args).

(** [tuple(sorted([obj1, obj2]))] *)
Definition canonical (obj1 obj2 : Literal) : Literal * Literal :=
  if lit_ltb obj2 obj1 then (obj2, obj1) else (obj1, obj2).

(** The score computed by [simLiteral_flat], before it is traced. *)
Definition flat_components (obj1 obj2 : Literal) (diff : Qc)
  : result (Qc * Qc * Qc) :=
  let sim_pred := simC obj1.1 obj2.1 in
  let+ sim_args :=
    pointwise_similarity_weighted obj1.2 obj2.2
      (unit_weights obj1.2) (unit_weights obj2.2) q_08 q_02 diff in
  Ok (sim_pred, sim_args, q_half * sim_pred + q_half * sim_args).

(** [simLiteral_flat] *)
Definition simLiteral_flat (obj1 obj2 : Literal)
    (debug : option (gmap string bool)) (diff : Qc) : M Qc :=
  let* (sim_pred, sim_args, score) :=
    lift (flat_components obj1 obj2 diff) in
  let* _ :=
    if debug_on debug "literal" then
      let key : gset Literal := {[ obj1; obj2 ]} in
      let '(o1, o2) := canonical obj1 obj2 in
      record_debug literal_flat key (ELiteral o1 o2 sim_pred sim_args score)
    else ret () in
  ret score.

(** The score computed by [simLiteral], before it is traced. *)
Definition weighted_components (obj1 obj2 : Literal)
    (predicate_weights constant_weights : gmap string Qc) (diff : Qc)
  : result (Qc * Qc * Qc) :=
  let sim_pred := simC obj1.1 obj2.1 in
  let imp_pred := default 0 (predicate_weights !! obj1.1)
                  * default 0 (predicate_weights !! obj2.1) in
  let num := sim_pred * imp_pred in
  let denom := imp_pred in
  let+ sim_args :=
    pointwise_similarity_weighted obj1.2 obj2.2
      constant_weights constant_weights q_08 q_02 diff in
  let imp_args_total :=
    qsum (flat_map (λ a1,
            map (λ a2, default 0 (constant_weights !! a1)
                       * default 0 (constant_weights !! a2)) obj2.2)
            obj1.2) in
  let num := num + sim_args * imp_args_total in
  let denom := denom + imp_args_total in
  let+ score := if decide (0 < denom) then fdiv num (denom + diff)
                else Ok 0 in
  Ok (sim_pred, sim_args, score).

(** [simLiteral] *)
Definition simLiteral (obj1 obj2 : Literal)
    (predicate_weights constant_weights : gmap string Qc)
    (debug : option (gmap string bool)) (diff : Qc) : M Qc :=
  let* (sim_pred, sim_args, score) :=
    lift (weighted_components obj1 obj2 predicate_weights
            constant_weights diff) in
  let* _ :=
    if debug_on debug "literal" then
      let key : gset Literal := {[ obj1; obj2 ]} in
      let '(o1, o2) := canonical obj1 obj2 in
      record_debug literal_weighted key
        (ELiteral o1 o2 sim_pred sim_args score)
    else ret () in
  ret score.

(** *** [generalized_tversky_similarity]

    The routine accepts sets of any hashable elements; [pair_entry]
    builds the tuple [("clause_pair", x, y, s)] for the element type at
    hand. *)
Section Tversky.
Context {A : Type} `{Countable A}.
Variable pair_entry : A → A → Qc → entry.

(** The local function [membership]. *)
Definition membership (sim : A → A → M Qc) (p : Qc)
    (agg : list Qc → result Qc) (x : A) (Y : gset A) : M Qc :=
  let* scores :=
    mapM (λ y, let* s := sim x y in ret (fpow s p)) (elements Y) in
  lift (agg scores).

(** Body of the doubly nested tracing loop. *)
Definition log_pair (sim : A → A → M Qc) (lv : level)
    (x : A) (seen : gset (gset A)) (y : A) : M (gset (gset A)) :=
  let key : gset A := {[ x; y ]} in
  if decide (key ∈ seen) then ret seen
  else
    let* s := sim x y in
    let* _ := append_summary lv (pair_entry x y s) in
    ret (seen ∪ {[ key ]}).

Definition generalized_tversky_similarity (X Y : gset A)
    (sim : A → A → M Qc) (alpha beta p : Qc)
    (agg : list Qc → result Qc)
    (debug : option (gmap string bool)) (debug_level : string) : M Qc :=
  if decide (X = ∅ ∨ Y = ∅) then ret 0
  else
    let* match_X := mapM (λ x, membership sim p agg x Y) (elements X) in
    let* match_Y := mapM (λ y, membership sim p agg y X) (elements Y) in
    let a := (qsum match_X + qsum match_Y) / q_two in
    let b := qsum ((λ s, 1 - s) <$> match_X) in
    let c := qsum ((λ s, 1 - s) <$> match_Y) in
    let denom := a + alpha * b + beta * c in
    let* score :=
      lift (if decide (0 < denom) then fdiv a denom else Ok 0) in
    let* _ :=
      if debug_on debug debug_level then
        match level_of_name debug_level with
        | None => lift (Raise KeyError)
        | Some lv =>
            let* _ := append_summary lv (ETotal a b c score) in
            let* _ :=
              foldM (λ seen x, foldM (log_pair sim lv x) seen (elements Y))
                    ∅ (elements X) in
            ret ()
        end
      else ret () in
    ret score.
End Tversky.

(** *** [simFormulaSet] *)

(** [{**w1, **w2}]: on a shared key the second dictionary wins. *)
Definition merge_weights (w1 w2 : gmap string Qc) : gmap string Qc :=
  w2 ∪ w1.

(** [sum(w.values())] *)
Definition sum_values (w : gmap string Qc) : Qc :=
  qsum (snd <$> map_to_list w).

(** The correction term [diff], snapped to [0.0] below [epsilon]. *)
Definition correction (predicate_weights1 predicate_weights2
    constant_weights1 constant_weights2 : gmap string Qc) : Qc :=
  let sum_preds :=
    sum_values predicate_weights1 + sum_values predicate_weights2 in
  let sum_consts :=
    sum_values constant_weights1 + sum_values constant_weights2 in
  let diff := q_two - sum_preds - sum_consts in
  if decide (Qcabs diff < epsilon) then 0 else diff.

(** The two clearing loops at the top of [simFormulaSet]. *)
Definition clear_trace : M unit := λ _, (Ok (), init_state).

(** "Flat clause similarities".  [simLiteral_flat] is handed over as it
    is and called with two arguments, hence with its default [debug=None]
    and [diff=0.0]. *)
Definition flat_phase (all_clauses1 all_clauses2 : list Clause)
    (debug : option (gmap string bool))
  : M (gmap (Clause * Clause) Qc) :=
  foldM (λ flat c1,
    foldM (λ flat c2,
      let* sim :=
        generalized_tversky_similarity EClausePair c1 c2
          (λ l1 l2, simLiteral_flat l1 l2 None 0)
          1 1 1 py_max debug "clause_flat" in
      let* _ := append_summary clause_flat (EClausePairScore c1 c2 sim) in
      ret (<[(c1, c2) := sim]> flat))
    flat all_clauses2)
  ∅ all_clauses1.

(** "Best clause matches" *)
Definition best_matches (all_clauses1 all_clauses2 : list Clause)
    (flat : gmap (Clause * Clause) Qc)
  : result (list (Clause * Clause * Qc)) :=
  let+ bm :=
    rfoldM (λ bm c1,
      let+ best_c2 :=
        max_by (λ c2, dict_get flat (c1, c2)) all_clauses2 in
      let+ v := dict_get flat (c1, best_c2) in
      Ok (dict_set (c1, best_c2) v bm))
    [] all_clauses1 in
  rfoldM (λ bm c2,
    let+ best_c1 :=
      max_by (λ c1, dict_get flat (c1, c2)) all_clauses1 in
    let+ v := dict_get flat (best_c1, c2) in
    Ok (dict_set (best_c1, c2) v bm))
  bm all_clauses2.

(** "Weighted clause similarities on best matches": one round of the
    loop.  The keyword arguments are evaluated before the call, so a
    missing [params] fails on [params.get]. *)
Definition weighted_step
    (clause_weights1 clause_weights2 : gmap Clause Qc)
    (predicate_weights constant_weights : gmap string Qc)
    (params : option (gmap string level_params))
    (debug : option (gmap string bool)) (diff : Qc)
    (item : Clause * Clause * Qc) : M (Qc * Qc) :=
  let c1 := item.1.1 in
  let c2 := item.1.2 in
  match params with
  | None => lift (Raise AttributeError)
  | Some ps =>
      let cfg := default empty_level_params (ps !! "clause"%string) in
      let* sim :=
        generalized_tversky_similarity EClausePair c1 c2
          (λ l1 l2, simLiteral l1 l2 predicate_weights constant_weights
                      debug diff)
          (default q_half (lp_alpha cfg)) (default q_half (lp_beta cfg))
          (default 1 (lp_p cfg)) (default py_max (lp_agg cfg))
          debug "clause_weighted" in
      let* _ :=
        append_summary clause_weighted (EClausePairScore c1 c2 sim) in
      let w1 := default 1 (clause_weights1 !! c1) in
      let w2 := default 1 (clause_weights2 !! c2) in
      ret (sim, (w1 + w2) / q_two)
  end.

(** "Final weighted score" *)
Definition final_score (weighted_scores : list (Qc * Qc)) : result Qc :=
  let total_weight := qsum (snd <$> weighted_scores) in
  if decide (0 < total_weight)
  then fdiv (qsum ((λ sw, sw.1 * sw.2) <$> weighted_scores)) total_weight
  else Ok 0.

Definition simFormulaSet (F1 F2 : Formula)
    (clause_weights1 clause_weights2 : gmap Clause Qc)
    (predicate_weights1 predicate_weights2 : gmap string Qc)
    (constant_weights1 constant_weights2 : gmap string Qc)
    (params : option (gmap string level_params))
    (debug : option (gmap string bool))
  : M (Qc * (level → list entry)) :=
  let* _ := clear_trace in
  let predicate_weights :=
    merge_weights predicate_weights1 predicate_weights2 in
  let constant_weights :=
    merge_weights constant_weights1 constant_weights2 in
  let diff := correction predicate_weights1 predicate_weights2
                constant_weights1 constant_weights2 in
  let all_clauses1 := sorted_clauses F1 in
  let all_clauses2 := sorted_clauses F2 in
  let* flat_similarities := flat_phase all_clauses1 all_clauses2 debug in
  let* bm :=
    lift (best_matches all_clauses1 all_clauses2 flat_similarities) in
  let* weighted_scores :=
    mapM (weighted_step clause_weights1 clause_weights2
            predicate_weights constant_weights params debug diff) bm in
  let* score := lift (final_score weighted_scores) in
  let* _ := append_summary formula (ETotal 0 0 0 score) in
  let* pairs :=
    lift (rmapM (λ item : Clause * Clause * Qc,
            let+ v := dict_get flat_similarities item.1 in
            Ok (EFormulaPair item.1.1 item.1.2 v)) bm) in
  let* _ := mapM (append_summary formula) pairs in
  λ st, (Ok (score, debug_summary st), st).

(** *** Scores without the trace

    The same computations with the trace buffers left out.  They are
    related to the routines above by the erasure lemmas below, and carry
    the arithmetic properties. *)

Definition membership_score {A} `{Countable A} (sim : A → A → result Qc)
    (p : Qc) (agg : list Qc → result Qc) (x : A) (Y : gset A)
  : result Qc :=
  let+ scores :=
    rmapM (λ y, let+ s := sim x y in Ok (fpow s p)) (elements Y) in
  agg scores.

(** The part of [generalized_tversky_similarity] after the memberships. *)
Definition tversky_ratio (alpha beta : Qc) (match_X match_Y : list Qc)
  : result Qc :=
  let a := (qsum match_X + qsum match_Y) / q_two in
  let b := qsum ((λ s, 1 - s) <$> match_X) in
  let c := qsum ((λ s, 1 - s) <$> match_Y) in
  let denom := a + alpha * b + beta * c in
  if decide (0 < denom) then fdiv a denom else Ok 0.

Definition tversky_score {A} `{Countable A} (X Y : gset A)
    (sim : A → A → result Qc) (alpha beta p : Qc)
    (agg : list Qc → result Qc) : result Qc :=
  if decide (X = ∅ ∨ Y = ∅) then Ok 0
  else
    let+ match_X :=
      rmapM (λ x, membership_score sim p agg x Y) (elements X) in
    let+ match_Y :=
      rmapM (λ y, membership_score sim p agg y X) (elements Y) in
    tversky_ratio alpha beta match_X match_Y.

Definition flat_literal_score (l1 l2 : Literal) : result Qc :=
  rmap snd (flat_components l1 l2 0).

Definition weighted_literal_score
    (predicate_weights constant_weights : gmap string Qc) (diff : Qc)
    (l1 l2 : Literal) : result Qc :=
  rmap snd (weighted_components l1 l2 predicate_weights constant_weights
              diff).

Definition flat_clause_score (c1 c2 : Clause) : result Qc :=
  tversky_score c1 c2 flat_literal_score 1 1 1 py_max.

Definition flat_table (all_clauses1 all_clauses2 : list Clause)
  : result (gmap (Clause * Clause) Qc) :=
  rfoldM (λ flat c1,
    rfoldM (λ flat c2,
      let+ sim := flat_clause_score c1 c2 in
      Ok (<[(c1, c2) := sim]> flat))
    flat all_clauses2)
  ∅ all_clauses1.

Definition weighted_clause_score
    (predicate_weights constant_weights : gmap string Qc)
    (cfg : level_params) (diff : Qc) (c1 c2 : Clause) : result Qc :=
  tversky_score c1 c2
    (weighted_literal_score predicate_weights constant_weights diff)
    (default q_half (lp_alpha cfg)) (default q_half (lp_beta cfg))
    (default 1 (lp_p cfg)) (default py_max (lp_agg cfg)).

Definition weighted_step_score
    (clause_weights1 clause_weights2 : gmap Clause Qc)
    (predicate_weights constant_weights : gmap string Qc)
    (params : option (gmap string level_params)) (diff : Qc)
    (item : Clause * Clause * Qc) : result (Qc * Qc) :=
  match params with
  | None => Raise AttributeError
  | Some ps =>
      let cfg := default empty_level_params (ps !! "clause"%string) in
      let+ sim :=
        weighted_clause_score predicate_weights constant_weights cfg diff
          item.1.1 item.1.2 in
      Ok (sim, (default 1 (clause_weights1 !! item.1.1)
                + default 1 (clause_weights2 !! item.1.2)) / q_two)
  end.

Definition formula_score (F1 F2 : Formula)
    (clause_weights1 clause_weights2 : gmap Clause Qc)
    (predicate_weights1 predicate_weights2 : gmap string Qc)
    (constant_weights1 constant_weights2 : gmap string Qc)
    (params : option (gmap string level_params)) : result Qc :=
  let diff := correction predicate_weights1 predicate_weights2
                constant_weights1 constant_weights2 in
  let+ flat := flat_table (sorted_clauses F1) (sorted_clauses F2) in
  let+ bm := best_matches (sorted_clauses F1) (sorted_clauses F2) flat in
  let+ weighted_scores :=
    rmapM (weighted_step_score clause_weights1 clause_weights2
             (merge_weights predicate_weights1 predicate_weights2)
             (merge_weights constant_weights1 constant_weights2)
             params diff) bm in
  final_score weighted_scores.

End Engine.

(** ** Reasoning principles for [M] *)

(** The value of [m] does not depend on the trace buffers and is [r]. *)
Definition value_pure {A} (m : M A) (r : result A) : Prop :=
  ∀ st, (m st).1 = r.

(** [m] maintains the property [I] of the trace buffers, whether it
    returns or raises. *)
Definition preserves {A} (I : trace_state → Prop) (m : M A) : Prop :=
  ∀ st, I st → I (m st).2.

(** ** Instances of the parameters used in examples *)

(** An atomic similarity that only recognises identical strings. *)
Definition sim_exact (a b : string) : Qc := if decide (a = b) then 1 else 0.

(** The power operator for an exponent that is a natural number. *)
Definition pow_nat (x p : Qc) : Qc := x ^ Z.to_nat (Qnum (this p)).

(** ** Total views of the flat phase *)

(** The value of a result, [0] standing for an exception. *)
Definition value_or_zero (r : result Qc) : Qc :=
  match r with
  | Ok v => v
  | Raise _ => 0
  end.

(** The entry of [flat_similarities] for a pair of clauses. *)
Definition flat_value (simC : string → string → Qc) (fpow : Qc → Qc → Qc)
    (c1 c2 : Clause) : Qc :=
  value_or_zero (flat_clause_score simC fpow c1 c2).

(** ** The Tversky coefficient as the specification words it

    [membership(x, Y) = agg({sim(x,y)^p : y in Y})],
    [a = (sum(matchX) + sum(matchY)) / 2], [b = sum(1 - m for m in matchX)],
    [c = sum(1 - m for m in matchY)], and the score is
    [a / (a + alpha*b + beta*c)], or [0.0] when that denominator is [<= 0].
    Here [sim] and [agg] are total functions. *)
Definition tversky_spec (fpow : Qc → Qc → Qc) {A} `{Countable A}
    (X Y : gset A) (sim : A → A → Qc) (agg : list Qc → Qc)
    (p alpha beta : Qc) : Qc :=
  let membership (x : A) (Y : gset A) :=
    agg ((λ y, fpow (sim x y) p) <$> elements Y) in
  let matchX := (λ x, membership x Y) <$> elements X in
  let matchY := (λ y, membership y X) <$> elements Y in
  let a := (qsum matchX + qsum matchY) / q_two in
  let b := qsum ((λ m, 1 - m) <$> matchX) in
  let c := qsum ((λ m, 1 - m) <$> matchY) in
  if decide (a + alpha * b + beta * c ≤ 0) then 0
  else a / (a + alpha * b + beta * c).

(** ** Reading the trace *)

(** The unordered pair of literals recorded by a literal-level entry. *)
Definition literal_key (e : entry) : option (gset Literal) :=
  match e with
  | ELiteral l1 l2 _ _ _ => Some {[ l1; l2 ]}
  | _ => None
  end.

(** The state of the literal-level buffers that [record_debug] maintains:
    the recorded pairs are distinct and all belong to [_seen_debugs]. *)
Definition literal_trace_ok (lv : level) (st : trace_state) : Prop :=
  NoDup (omap literal_key (debug_summary st lv)) ∧
  ∀ k, k ∈ omap literal_key (debug_summary st lv) → k ∈ seen_debugs st lv.

(** [m] appends exactly [n] entries to the buffer [lv] when it returns. *)
Definition appends {A} (lv : level) (n : nat) (m : M A) : Prop :=
  ∀ st a st', m st = (Ok a, st') →
    length (debug_summary st' lv) = (length (debug_summary st lv) + n)%nat.

(** When [m] returns [a] in the state [st'], [Q a st'] holds. *)
Definition ensures {A} (m : M A) (Q : A → trace_state → Prop) : Prop :=
  ∀ st, match m st with
        | (Ok a, st') => Q a st'
        | (Raise _, _) => True
        end.

(** ** Well-formed inputs *)

Definition unit_interval (x : Qc) : Prop := 0 ≤ x ∧ x ≤ 1.

(** Every weight of the map is non-negative. *)
Definition nonneg_weights {K} `{Countable K} (w : gmap K Qc) : Prop :=
  ∀ k v, w !! k = Some v → 0 ≤ v.

(** The aggregation returns a value of [[0,1]] on a non-empty list of
    values of [[0,1]]. *)
Definition agg_in_range (agg : list Qc → result Qc) : Prop :=
  ∀ l, l ≠ [] → Forall unit_interval l →
       ∃ v, agg l = Ok v ∧ unit_interval v.

(** Raising to the power [p] keeps [[0,1]] stable. *)
Definition pow_in_range (fpow : Qc → Qc → Qc) (p : Qc) : Prop :=
  ∀ x, unit_interval x → unit_interval (fpow x p).

(** The clause-level configuration read from [params] is usable: [alpha]
    and [beta] are non-negative, the power and the aggregation keep
    [[0,1]] stable. *)
Definition params_in_range (fpow : Qc → Qc → Qc)
    (params : option (gmap string level_params)) : Prop :=
  ∃ ps, params = Some ps ∧
    let cfg := default empty_level_params (ps !! "clause"%string) in
    0 ≤ default q_half (lp_alpha cfg) ∧ 0 ≤ default q_half (lp_beta cfg) ∧
    pow_in_range fpow (default 1 (lp_p cfg)) ∧
    agg_in_range (default py_max (lp_agg cfg)).

(** ** The data of the notebook's example cell

    [weighted_T1] and [weighted_T2], with the aggregation of the clause
    level replaced by [agg_max] ([agg_softmax] needs the exponential). *)

Definition ex_teasing_dm : Clause :=
  {[ ("Teasing"%string, ["Dog"%string; "Monkey"%string]) ]}.
Definition ex_teasing_md : Clause :=
  {[ ("Teasing"%string, ["Monkey"%string; "Dog"%string]) ]}.
Definition ex_dog_zoo : Clause :=
  {[ ("AtLocation"%string, ["Dog"%string; "Zoo"%string]) ]}.
Definition ex_monkey_zoo : Clause :=
  {[ ("AtLocation"%string, ["Monkey"%string; "Zoo"%string]) ]}.

Definition ex_F1 : Formula := {[ ex_teasing_dm; ex_dog_zoo; ex_monkey_zoo ]}.
Definition ex_F2 : Formula := {[ ex_teasing_md; ex_dog_zoo; ex_monkey_zoo ]}.

Definition ex_clause_weights1 : gmap Clause Qc :=
  {[ ex_teasing_dm := Q2Qc (9 # 10); ex_dog_zoo := Q2Qc (1 # 20);
     ex_monkey_zoo := Q2Qc (1 # 20) ]}.
Definition ex_clause_weights2 : gmap Clause Qc :=
  {[ ex_teasing_md := Q2Qc (9 # 10); ex_dog_zoo := Q2Qc (1 # 20);
     ex_monkey_zoo := Q2Qc (1 # 20) ]}.
Definition ex_predicate_weights : gmap string Qc :=
  {[ "Teasing"%string := Q2Qc (1 # 10);
     "AtLocation"%string := Q2Qc (1 # 10) ]}.
Definition ex_constant_weights : gmap string Qc :=
  {[ "Dog"%string := Q2Qc (35 # 100); "Monkey"%string := Q2Qc (35 # 100);
     "Zoo"%string := Q2Qc (1 # 10) ]}.
Definition ex_params : gmap string level_params :=
  {[ "clause"%string :=
       {| lp_alpha := Some q_half; lp_beta := Some q_half;
          lp_p := Some 1; lp_agg := Some agg_max |} ]}.
Definition ex_debug : gmap string bool :=
  {[ "literal"%string := true; "clause"%string := true;
     "formula"%string := true ]}.

(** The two weight maps give the same weight to every key they share. *)
Definition weights_agree (w1 w2 : gmap string Qc) : Prop :=
  ∀ k v1 v2, w1 !! k = Some v1 → w2 !! k = Some v2 → v1 = v2.

(** [alpha] and [beta] as [simFormulaSet] reads them from [params]. *)
Definition clause_alpha (params : option (gmap string level_params)) : Qc :=
  default q_half
    (lp_alpha (default empty_level_params
                 (default ∅ params !! "clause"%string))).
Definition clause_beta (params : option (gmap string level_params)) : Qc :=
  default q_half
    (lp_beta (default empty_level_params
                (default ∅ params !! "clause"%string))).

(** Two results are the same up to the order of the list they return. *)
Definition same_up_to_order {A} (r r' : result (list A)) : Prop :=
  match r, r' with
  | Ok l, Ok l' => l ≡ₚ l'
  | Raise _, Raise _ => True
  | _, _ => False
  end.

(** The aggregation read from [params], when there is one, returns on
    every non-empty list. *)
Definition agg_total (params : option (gmap string level_params)) : Prop :=
  ∀ l, l ≠ [] →
    is_ok (default py_max
             (lp_agg (default empty_level_params
                        (default ∅ params !! "clause"%string))) l).

(** Weights for which the correction term is negative and cancels the
    positional weight mass of [("P", ("A",))] against itself. *)
Definition heavy_predicate_weights : gmap string Qc :=
  {[ "P"%string := q_half ]}.
Definition heavy_constant_weights : gmap string Qc := {[ "A"%string := 1 ]}.
Definition heavy_formula : Formula := {[ {[ ("P"%string, ["A"%string]%list) ]} ]}.

(** [len(scores)] as a float. *)
Definition qlen {A} (l : list A) : Qc :=
  Q2Qc (inject_Z (Z.of_nat (length l))).

(** ** Perfect matches *)

(** The best similarity that the inner loop of the unordered part finds
    for [a1]; it does not depend on the weights. *)
Definition best_sim (simC : string → string → Qc) (a1 : string)
    (args2 : list string) : Qc :=
  foldl (λ best a2, if decide (best < simC a1 a2) then simC a1 a2 else best)
        0 args2.

(** Two argument lists that [pointwise_similarity_weighted] scores [1.0]:
    the arguments compared position by position are fully similar, and
    every argument of the first list that finds a partner at all finds a
    fully similar one (one of them at least does). *)
Definition perfect_args (simC : string → string → Qc)
    (args1 args2 : list string) : Prop :=
  args1 ≠ [] ∧ args2 ≠ [] ∧
  (∀ ab, ab ∈ zip args1 args2 → simC ab.1 ab.2 = 1) ∧
  (∀ a1, a1 ∈ args1 → best_sim simC a1 args2 = 0 ∨ best_sim simC a1 args2 = 1).

Definition perfect_literals (simC : string → string → Qc)
    (l1 l2 : Literal) : Prop :=
  simC l1.1 l2.1 = 1 ∧ perfect_args simC l1.2 l2.2.

(** Every key of the list has a positive weight. *)
Definition positive_on (w : gmap string Qc) (keys : list string) : Prop :=
  ∀ k, k ∈ keys → 0 < default 0 (w !! k).

(** The conditions under which a formula is fully similar to itself: no
    empty clause, no literal without argument, and a positive weight for
    every predicate and constant that occurs. *)
Definition weighted_formula (F : Formula) (pw kw : gmap string Qc) : Prop :=
  ∀ c, c ∈ F → c ≠ ∅ ∧
    ∀ l, l ∈ c → l.2 ≠ [] ∧ positive_on pw [l.1] ∧ positive_on kw l.2.

(** ** Basic facts on results and on [M] *)

Lemma value_pure_ret {A} (a : A) : value_pure (ret a) (Ok a).
Proof. done. Qed.

Lemma value_pure_lift {A} (r : result A) : value_pure (lift r) r.
Proof. done. Qed.

Lemma value_pure_bind {A B} (m : M A) (k : A → M B) r k' :
  value_pure m r → (∀ a, value_pure (k a) (k' a)) →
  value_pure (bind m k) (rbind r k').
Proof.
  intros Hm Hk st. unfold bind. specialize (Hm st).
  destruct (m st) as [[a|e] st']; simpl in Hm; subst r; simpl; [apply Hk|done].
Qed.

Lemma value_pure_mapM {A B} (f : A → M B) g (l : list A) :
  (∀ x, x ∈ l → value_pure (f x) (g x)) →
  value_pure (mapM f l) (rmapM g l).
Proof.
  induction l as [|x l IH]; intros Hf; simpl; [apply value_pure_ret|].
  apply value_pure_bind; [apply Hf; left|]. intros y.
  apply value_pure_bind; [apply IH; intros; apply Hf; by right|].
  intros ys. apply value_pure_ret.
Qed.

Lemma value_pure_foldM {A S} (f : S → A → M S) g (l : list A) s :
  (∀ s x, x ∈ l → value_pure (f s x) (g s x)) →
  value_pure (foldM f s l) (rfoldM g s l).
Proof.
  revert s. induction l as [|x l IH]; intros s Hf; simpl;
    [apply value_pure_ret|].
  apply value_pure_bind; [apply Hf; left|]. intros s'.
  apply IH. intros; apply Hf; by right.
Qed.

Lemma value_pure_append lv e : value_pure (append_summary lv e) (Ok ()).
Proof. done. Qed.

Lemma value_pure_record lv key e : value_pure (record_debug lv key e) (Ok ()).
Proof. intros st. unfold record_debug. by case_decide. Qed.

Lemma value_pure_bind_ok {A B} (m : M A) (k : A → M B) r k' :
  value_pure m r → (∀ a, r = Ok a → value_pure (k a) (k' a)) →
  value_pure (bind m k) (rbind r k').
Proof.
  intros Hm Hk st. unfold bind. specialize (Hm st).
  destruct (m st) as [[a|e] st']; simpl in Hm; subst r; simpl; [by apply Hk|done].
Qed.

Lemma rmapM_ok_inv {A B} (g : A → result B) l ys :
  rmapM g l = Ok ys → ∀ x, x ∈ l → is_ok (g x).
Proof.
  revert ys. induction l as [|x l IH]; intros ys Hl z Hz; [by inversion Hz|].
  simpl in Hl. destruct (g x) as [y|e] eqn:Hx; [|done]. simpl in Hl.
  destruct (rmapM g l) as [ys'|e] eqn:Hl'; [|done].
  apply elem_of_cons in Hz as [->|Hz]; [by exists y|by eapply IH].
Qed.

Lemma rmapM_ok {A B} (g : A → result B) l :
  (∀ x, x ∈ l → is_ok (g x)) → is_ok (rmapM g l).
Proof.
  induction l as [|x l IH]; intros Hg; [by eexists|].
  destruct (Hg x) as [y Hy]; [left|]. destruct IH as [ys Hys].
  { intros; apply Hg; by right. }
  exists (y :: ys). simpl. by rewrite Hy, Hys.
Qed.

Lemma rmapM_length {A B} (g : A → result B) l ys :
  rmapM g l = Ok ys → length ys = length l.
Proof.
  revert ys. induction l as [|x l IH]; intros ys Hl; simpl in *.
  - by inversion Hl.
  - destruct (g x); [|done]. simpl in Hl.
    destruct (rmapM g l); [|done]. inversion Hl; subst. simpl. f_equal.
    by apply IH.
Qed.

Lemma rmapM_ext {A B} (f g : A → result B) l :
  (∀ x, x ∈ l → f x = g x) → rmapM f l = rmapM g l.
Proof.
  induction l as [|x l IH]; intros Hfg; [done|]. simpl.
  rewrite Hfg by left. rewrite IH; [done|]. intros; apply Hfg; by right.
Qed.

Lemma rmapM_total {A B} (g : A → B) l : rmapM (λ x, Ok (g x)) l = Ok (g <$> l).
Proof. induction l as [|x l IH]; [done|]. simpl. by rewrite IH. Qed.

Lemma elements_nonempty `{Countable A} (X : gset A) : X ≠ ∅ → elements X ≠ [].
Proof. intros HX Hl. by apply elements_empty_inv, leibniz_equiv in Hl. Qed.

(** ** Erasure: the score of each routine, whatever the trace buffers *)

Section Erasure.
Variable simC : string → string → Qc.
Variable fpow : Qc → Qc → Qc.

Lemma simLiteral_flat_value l1 l2 debug diff :
  value_pure (simLiteral_flat simC l1 l2 debug diff)
             (rmap snd (flat_components simC l1 l2 diff)).
Proof.
  intros st. unfold simLiteral_flat, bind, lift.
  destruct (flat_components simC l1 l2 diff) as [[[sp sa] sc]|e]; [|done].
  simpl. destruct (debug_on debug "literal"); [|done].
  destruct (canonical l1 l2) as [o1 o2].
  by rewrite (surjective_pairing (record_debug _ _ _ st)), value_pure_record.
Qed.

Lemma simLiteral_value l1 l2 pw cw debug diff :
  value_pure (simLiteral simC l1 l2 pw cw debug diff)
             (weighted_literal_score simC pw cw diff l1 l2).
Proof.
  intros st. unfold simLiteral, weighted_literal_score, bind, lift.
  destruct (weighted_components simC l1 l2 pw cw diff)
    as [[[sp sa] sc]|e]; [|done].
  simpl. destruct (debug_on debug "literal"); [|done].
  destruct (canonical l1 l2) as [o1 o2].
  by rewrite (surjective_pairing (record_debug _ _ _ st)), value_pure_record.
Qed.

Section Tversky.
Context {A : Type} `{Countable A}.
Variable pair_entry : A → A → Qc → entry.
Variable sim : A → A → M Qc.
Variable simP : A → A → result Qc.
Hypothesis sim_value : ∀ x y, value_pure (sim x y) (simP x y).

Lemma membership_value p agg x (Y : gset A) :
  value_pure (membership fpow sim p agg x Y)
             (membership_score fpow simP p agg x Y).
Proof using sim_value.
  apply value_pure_bind; [|intros; apply value_pure_lift].
  apply value_pure_mapM. intros y _.
  apply value_pure_bind; [apply sim_value|]. intros; apply value_pure_ret.
Qed.

Lemma log_pairs_ok lv (lX lY : list A) seen st :
  (∀ x y, x ∈ lX → y ∈ lY → is_ok (simP x y)) →
  is_ok (foldM (λ seen x, foldM (log_pair pair_entry sim lv x) seen lY)
           seen lX st).1.
Proof using sim_value.
  revert seen st. induction lX as [|x lX IH]; intros seen st Hok;
    [by eexists|].
  simpl. unfold bind at 1.
  assert (Hin : ∀ seen st,
    is_ok (foldM (log_pair pair_entry sim lv x) seen lY st).1).
  { assert (Hx : ∀ y, y ∈ lY → is_ok (simP x y)).
    { intros; apply Hok; [left|done]. }
    clear -Hx sim_value. induction lY as [|y lY IHY]; intros seen st;
      [by eexists|].
    simpl. unfold bind at 1, log_pair at 1.
    case_decide.
    - simpl. apply IHY. intros; apply Hx; by right.
    - unfold bind at 1. destruct (Hx y) as [s Hs]; [left|].
      pose proof (sim_value x y st) as Hv. rewrite Hs in Hv.
      destruct (sim x y st) as [[s'|e] st']; simpl in Hv; [|done].
      simpl. apply IHY. intros; apply Hx; by right. }
  destruct (Hin seen st) as [seen' Hs].
  destruct (foldM _ seen lY st) as [[a|e] st']; simpl in Hs; [|done].
  apply IH. intros; apply Hok; [by right|done].
Qed.

Lemma membership_score_ok_inv p agg x (Y : gset A) m :
  membership_score fpow simP p agg x Y = Ok m →
  ∀ y, y ∈ Y → is_ok (simP x y).
Proof.
  unfold membership_score. intros Hm y Hy.
  destruct (rmapM _ (elements Y)) as [scores|e] eqn:Hs; [|done].
  eapply rmapM_ok_inv in Hs as [s Hs]; [|by apply elem_of_elements].
  destruct (simP x y); [by eexists|done].
Qed.

Lemma tversky_value (X Y : gset A) alpha beta p agg debug debug_level :
  (debug_on debug debug_level = true →
   is_Some (level_of_name debug_level)) →
  value_pure
    (generalized_tversky_similarity fpow pair_entry X Y sim alpha beta p
       agg debug debug_level)
    (tversky_score fpow X Y simP alpha beta p agg).
Proof using sim_value.
  intros Hlv. unfold generalized_tversky_similarity, tversky_score.
  case_decide; [apply value_pure_ret|].
  apply value_pure_bind_ok.
  { apply value_pure_mapM. intros; apply membership_value. }
  intros mX HmX. apply value_pure_bind.
  { apply value_pure_mapM. intros; apply membership_value. }
  intros mY. unfold tversky_ratio.
  set (r := if decide (0 < _) then _ else _).
  intros st. unfold bind at 1, lift at 1. destruct r as [score|e]; [|done].
  unfold bind at 1. simpl.
  destruct (debug_on debug debug_level); [|done].
  destruct Hlv as [lv ->]; [done|].
  unfold bind at 1. simpl. unfold bind at 1.
  match goal with |- context [foldM ?f ∅ (elements X) ?st0] =>
    destruct (log_pairs_ok lv (elements X) (elements Y) ∅ st0)
      as [seen Hs];
    [|destruct (foldM f ∅ (elements X) st0) as [[a|e] st'];
      simpl in Hs; done]
  end.
  intros x y Hx Hy. eapply rmapM_ok_inv in HmX as [m Hm]; [|done].
  eapply membership_score_ok_inv; [done|by apply elem_of_elements].
Qed.
End Tversky.

End Erasure.

(** ** Arithmetic on [Qc] *)

Lemma Qc_eq_this (x y : Qc) : x = y ↔ (this x == this y)%Q.
Proof. split; [by intros ->|apply Qc_is_canon]. Qed.

Lemma this_plus (x y : Qc) : (this (x + y) == this x + this y)%Q.
Proof. apply Qred_correct. Qed.

Lemma this_mult (x y : Qc) : (this (x * y) == this x * this y)%Q.
Proof. apply Qred_correct. Qed.

Lemma this_opp (x : Qc) : (this (- x) == - this x)%Q.
Proof. apply Qred_correct. Qed.

Lemma this_minus (x y : Qc) : (this (x - y) == this x - this y)%Q.
Proof. unfold Qcminus. rewrite this_plus, this_opp. reflexivity. Qed.

Lemma this_inv (x : Qc) : (this (/ x) == / this x)%Q.
Proof. apply Qred_correct. Qed.

Lemma this_div (x y : Qc) : (this (x / y) == this x / this y)%Q.
Proof. unfold Qcdiv. rewrite this_mult, this_inv. reflexivity. Qed.

Lemma this_Q2Qc (q : Q) : (this (Q2Qc q) == q)%Q.
Proof. apply Qred_correct. Qed.

(** Moves a goal on [Qc] to [Q], where [lra] and [nra] apply. *)
Ltac qc_push :=
  repeat match goal with
  | |- context [this (Qcdiv ?x ?y)] => rewrite (this_div x y)
  | |- context [this (Qcminus ?x ?y)] => rewrite (this_minus x y)
  | |- context [this (Qcplus ?x ?y)] => rewrite (this_plus x y)
  | |- context [this (Qcmult ?x ?y)] => rewrite (this_mult x y)
  | |- context [this (Qcopp ?x)] => rewrite (this_opp x)
  | |- context [this (Qcinv ?x)] => rewrite (this_inv x)
  | |- context [this (Q2Qc ?q)] => rewrite (this_Q2Qc q)
  end.
Ltac qc_push_in H :=
  repeat match type of H with
  | context [this (Qcdiv ?x ?y)] => rewrite (this_div x y) in H
  | context [this (Qcminus ?x ?y)] => rewrite (this_minus x y) in H
  | context [this (Qcplus ?x ?y)] => rewrite (this_plus x y) in H
  | context [this (Qcmult ?x ?y)] => rewrite (this_mult x y) in H
  | context [this (Qcopp ?x)] => rewrite (this_opp x) in H
  | context [this (Qcinv ?x)] => rewrite (this_inv x) in H
  | context [this (Q2Qc ?q)] => rewrite (this_Q2Qc q) in H
  end.
Ltac qc_to_q :=
  unfold unit_interval, q_half, q_two, q_08, q_02, epsilon in *;
  repeat match goal with
  | H : _ ∧ _ |- _ => destruct H
  | H : @eq Qc _ _ |- _ => apply Qc_eq_this in H
  | H : not (@eq Qc _ _) |- _ => rewrite Qc_eq_this in H
  | |- @eq Qc _ _ => apply Qc_eq_this
  | |- not (@eq Qc _ _) => rewrite Qc_eq_this
  end;
  unfold Qcle, Qclt in *;
  repeat match goal with
  | H : context [this _] |- _ => progress qc_push_in H
  end;
  qc_push;
  unfold Qdiv in *; change (/ (2 # 1))%Q with (1 # 2)%Q in *.
Ltac qc_lra := qc_to_q; lra.
Ltac qc_nra := qc_to_q; nra.

Lemma Qc_mul_nonneg (a b : Qc) : 0 ≤ a → 0 ≤ b → 0 ≤ a * b.
Proof. intros. qc_nra. Qed.

Lemma Qc_div_mul (a d : Qc) : d ≠ 0 → a / d * d = a.
Proof. intros Hd. field. done. Qed.

Lemma Qc_div_nonneg (a d : Qc) : 0 ≤ a → 0 < d → 0 ≤ a / d.
Proof.
  intros Ha Hd. pose proof (Qc_div_mul a d) as Hm.
  destruct (Qclt_le_dec (a / d) 0) as [Hlt|]; [|done].
  assert (a / d * d = a) as Hm' by (apply Hm; intros ->; qc_lra).
  clear Hm. exfalso. qc_nra.
Qed.

Lemma Qc_div_le_1 (a d : Qc) : a ≤ d → 0 < d → a / d ≤ 1.
Proof.
  intros Ha Hd.
  assert (a / d * d = a) as Hm by (apply Qc_div_mul; intros ->; qc_lra).
  destruct (Qclt_le_dec 1 (a / d)) as [Hlt|]; [|done].
  exfalso. qc_nra.
Qed.

Lemma Qc_div_same (d : Qc) : d ≠ 0 → d / d = 1.
Proof. intros. by field. Qed.

Lemma foldl_qcplus (a : Qc) l : foldl Qcplus a l = a + qsum l.
Proof.
  unfold qsum. revert a. induction l as [|x l IH]; intros a; simpl; [ring|].
  rewrite (IH (a + x)), (IH (0 + x)). ring.
Qed.

Lemma qsum_nil : qsum [] = 0.
Proof. done. Qed.

Lemma qsum_cons x l : qsum (x :: l) = x + qsum l.
Proof. unfold qsum at 1. simpl. rewrite foldl_qcplus. ring. Qed.

Lemma qsum_app l1 l2 : qsum (l1 ++ l2) = qsum l1 + qsum l2.
Proof.
  induction l1 as [|x l1 IH]; simpl; [rewrite qsum_nil; ring|].
  rewrite !qsum_cons, IH. ring.
Qed.

Lemma qsum_perm l1 l2 : l1 ≡ₚ l2 → qsum l1 = qsum l2.
Proof.
  induction 1 as [|x l1 l2 _ IH|x y l|l1 l2 l3 _ IH1 _ IH2];
    rewrite ?qsum_cons; [done|by rewrite IH|ring|congruence].
Qed.

Lemma qsum_nonneg l : Forall (λ x, 0 ≤ x) l → 0 ≤ qsum l.
Proof.
  induction 1 as [|x l Hx _ IH]; [done|]. rewrite qsum_cons. qc_lra.
Qed.

Lemma qsum_zero l : Forall (λ x, x = 0) l → qsum l = 0.
Proof.
  induction 1 as [|x l Hx _ IH]; [done|]. rewrite qsum_cons, Hx, IH. ring.
Qed.

(** ** The flat phase never raises *)

Lemma guarded_fdiv_ok (n t d : Qc) :
  0 ≤ d → is_ok (if decide (0 < t) then fdiv n (t + d) else Ok 0).
Proof.
  intros Hd. case_decide; [|by eexists]. unfold fdiv.
  case_decide; [exfalso; qc_lra|by eexists].
Qed.

Lemma py_max_ok l : l ≠ [] → is_ok (py_max l).
Proof. destruct l; [done|]. by eexists. Qed.

Section FlatPhase.
Variable simC : string → string → Qc.
Variable fpow : Qc → Qc → Qc.

Lemma pointwise_ok args1 args2 w1 w2 pw uw diff :
  0 ≤ diff →
  is_ok (pointwise_similarity_weighted simC args1 args2 w1 w2 pw uw diff).
Proof.
  intros Hd. unfold pointwise_similarity_weighted.
  destruct args1 as [|a1 args1]; [by eexists|].
  destruct args2 as [|a2 args2]; [by eexists|].
  set (pos := foldl _ _ (zip _ _)). set (uno := foldl _ _ (a1 :: _)).
  destruct (guarded_fdiv_ok pos.1 pos.2 diff Hd) as [sp ->].
  destruct (guarded_fdiv_ok uno.1 uno.2 diff Hd) as [su ->].
  by eexists.
Qed.

Lemma flat_components_ok l1 l2 diff :
  0 ≤ diff → is_ok (flat_components simC l1 l2 diff).
Proof.
  intros Hd. unfold flat_components.
  destruct (pointwise_ok l1.2 l2.2 (unit_weights l1.2) (unit_weights l2.2)
              q_08 q_02 diff Hd) as [sa ->].
  by eexists.
Qed.

Lemma flat_literal_score_ok l1 l2 : is_ok (flat_literal_score simC l1 l2).
Proof.
  unfold flat_literal_score.
  destruct (flat_components_ok l1 l2 0) as [v ->]; [done|]. by eexists.
Qed.

Lemma tversky_ratio_ok alpha beta mX mY :
  is_ok (tversky_ratio alpha beta mX mY).
Proof.
  unfold tversky_ratio. case_decide; [|by eexists]. unfold fdiv.
  case_decide as Hz; [|by eexists]. rewrite Hz in *. done.
Qed.

Lemma membership_score_ok `{Countable A} (sim : A → A → result Qc) p agg
    x (Y : gset A) :
  Y ≠ ∅ → (∀ y, y ∈ Y → is_ok (sim x y)) →
  (∀ l, l ≠ [] → is_ok (agg l)) →
  is_ok (membership_score fpow sim p agg x Y).
Proof.
  intros HY Hsim Hagg. unfold membership_score.
  destruct (rmapM_ok (λ y, let+ s := sim x y in Ok (fpow s p)) (elements Y))
    as [scores Hs].
  { intros y Hy. destruct (Hsim y) as [s ->]; [by apply elem_of_elements|].
    by eexists. }
  rewrite Hs. simpl. apply Hagg. intros ->.
  apply rmapM_length in Hs. by apply elements_nonempty in HY; destruct (elements Y).
Qed.

Lemma tversky_score_ok `{Countable A} (X Y : gset A) sim alpha beta p agg :
  (∀ x y, x ∈ X → y ∈ Y → is_ok (sim x y)) →
  (∀ x y, x ∈ X → y ∈ Y → is_ok (sim y x)) →
  (∀ l, l ≠ [] → is_ok (agg l)) →
  is_ok (tversky_score fpow X Y sim alpha beta p agg).
Proof.
  intros H1 H2 Hagg. unfold tversky_score.
  case_decide as HXY; [by eexists|].
  assert (HX : X ≠ ∅) by tauto. assert (HY : Y ≠ ∅) by tauto.
  destruct (rmapM_ok (λ x, membership_score fpow sim p agg x Y) (elements X))
    as [mX ->].
  { intros x Hx%elem_of_elements. apply membership_score_ok; auto. }
  destruct (rmapM_ok (λ y, membership_score fpow sim p agg y X) (elements Y))
    as [mY ->].
  { intros y Hy%elem_of_elements. apply membership_score_ok; auto. }
  apply tversky_ratio_ok.
Qed.

Lemma flat_clause_score_ok c1 c2 : is_ok (flat_clause_score simC fpow c1 c2).
Proof.
  apply tversky_score_ok; auto using flat_literal_score_ok, py_max_ok.
Qed.

Lemma flat_clause_score_value c1 c2 :
  flat_clause_score simC fpow c1 c2 = Ok (flat_value simC fpow c1 c2).
Proof.
  unfold flat_value. by destruct (flat_clause_score_ok c1 c2) as [v ->].
Qed.

(** [flat_similarities] holds the flat score of every pair of the two
    sorted lists, and nothing else. *)
Lemma flat_table_spec all1 all2 :
  ∃ flat, flat_table simC fpow all1 all2 = Ok flat ∧
    ∀ c1 c2, flat !! (c1, c2) =
      if decide (c1 ∈ all1 ∧ c2 ∈ all2)
      then Some (flat_value simC fpow c1 c2) else None.
Proof.
  unfold flat_table.
  assert (Hin : ∀ c1 l2 (flat0 : gmap (Clause * Clause) Qc),
    ∃ flat,
      rfoldM (λ flat c2, let+ sim := flat_clause_score simC fpow c1 c2 in
                         Ok (<[(c1, c2) := sim]> flat)) flat0 l2 = Ok flat ∧
      ∀ d1 d2, flat !! (d1, d2) =
        if decide (d1 = c1 ∧ d2 ∈ l2)
        then Some (flat_value simC fpow d1 d2) else flat0 !! (d1, d2)).
  { intros c1 l2. induction l2 as [|c2 l2 IH]; intros flat0.
    - exists flat0. split; [done|]. intros d1 d2.
      case_decide as Hd; [|done]. destruct Hd as [_ Hd]. by inversion Hd.
    - simpl. rewrite flat_clause_score_value. simpl.
      destruct (IH (<[(c1, c2) := flat_value simC fpow c1 c2]> flat0))
        as (flat & -> & Hflat).
      exists flat. split; [done|]. intros d1 d2. rewrite Hflat.
      destruct (decide (d1 = c1 ∧ d2 ∈ l2)) as [[-> Hd]|Hd].
      + rewrite decide_True; [done|]. split; [done|by right].
      + destruct (decide ((c1, c2) = (d1, d2))) as [Heq|Hne].
        * inversion Heq; subst. rewrite lookup_insert_eq.
          rewrite decide_True; [done|]. split; [done|left].
        * rewrite lookup_insert_ne by done.
          case_decide as Hd'; [|done]. destruct Hd' as [-> Hd'].
          apply elem_of_cons in Hd' as [->|Hd']; [done|].
          exfalso. by apply Hd. }
  assert (Hout : ∀ l1 (flat0 : gmap (Clause * Clause) Qc),
    ∃ flat,
      rfoldM (λ flat c1,
        rfoldM (λ flat c2, let+ sim := flat_clause_score simC fpow c1 c2 in
                           Ok (<[(c1, c2) := sim]> flat)) flat all2)
        flat0 l1 = Ok flat ∧
      ∀ d1 d2, flat !! (d1, d2) =
        if decide (d1 ∈ l1 ∧ d2 ∈ all2)
        then Some (flat_value simC fpow d1 d2) else flat0 !! (d1, d2)).
  { induction l1 as [|c1 l1 IH]; intros flat0.
    - exists flat0. split; [done|]. intros d1 d2.
      case_decide as Hd; [|done]. destruct Hd as [Hd _]. by inversion Hd.
    - simpl. destruct (Hin c1 all2 flat0) as (flat1 & -> & Hflat1). simpl.
      destruct (IH flat1) as (flat & -> & Hflat).
      exists flat. split; [done|]. intros d1 d2.
      rewrite Hflat, Hflat1.
      destruct (decide (d1 ∈ l1 ∧ d2 ∈ all2)) as [[Hd1 Hd2]|Hd].
      + rewrite decide_True; [done|]. split; [by right|done].
      + destruct (decide (d1 = c1 ∧ d2 ∈ all2)) as [[-> Hd2]|Hd'].
        * rewrite decide_True; [done|]. split; [left|done].
        * rewrite decide_False; [done|]. intros [Hd1 Hd2].
          apply elem_of_cons in Hd1 as [->|Hd1]; tauto. }
  destruct (Hout all1 ∅) as (flat & Hflat & Hl).
  exists flat. split; [done|]. intros c1 c2. rewrite Hl.
  by case_decide.
Qed.

End FlatPhase.

(** ** Sorting, [max] with a key, ordered dictionaries *)

Lemma insert_by_perm {A K} (ltb : K → K → bool) (key : A → K) x l :
  insert_by ltb key x l ≡ₚ x :: l.
Proof.
  induction l as [|y l IH]; simpl; [done|].
  destruct (ltb _ _); [done|]. rewrite IH. apply Permutation_swap.
Qed.

Lemma sorted_by_perm {A K} (ltb : K → K → bool) (key : A → K) l :
  sorted_by ltb key l ≡ₚ l.
Proof.
  unfold sorted_by.
  assert (Hg : ∀ acc, foldl (λ acc x, insert_by ltb key x acc) acc l
                      ≡ₚ acc ++ l).
  { induction l as [|x l IH]; intros acc; simpl; [by rewrite app_nil_r|].
    rewrite IH, insert_by_perm. by rewrite <- Permutation_middle. }
  apply Hg.
Qed.

Lemma sorted_clauses_perm F : sorted_clauses F ≡ₚ elements F.
Proof. apply sorted_by_perm. Qed.

Lemma elem_of_sorted_clauses F c : c ∈ sorted_clauses F ↔ c ∈ F.
Proof. by rewrite sorted_clauses_perm, elem_of_elements. Qed.

Lemma NoDup_sorted_clauses F : NoDup (sorted_clauses F).
Proof. rewrite sorted_clauses_perm. apply NoDup_elements. Qed.

Lemma sorted_clauses_nil F : sorted_clauses F = [] ↔ F = ∅.
Proof.
  split.
  - intros Hs. apply leibniz_equiv, elements_empty_inv.
    apply Permutation_nil_r. by rewrite <- Hs, sorted_clauses_perm.
  - intros ->. apply Permutation_nil_r. rewrite sorted_clauses_perm.
    by rewrite elements_empty.
Qed.

Lemma sorted_clauses_empty : sorted_clauses ∅ = [].
Proof. by apply sorted_clauses_nil. Qed.

Lemma max_by_from_elem {A} (key : A → result Qc) best kbest l b :
  max_by_from key best kbest l = Ok b → b = best ∨ b ∈ l.
Proof.
  revert best kbest. induction l as [|x l IH]; intros best kbest; simpl.
  - intros [= ->]. by left.
  - destruct (key x) as [kx|]; [|done]. simpl.
    rewrite elem_of_cons. case_decide; intros [->|Hb]%IH; auto.
Qed.

Lemma max_by_elem {A} (key : A → result Qc) l b :
  max_by key l = Ok b → b ∈ l.
Proof.
  destruct l as [|x l]; [done|]. simpl. destruct (key x); [|done]. simpl.
  intros [->|Hb]%max_by_from_elem; [left|by right].
Qed.

Lemma max_by_from_ok {A} (key : A → result Qc) best kbest l :
  (∀ x, x ∈ l → is_ok (key x)) → is_ok (max_by_from key best kbest l).
Proof.
  revert best kbest. induction l as [|x l IH]; intros best kbest Hk;
    [by eexists|].
  simpl. destruct (Hk x) as [kx ->]; [left|]. simpl.
  case_decide; apply IH; intros; apply Hk; by right.
Qed.

Lemma max_by_ok {A} (key : A → result Qc) l :
  l ≠ [] → (∀ x, x ∈ l → is_ok (key x)) → is_ok (max_by key l).
Proof.
  destruct l as [|x l]; [done|]. intros _ Hk. simpl.
  destruct (Hk x) as [kx ->]; [left|]. simpl.
  apply max_by_from_ok. intros; apply Hk; by right.
Qed.

Lemma max_by_from_max {A} (key : A → result Qc) (f : A → Qc) best l b :
  (∀ x, x ∈ l → key x = Ok (f x)) →
  max_by_from key best (f best) l = Ok b →
  f best ≤ f b ∧ ∀ x, x ∈ l → f x ≤ f b.
Proof.
  revert best. induction l as [|x l IH]; intros best Hk; simpl.
  - intros [= ->]. split; [apply Qcle_refl|]. intros x Hx. by inversion Hx.
  - rewrite (Hk x) by left. simpl. case_decide as Hlt; intros Hb.
    + apply IH in Hb as [Hx Hl]; [|intros; apply Hk; by right].
      split; [qc_lra|]. intros y [->|Hy]%elem_of_cons; auto.
    + apply IH in Hb as [Hx Hl]; [|intros; apply Hk; by right].
      split; [done|]. intros y [->|Hy]%elem_of_cons; [qc_lra|auto].
Qed.

Lemma max_by_max {A} (key : A → result Qc) (f : A → Qc) l b :
  (∀ x, x ∈ l → key x = Ok (f x)) →
  max_by key l = Ok b → ∀ x, x ∈ l → f x ≤ f b.
Proof.
  destruct l as [|x0 l]; [done|]. intros Hk. simpl.
  rewrite (Hk x0) by left. simpl. intros Hb.
  apply max_by_from_max in Hb as [H0 Hl]; [|intros; apply Hk; by right].
  intros y [->|Hy]%elem_of_cons; auto.
Qed.

Lemma max_by_from_ext {A} (key key' : A → result Qc) best kbest l :
  (∀ x, x ∈ l → key x = key' x) →
  max_by_from key best kbest l = max_by_from key' best kbest l.
Proof.
  revert best kbest. induction l as [|x l IH]; intros best kbest Hk; [done|].
  simpl. rewrite <- (Hk x) by left. destruct (key x); [|done]. simpl.
  case_decide; apply IH; intros; apply Hk; by right.
Qed.

Lemma max_by_ext {A} (key key' : A → result Qc) l :
  (∀ x, x ∈ l → key x = key' x) → max_by key l = max_by key' l.
Proof.
  destruct l as [|x l]; [done|]. intros Hk. simpl.
  rewrite <- (Hk x) by left. destruct (key x); [|done]. simpl.
  apply max_by_from_ext. intros; apply Hk; by right.
Qed.

Lemma elem_of_dict_set {K V} `{EqDecision K} (k k' : K) (v : V) d :
  k' ∈ (dict_set k v d).*1 ↔ k' = k ∨ k' ∈ d.*1.
Proof.
  induction d as [|[k0 v0] d IH]; simpl.
  - rewrite list_elem_of_singleton. set_solver.
  - case_decide; subst; simpl; rewrite !elem_of_cons, ?IH; naive_solver.
Qed.

Lemma NoDup_dict_set {K V} `{EqDecision K} (k : K) (v : V) d :
  NoDup d.*1 → NoDup (dict_set k v d).*1.
Proof.
  induction d as [|[k0 v0] d IH]; simpl; intros Hd.
  - apply NoDup_singleton.
  - apply NoDup_cons in Hd as [Hk0 Hd].
    case_decide; subst; simpl; apply NoDup_cons; [done|].
    split; [|auto]. rewrite elem_of_dict_set. naive_solver.
Qed.

(** The shape shared by the two loops of [best_matches]. *)
Lemma rfoldM_dict_set {A B K V} `{EqDecision K} (gb : A → result B)
    (gv : A → B → result V) (mk : A → B → K) l d0 d :
  rfoldM (λ d x, let+ b := gb x in let+ v := gv x b in
                 Ok (dict_set (mk x b) v d)) d0 l = Ok d →
  (NoDup d0.*1 → NoDup d.*1) ∧
  (∀ k, k ∈ d.*1 ↔ k ∈ d0.*1 ∨ ∃ x b, x ∈ l ∧ gb x = Ok b ∧ k = mk x b) ∧
  (∀ x, x ∈ l → is_ok (gb x)).
Proof.
  revert d0. induction l as [|x l IH]; intros d0; simpl.
  - intros [= ->]. split; [done|]. split.
    + intros k. split; [by left|]. intros [?|(x & b & Hx & _)]; [done|].
      by inversion Hx.
    + intros x Hx. by inversion Hx.
  - destruct (gb x) as [b|] eqn:Hb; [|done]. simpl.
    destruct (gv x b) as [v|] eqn:Hv; [|done]. simpl.
    intros (Hnd & Hk & Hok)%IH. split; [|split].
    + intros Hd0. by apply Hnd, NoDup_dict_set.
    + intros k. rewrite Hk, elem_of_dict_set. split.
      * intros [[->|?]|(y & b' & Hy & Hb' & ->)]; eauto.
        -- right. exists x, b. split; [left|done].
        -- right. exists y, b'. split; [by right|done].
      * intros [?|(y & b' & [->|Hy]%elem_of_cons & Hb' & ->)]; eauto.
        -- left. left. congruence.
        -- right. eauto.
    + intros y [->|Hy]%elem_of_cons; [by eexists|auto].
Qed.

Lemma rfoldM_dict_set_ok {A B K V} `{EqDecision K} (gb : A → result B)
    (gv : A → B → result V) (mk : A → B → K) l d0 :
  (∀ x, x ∈ l → ∃ b, gb x = Ok b ∧ is_ok (gv x b)) →
  is_ok (rfoldM (λ d x, let+ b := gb x in let+ v := gv x b in
                        Ok (dict_set (mk x b) v d)) d0 l).
Proof.
  revert d0. induction l as [|x l IH]; intros d0 Hg; [by eexists|].
  simpl. destruct (Hg x) as (b & -> & v & Hv); [left|]. simpl.
  rewrite Hv. simpl. apply IH. intros; apply Hg; by right.
Qed.

(** ** The clause correspondence *)

Section Correspondence.
Variable flat : gmap (Clause * Clause) Qc.
Variables all1 all2 : list Clause.

(** What [best_matches] holds when it returns: one entry per distinct
    pair, and the pairs are exactly the best partner of each clause of
    either side. *)
Lemma best_matches_spec bm :
  best_matches all1 all2 flat = Ok bm →
  NoDup bm.*1 ∧
  (∀ k, k ∈ bm.*1 ↔
     (∃ c1 b, c1 ∈ all1 ∧
        max_by (λ c2, dict_get flat (c1, c2)) all2 = Ok b ∧ k = (c1, b)) ∨
     (∃ c2 b, c2 ∈ all2 ∧
        max_by (λ c1, dict_get flat (c1, c2)) all1 = Ok b ∧ k = (b, c2))) ∧
  (∀ c1, c1 ∈ all1 → is_ok (max_by (λ c2, dict_get flat (c1, c2)) all2)) ∧
  (∀ c2, c2 ∈ all2 → is_ok (max_by (λ c1, dict_get flat (c1, c2)) all1)).
Proof.
  unfold best_matches.
  destruct (rfoldM _ [] all1) as [bm1|] eqn:H1; [|done]. simpl. intros H2.
  apply (rfoldM_dict_set
           (λ c1, max_by (λ c2, dict_get flat (c1, c2)) all2)
           (λ c1 b, dict_get flat (c1, b)) (λ c1 b, (c1, b)))
    in H1 as (Hnd1 & Hk1 & Hok1).
  apply (rfoldM_dict_set
           (λ c2, max_by (λ c1, dict_get flat (c1, c2)) all1)
           (λ c2 b, dict_get flat (b, c2)) (λ c2 b, (b, c2)))
    in H2 as (Hnd2 & Hk2 & Hok2).
  split; [apply Hnd2, Hnd1, NoDup_nil_2|]. split; [|done].
  intros k. rewrite Hk2, Hk1. split.
  - intros [[Hk|?]|?]; [by inversion Hk|by left|by right].
  - intros [?|?]; [left; by right|by right].
Qed.

Lemma best_matches_ok :
  all1 ≠ [] → all2 ≠ [] →
  (∀ c1 c2, c1 ∈ all1 → c2 ∈ all2 → is_Some (flat !! (c1, c2))) →
  is_ok (best_matches all1 all2 flat).
Proof.
  intros Hne1 Hne2 Hflat. unfold best_matches.
  assert (Hget : ∀ c1 c2, c1 ∈ all1 → c2 ∈ all2 →
                          is_ok (dict_get flat (c1, c2))).
  { intros c1 c2 Hc1 Hc2. unfold dict_get.
    destruct (Hflat c1 c2 Hc1 Hc2) as [v ->]. by eexists. }
  destruct (rfoldM_dict_set_ok
              (λ c1, max_by (λ c2, dict_get flat (c1, c2)) all2)
              (λ c1 b, dict_get flat (c1, b)) (λ c1 b, (c1, b)) all1 [])
    as [bm1 Hbm1].
  { intros c1 Hc1.
    destruct (max_by_ok (λ c2, dict_get flat (c1, c2)) all2) as [b Hb];
      [done|auto|].
    exists b. split; [done|]. apply Hget; [done|]. by eapply max_by_elem. }
  rewrite Hbm1. simpl.
  apply (rfoldM_dict_set_ok
           (λ c2, max_by (λ c1, dict_get flat (c1, c2)) all1)
           (λ c2 b, dict_get flat (b, c2)) (λ c2 b, (b, c2))).
  intros c2 Hc2.
  destruct (max_by_ok (λ c1, dict_get flat (c1, c2)) all1) as [b Hb];
    [done|auto|].
  exists b. split; [done|]. apply Hget; [|done]. by eapply max_by_elem.
Qed.

(** Every selected pair is made of a clause of each side. *)
Lemma best_matches_members bm c1 c2 :
  best_matches all1 all2 flat = Ok bm →
  (c1, c2) ∈ bm.*1 → c1 ∈ all1 ∧ c2 ∈ all2.
Proof.
  intros (_ & Hk & _)%best_matches_spec Hin. apply Hk in Hin.
  destruct Hin as [(d1 & b & Hd1 & Hb & [= -> ->])
                  |(d2 & b & Hd2 & Hb & [= -> ->])];
    apply max_by_elem in Hb; done.
Qed.

(** Every clause of either side takes part in a selected pair. *)
Lemma best_matches_cover bm :
  best_matches all1 all2 flat = Ok bm →
  (∀ c1, c1 ∈ all1 → ∃ c2, c2 ∈ all2 ∧ (c1, c2) ∈ bm.*1) ∧
  (∀ c2, c2 ∈ all2 → ∃ c1, c1 ∈ all1 ∧ (c1, c2) ∈ bm.*1).
Proof.
  intros (_ & Hk & Hok1 & Hok2)%best_matches_spec. split.
  - intros c1 Hc1. destruct (Hok1 c1 Hc1) as [b Hb]. exists b.
    split; [by eapply max_by_elem|]. apply Hk. left. by exists c1, b.
  - intros c2 Hc2. destruct (Hok2 c2 Hc2) as [b Hb]. exists b.
    split; [by eapply max_by_elem|]. apply Hk. right. by exists c2, b.
Qed.

End Correspondence.

Lemma best_matches_nil_nil flat : best_matches [] [] flat = Ok [].
Proof. done. Qed.

Lemma best_matches_nil_l flat c l :
  best_matches [] (c :: l) flat = Raise ValueError.
Proof. done. Qed.

Lemma best_matches_nil_r flat c l :
  best_matches (c :: l) [] flat = Raise ValueError.
Proof. done. Qed.

Lemma best_matches_nonempty flat all1 all2 bm :
  all1 ≠ [] → best_matches all1 all2 flat = Ok bm → bm ≠ [].
Proof.
  intros Hne Hbm ->. destruct all1 as [|c1 all1]; [done|].
  apply best_matches_cover in Hbm as [H1 _].
  destruct (H1 c1) as (c2 & _ & Hin); [left|]. by inversion Hin.
Qed.

(** ** The score returned by [simFormulaSet] *)

Section FormulaErasure.
Variable simC : string → string → Qc.
Variable fpow : Qc → Qc → Qc.

Lemma flat_phase_value all1 all2 debug :
  value_pure (flat_phase simC fpow all1 all2 debug)
             (flat_table simC fpow all1 all2).
Proof.
  apply value_pure_foldM. intros flat c1 _.
  apply value_pure_foldM. intros flat' c2 _.
  apply value_pure_bind.
  { apply tversky_value; [|by eexists].
    intros l1 l2. apply simLiteral_flat_value. }
  by intros sim st.
Qed.

Lemma weighted_step_value cw1 cw2 pw cw params debug diff item :
  value_pure (weighted_step simC fpow cw1 cw2 pw cw params debug diff item)
             (weighted_step_score simC fpow cw1 cw2 pw cw params diff item).
Proof.
  unfold weighted_step, weighted_step_score.
  destruct params as [ps|]; [|apply value_pure_lift].
  apply value_pure_bind.
  { apply tversky_value; [|by eexists].
    intros l1 l2. apply simLiteral_value. }
  by intros sim st.
Qed.

(** The trace has no influence on the score: [simFormulaSet] returns
    [formula_score], or raises as it does. *)
Lemma simFormulaSet_score F1 F2 cw1 cw2 pw1 pw2 kw1 kw2 params debug st :
  rmap fst (simFormulaSet simC fpow F1 F2 cw1 cw2 pw1 pw2 kw1 kw2
              params debug st).1
  = formula_score simC fpow F1 F2 cw1 cw2 pw1 pw2 kw1 kw2 params.
Proof.
  unfold simFormulaSet, formula_score.
  unfold bind at 1, clear_trace at 1. cbv beta iota zeta.
  unfold bind at 1.
  pose proof (flat_phase_value (sorted_clauses F1) (sorted_clauses F2)
                debug init_state) as Hflat.
  destruct (flat_phase simC fpow _ _ debug init_state) as [[flat|e] st1];
    simpl in Hflat; rewrite <- Hflat; simpl; [|done].
  unfold bind at 1, lift at 1.
  destruct (best_matches _ _ flat) as [bm|e] eqn:Hbm; simpl; [|done].
  unfold bind at 1.
  match goal with |- context [mapM ?f bm st1] =>
    pose proof (value_pure_mapM f _ bm
      (λ item _, weighted_step_value cw1 cw2 _ _ params debug _ item) st1)
      as Hws;
    destruct (mapM f bm st1) as [[ws|e] st2]
  end; simpl in Hws; rewrite <- Hws; simpl; [|done].
  unfold bind at 1, lift at 1.
  destruct (final_score ws) as [score|e]; simpl; [|done].
  unfold bind at 1. simpl. unfold bind at 1, lift at 1.
  match goal with |- context [rmapM ?g bm] =>
    destruct (rmapM_ok g bm) as [pairs ->]
  end.
  { intros [[c1 c2] v] Hitem. simpl.
    destruct (flat_table_spec simC fpow (sorted_clauses F1)
                (sorted_clauses F2)) as (flat' & Hflat' & Hl).
    rewrite <- Hflat in Hflat'. injection Hflat' as <-.
    unfold dict_get. rewrite Hl, decide_True; [by eexists|].
    eapply best_matches_members; [done|].
    apply list_elem_of_fmap. by exists (c1, c2, v). }
  unfold bind at 1.
  match goal with |- context [mapM ?f pairs ?st0] =>
    pose proof (value_pure_mapM f (λ _, Ok ()) pairs
      (λ e _, value_pure_append formula e) st0) as Hap;
    destruct (mapM f pairs st0) as [[u|e] st3]
  end; simpl in Hap; [done|].
  rewrite rmapM_total in Hap. done.
Qed.

End FormulaErasure.

Lemma rmap_raise_inv {A B} (f : A → B) (r : result A) e :
  rmap f r = Raise e → r = Raise e.
Proof. destruct r; unfold rmap; simpl; [done|by intros [= ->]]. Qed.

Lemma rmap_ok_inv {A B} (f : A → B) (r : result A) b :
  rmap f r = Ok b → ∃ a, r = Ok a ∧ f a = b.
Proof.
  destruct r as [a|]; unfold rmap; simpl; [|done]. intros [= <-]. by exists a.
Qed.

(** ** Empty formulas and missing parameters *)

Section EmptySides.
Variable simC : string → string → Qc.
Variable fpow : Qc → Qc → Qc.

Lemma formula_score_both_empty cw1 cw2 pw1 pw2 kw1 kw2 params :
  formula_score simC fpow ∅ ∅ cw1 cw2 pw1 pw2 kw1 kw2 params = Ok 0.
Proof.
  unfold formula_score.
  by rewrite sorted_clauses_empty.
Qed.

Lemma formula_score_one_empty F1 F2 cw1 cw2 pw1 pw2 kw1 kw2 params :
  (F1 = ∅ ∧ F2 ≠ ∅) ∨ (F1 ≠ ∅ ∧ F2 = ∅) →
  formula_score simC fpow F1 F2 cw1 cw2 pw1 pw2 kw1 kw2 params
  = Raise ValueError.
Proof.
  intros Hempty. unfold formula_score.
  destruct (flat_table_spec simC fpow (sorted_clauses F1) (sorted_clauses F2))
    as (flat & -> & _). simpl.
  destruct Hempty as [[-> HF2]|[HF1 ->]].
  - rewrite sorted_clauses_empty. rewrite <- sorted_clauses_nil in HF2.
    destruct (sorted_clauses F2); [done|]. by rewrite best_matches_nil_l.
  - rewrite sorted_clauses_empty. rewrite <- sorted_clauses_nil in HF1.
    destruct (sorted_clauses F1); [done|]. by rewrite best_matches_nil_r.
Qed.

(** For two non-empty formulas the correspondence is computed without
    any exception and is not empty. *)
Lemma correspondence_ok F1 F2 :
  F1 ≠ ∅ → F2 ≠ ∅ →
  ∃ flat bm,
    flat_table simC fpow (sorted_clauses F1) (sorted_clauses F2) = Ok flat ∧
    best_matches (sorted_clauses F1) (sorted_clauses F2) flat = Ok bm ∧
    bm ≠ [].
Proof.
  intros HF1 HF2.
  destruct (flat_table_spec simC fpow (sorted_clauses F1) (sorted_clauses F2))
    as (flat & Hflat & Hl).
  rewrite <- sorted_clauses_nil in HF1, HF2.
  destruct (best_matches_ok flat (sorted_clauses F1) (sorted_clauses F2))
    as [bm Hbm]; [done..| |].
  { intros c1 c2 Hc1 Hc2. rewrite Hl, decide_True by done. by eexists. }
  exists flat, bm. split; [done|]. split; [done|].
  exact (best_matches_nonempty flat _ _ bm HF1 Hbm).
Qed.

Lemma formula_score_no_params F1 F2 cw1 cw2 pw1 pw2 kw1 kw2 :
  F1 ≠ ∅ → F2 ≠ ∅ →
  formula_score simC fpow F1 F2 cw1 cw2 pw1 pw2 kw1 kw2 None
  = Raise AttributeError.
Proof.
  intros HF1 HF2. unfold formula_score.
  destruct (correspondence_ok F1 F2 HF1 HF2)
    as (flat & bm & Hflat & Hbm & Hne).
  rewrite Hflat. simpl. rewrite Hbm. simpl. by destruct bm.
Qed.

End EmptySides.

(** C10. With [params] left to its default [None], [simFormulaSet] on two
    non-empty formulas raises [AttributeError] (at [params.get], in the
    weighted rescoring loop); without [params] the call returns only when
    both formulas are empty. *)
Theorem simFormulaSet_without_params
    (simC : string → string → Qc) (fpow : Qc → Qc → Qc) (F1 F2 : Formula)
    (cw1 cw2 : gmap Clause Qc) (pw1 pw2 kw1 kw2 : gmap string Qc)
    (debug : option (gmap string bool)) (st : trace_state) :
  (F1 ≠ ∅ → F2 ≠ ∅ →
   (simFormulaSet simC fpow F1 F2 cw1 cw2 pw1 pw2 kw1 kw2 None debug st).1
   = Raise AttributeError) ∧
  (is_ok (simFormulaSet simC fpow F1 F2 cw1 cw2 pw1 pw2 kw1 kw2 None debug
            st).1
   ↔ F1 = ∅ ∧ F2 = ∅).
Proof.
  pose proof (simFormulaSet_score simC fpow F1 F2 cw1 cw2 pw1 pw2 kw1 kw2
                None debug st) as Hrun.
  split.
  - intros HF1 HF2. rewrite formula_score_no_params in Hrun by done.
    by apply rmap_raise_inv in Hrun.
  - split.
    + intros [v Hv]. rewrite Hv in Hrun. simpl in Hrun.
      destruct (decide (F1 = ∅)) as [->|HF1], (decide (F2 = ∅)) as [->|HF2];
        [done|..].
      * rewrite formula_score_one_empty in Hrun by auto. done.
      * rewrite formula_score_one_empty in Hrun by auto. done.
      * rewrite formula_score_no_params in Hrun by done. done.
    + intros [-> ->]. rewrite formula_score_both_empty in Hrun.
      apply rmap_ok_inv in Hrun as (v & Hv & _). by exists v.
Qed.

Lemma simFormulaSet_without_params_witness :
  let c : Clause := {[ ("P"%string, []) ]} in
  (simFormulaSet sim_exact pow_nat {[ c ]} {[ c ]} ∅ ∅ ∅ ∅ ∅ ∅ None None
     init_state).1 = Raise AttributeError.
Proof.
  intros c.
  apply (simFormulaSet_without_params sim_exact pow_nat {[ c ]} {[ c ]}
           ∅ ∅ ∅ ∅ ∅ ∅ None init_state); compute_done.
Defined.

(** C4 (where the code departs from it).  An empty argument list and an
    empty clause give [0.0], and so do two empty formulas; but a single
    empty formula makes [simFormulaSet] raise [ValueError], from [max]
    applied to the empty list of clauses of that side. *)
Theorem simFormulaSet_one_empty_side_raises
    (simC : string → string → Qc) (fpow : Qc → Qc → Qc)
    (cw1 cw2 : gmap Clause Qc) (pw1 pw2 kw1 kw2 : gmap string Qc)
    (params : option (gmap string level_params))
    (debug : option (gmap string bool)) (st : trace_state) :
  let c : Clause := {[ ("P"%string, []) ]} in
  (simFormulaSet simC fpow ∅ {[ c ]} cw1 cw2 pw1 pw2 kw1 kw2 params debug
     st).1 = Raise ValueError ∧
  (simFormulaSet simC fpow {[ c ]} ∅ cw1 cw2 pw1 pw2 kw1 kw2 params debug
     st).1 = Raise ValueError ∧
  rmap fst (simFormulaSet simC fpow ∅ ∅ cw1 cw2 pw1 pw2 kw1 kw2 params debug
              st).1 = Ok 0.
Proof.
  intros c.
  assert (Hc : ({[ c ]} : Formula) ≠ ∅).
  { intros Hc. apply (f_equal (λ F : Formula, bool_decide (c ∈ F))) in Hc.
    by rewrite bool_decide_true, bool_decide_false in Hc by set_solver. }
  split; [|split].
  - apply (rmap_raise_inv fst). rewrite simFormulaSet_score.
    apply formula_score_one_empty. by left.
  - apply (rmap_raise_inv fst). rewrite simFormulaSet_score.
    apply formula_score_one_empty. by right.
  - rewrite simFormulaSet_score. apply formula_score_both_empty.
Qed.

(** C7. For two non-empty formulas, the flat phase and the construction of
    the correspondence return, and every clause of either formula takes
    part in at least one selected pair. *)
Theorem correspondence_covers_both_sides
    (simC : string → string → Qc) (fpow : Qc → Qc → Qc) (F1 F2 : Formula)
    (debug : option (gmap string bool)) (st : trace_state) :
  F1 ≠ ∅ → F2 ≠ ∅ →
  ∃ flat bm,
    (flat_phase simC fpow (sorted_clauses F1) (sorted_clauses F2) debug st).1
    = Ok flat ∧
    best_matches (sorted_clauses F1) (sorted_clauses F2) flat = Ok bm ∧
    (∀ c1, c1 ∈ F1 → ∃ c2, c2 ∈ F2 ∧ (c1, c2) ∈ bm.*1) ∧
    (∀ c2, c2 ∈ F2 → ∃ c1, c1 ∈ F1 ∧ (c1, c2) ∈ bm.*1).
Proof.
  intros HF1 HF2.
  destruct (correspondence_ok simC fpow F1 F2 HF1 HF2)
    as (flat & bm & Hflat & Hbm & _).
  exists flat, bm. split; [by rewrite flat_phase_value|]. split; [done|].
  apply best_matches_cover in Hbm as [H1 H2]. split.
  - intros c1 Hc1%elem_of_sorted_clauses.
    destruct (H1 c1 Hc1) as (c2 & Hc2%elem_of_sorted_clauses & Hin). eauto.
  - intros c2 Hc2%elem_of_sorted_clauses.
    destruct (H2 c2 Hc2) as (c1 & Hc1%elem_of_sorted_clauses & Hin). eauto.
Qed.

Lemma correspondence_covers_both_sides_witness :
  let c : Clause := {[ ("P"%string, []) ]} in
  ∃ flat bm,
    (flat_phase sim_exact pow_nat (sorted_clauses {[ c ]})
       (sorted_clauses {[ c ]}) None init_state).1 = Ok flat ∧
    best_matches (sorted_clauses {[ c ]}) (sorted_clauses {[ c ]}) flat
    = Ok bm ∧
    (∀ c1, c1 ∈ ({[ c ]} : Formula) →
           ∃ c2, c2 ∈ ({[ c ]} : Formula) ∧ (c1, c2) ∈ bm.*1) ∧
    (∀ c2, c2 ∈ ({[ c ]} : Formula) →
           ∃ c1, c1 ∈ ({[ c ]} : Formula) ∧ (c1, c2) ∈ bm.*1).
Proof.
  intros c.
  apply (correspondence_covers_both_sides sim_exact pow_nat {[ c ]} {[ c ]}
           None init_state); compute_done.
Defined.

(** ** The Tversky coefficient *)

Section TverskyFormula.
Variable fpow : Qc → Qc → Qc.
Context {A : Type} `{Countable A}.

Lemma tversky_score_spec (X Y : gset A) (simP : A → A → result Qc)
    (f : A → A → Qc) (agg : list Qc → result Qc) (g : list Qc → Qc)
    alpha beta p :
  X ≠ ∅ → Y ≠ ∅ →
  (∀ x y, simP x y = Ok (f x y)) →
  (∀ l, l ≠ [] → agg l = Ok (g l)) →
  tversky_score fpow X Y simP alpha beta p agg
  = Ok (tversky_spec fpow X Y f g p alpha beta).
Proof.
  intros HX HY Hsim Hagg. unfold tversky_score, tversky_spec.
  rewrite decide_False by tauto.
  assert (Hm : ∀ x (Z : gset A), Z ≠ ∅ →
    membership_score fpow simP p agg x Z
    = Ok (g ((λ y, fpow (f x y) p) <$> elements Z))).
  { intros x Z HZ. unfold membership_score.
    rewrite (rmapM_ext _ (λ y, Ok (fpow (f x y) p))).
    - rewrite rmapM_total. cbn [rbind]. apply Hagg.
      apply elements_nonempty in HZ. by destruct (elements Z).
    - intros y _. by rewrite Hsim. }
  rewrite (rmapM_ext _ (λ x, Ok (g ((λ y, fpow (f x y) p) <$> elements Y))))
    by (intros; by apply Hm).
  rewrite rmapM_total. cbn [rbind].
  rewrite (rmapM_ext _ (λ y, Ok (g ((λ x, fpow (f y x) p) <$> elements X))))
    by (intros; by apply Hm).
  rewrite rmapM_total. cbn [rbind]. unfold tversky_ratio.
  set (a := (qsum _ + qsum _) / q_two). set (b := qsum _). set (c := qsum _).
  destruct (decide (0 < a + alpha * b + beta * c)) as [Hpos|Hneg].
  - rewrite decide_False by (by apply Qclt_not_le).
    unfold fdiv. rewrite decide_False; [done|]. intros Hz. rewrite Hz in Hpos.
    done.
  - rewrite decide_True; [done|]. by apply Qcnot_lt_le.
Qed.

End TverskyFormula.



(** ** Invariants of the trace buffers *)

Lemma preserves_ret {A} I (a : A) : preserves I (ret a).
Proof. by intros st. Qed.

Lemma preserves_lift {A} I (r : result A) : preserves I (lift r).
Proof. by intros st. Qed.

Lemma preserves_bind {A B} I (m : M A) (k : A → M B) :
  preserves I m → (∀ a, preserves I (k a)) → preserves I (bind m k).
Proof.
  intros Hm Hk st Hst. unfold bind. specialize (Hm st Hst).
  destruct (m st) as [[a|e] st']; [by apply Hk|done].
Qed.

Lemma preserves_mapM {A B} I (f : A → M B) l :
  (∀ x, preserves I (f x)) → preserves I (mapM f l).
Proof.
  intros Hf. induction l as [|x l IH]; [apply preserves_ret|].
  simpl. apply preserves_bind; [done|]. intros y.
  apply preserves_bind; [done|]. intros ys. apply preserves_ret.
Qed.

Lemma preserves_foldM {A S} I (f : S → A → M S) l s :
  (∀ s x, preserves I (f s x)) → preserves I (foldM f s l).
Proof.
  intros Hf. revert s. induction l as [|x l IH]; intros s;
    [apply preserves_ret|].
  simpl. apply preserves_bind; [done|]. intros s'. apply IH.
Qed.

Lemma literal_key_canonical l1 l2 sp sa sc :
  literal_key (let '(o1, o2) := canonical l1 l2 in ELiteral o1 o2 sp sa sc)
  = Some {[ l1; l2 ]}.
Proof.
  unfold canonical. destruct (lit_ltb l2 l1); simpl; [|done].
  f_equal. set_solver.
Qed.

Lemma omap_app_singleton {A B} (f : A → option B) l x :
  omap f (l ++ [x]) = omap f l ++ match f x with Some y => [y] | None => [] end.
Proof. rewrite omap_app. simpl. by destruct (f x). Qed.

(** [record_debug] keeps the recorded pairs of its level distinct. *)
Lemma record_debug_literal_trace lv key e :
  literal_key e = Some key →
  preserves (literal_trace_ok lv) (record_debug lv key e).
Proof.
  intros Hkey st [Hnd Hseen]. unfold record_debug.
  case_decide as Hin; [done|]. split; simpl.
  - rewrite decide_True by done. rewrite omap_app_singleton, Hkey.
    apply NoDup_app. split; [done|]. split; [|apply NoDup_singleton].
    intros k Hk ->%list_elem_of_singleton. by apply Hin, Hseen.
  - intros k. rewrite !decide_True by done.
    rewrite omap_app_singleton, Hkey, elem_of_app, list_elem_of_singleton.
    intros [Hk| ->]; [apply elem_of_union_l; auto|].
    apply elem_of_union_r. by apply elem_of_singleton.
Qed.

Lemma record_debug_other_level lv lv' key e :
  lv ≠ lv' → preserves (literal_trace_ok lv) (record_debug lv' key e).
Proof.
  intros Hne st [Hnd Hseen]. unfold record_debug.
  case_decide as Hin; [done|]. split; simpl; by rewrite !decide_False.
Qed.

Lemma append_summary_other_level lv lv' e :
  lv ≠ lv' → preserves (literal_trace_ok lv) (append_summary lv' e).
Proof.
  intros Hne st [Hnd Hseen]. split; simpl; by rewrite !decide_False.
Qed.

Section TraceInvariants.
Variable simC : string → string → Qc.
Variable fpow : Qc → Qc → Qc.

Lemma simLiteral_literal_trace lv l1 l2 pw cw debug diff :
  preserves (literal_trace_ok lv) (simLiteral simC l1 l2 pw cw debug diff).
Proof.
  unfold simLiteral. apply preserves_bind; [apply preserves_lift|].
  intros [[sp sa] sc]. apply preserves_bind; [|intros; apply preserves_ret].
  destruct (debug_on debug "literal"); [|apply preserves_ret].
  pose proof (literal_key_canonical l1 l2 sp sa sc) as Hk.
  destruct (canonical l1 l2) as [o1 o2].
  destruct (decide (lv = literal_weighted)) as [->|Hne].
  - by apply record_debug_literal_trace.
  - by apply record_debug_other_level.
Qed.

Lemma simLiteral_flat_untraced I l1 l2 diff :
  preserves I (simLiteral_flat simC l1 l2 None diff).
Proof.
  unfold simLiteral_flat. apply preserves_bind; [apply preserves_lift|].
  intros [[sp sa] sc]. apply preserves_bind; intros; apply preserves_ret.
Qed.

Lemma tversky_preserves `{Countable A} I (pair_entry : A → A → Qc → entry)
    (X Y : gset A) sim alpha beta p agg debug debug_level :
  (∀ x y, preserves I (sim x y)) →
  (∀ lv e, level_of_name debug_level = Some lv →
           preserves I (append_summary lv e)) →
  preserves I (generalized_tversky_similarity fpow pair_entry X Y sim
                 alpha beta p agg debug debug_level).
Proof.
  intros Hsim Happ. unfold generalized_tversky_similarity.
  case_decide; [apply preserves_ret|].
  assert (Hm : ∀ x Z, preserves I (membership fpow sim p agg x Z)).
  { intros x Z. apply preserves_bind; [|intros; apply preserves_lift].
    apply preserves_mapM. intros y.
    apply preserves_bind; [done|]. intros; apply preserves_ret. }
  apply preserves_bind; [by apply preserves_mapM|]. intros mX.
  apply preserves_bind; [by apply preserves_mapM|]. intros mY.
  apply preserves_bind; [apply preserves_lift|]. intros score.
  apply preserves_bind; [|intros; apply preserves_ret].
  destruct (debug_on debug debug_level); [|apply preserves_ret].
  destruct (level_of_name debug_level) as [lv|] eqn:Hlv;
    [|apply preserves_lift].
  apply preserves_bind; [by apply Happ|]. intros _.
  apply preserves_bind; [|intros; apply preserves_ret].
  apply preserves_foldM. intros seen x.
  apply preserves_foldM. intros seen' y. unfold log_pair.
  case_decide; [apply preserves_ret|].
  apply preserves_bind; [done|]. intros s.
  apply preserves_bind; [by apply Happ|]. intros; apply preserves_ret.
Qed.

(** After [clear_trace], every step of [simFormulaSet] maintains [I] when
    the literal scorers and the appends to the clause and formula levels
    do. *)
Lemma simFormulaSet_preserves I F1 F2 cw1 cw2 pw1 pw2 kw1 kw2 params debug :
  I init_state →
  (∀ lv e, lv = clause_flat ∨ lv = clause_weighted ∨ lv = formula →
           preserves I (append_summary lv e)) →
  (∀ l1 l2 pw cw diff, preserves I (simLiteral simC l1 l2 pw cw debug diff)) →
  ∀ st, I (simFormulaSet simC fpow F1 F2 cw1 cw2 pw1 pw2 kw1 kw2 params
             debug st).2.
Proof.
  intros Hinit Happ Hlit st. unfold simFormulaSet.
  unfold bind at 1, clear_trace at 1. cbv beta iota zeta.
  revert Hinit. generalize init_state. clear st.
  change (preserves I
    (let* flat_similarities :=
       flat_phase simC fpow (sorted_clauses F1) (sorted_clauses F2) debug in
     let* bm :=
       lift (best_matches (sorted_clauses F1) (sorted_clauses F2)
               flat_similarities) in
     let* weighted_scores :=
       mapM (weighted_step simC fpow cw1 cw2 (merge_weights pw1 pw2)
               (merge_weights kw1 kw2) params debug
               (correction pw1 pw2 kw1 kw2)) bm in
     let* score := lift (final_score weighted_scores) in
     let* _ := append_summary formula (ETotal 0 0 0 score) in
     let* pairs :=
       lift (rmapM (λ item : Clause * Clause * Qc,
               let+ v := dict_get flat_similarities item.1 in
               Ok (EFormulaPair item.1.1 item.1.2 v)) bm) in
     let* _ := mapM (append_summary formula) pairs in
     λ st, (Ok (score, debug_summary st), st))).
  apply preserves_bind.
  { apply preserves_foldM. intros flat c1.
    apply preserves_foldM. intros flat' c2.
    apply preserves_bind.
    - apply tversky_preserves; [intros; apply simLiteral_flat_untraced|].
      intros lv e [= <-]. apply Happ. auto.
    - intros sim. apply preserves_bind; [apply Happ; auto|].
      intros; apply preserves_ret. }
  intros flat. apply preserves_bind; [apply preserves_lift|]. intros bm.
  apply preserves_bind.
  { apply preserves_mapM. intros item. unfold weighted_step.
    destruct params as [ps|]; [|apply preserves_lift].
    apply preserves_bind.
    - apply tversky_preserves; [intros; apply Hlit|].
      intros lv e [= <-]. apply Happ. auto.
    - intros sim. apply preserves_bind; [apply Happ; auto|].
      intros; apply preserves_ret. }
  intros ws. apply preserves_bind; [apply preserves_lift|]. intros score.
  apply preserves_bind; [apply Happ; auto|]. intros _.
  apply preserves_bind; [apply preserves_lift|]. intros pairs.
  apply preserves_bind.
  { apply preserves_mapM. intros e. apply Happ; auto. }
  intros _ st Hst. done.
Qed.

Lemma ensures_bind {A B} (m : M A) (k : A → M B) Q :
  (∀ a, ensures (k a) Q) → ensures (bind m k) Q.
Proof.
  intros Hk st. unfold bind. destruct (m st) as [[a|e] st']; [apply Hk|done].
Qed.

Lemma simFormulaSet_returns_buffers F1 F2 cw1 cw2 pw1 pw2 kw1 kw2 params
    debug :
  ensures (simFormulaSet simC fpow F1 F2 cw1 cw2 pw1 pw2 kw1 kw2 params debug)
          (λ r st', r.2 = debug_summary st').
Proof.
  unfold simFormulaSet. repeat (apply ensures_bind; intros ?). by intros st.
Qed.

End TraceInvariants.

(** X1. The trace buffers are reset by every call of [simFormulaSet]: the
    score, the returned trace and the buffers left behind do not depend on
    what earlier calls recorded; the score does not depend on the [debug]
    flags either. *)
Theorem simFormulaSet_independent_of_history
    (simC : string → string → Qc) (fpow : Qc → Qc → Qc) (F1 F2 : Formula)
    (cw1 cw2 : gmap Clause Qc) (pw1 pw2 kw1 kw2 : gmap string Qc)
    (params : option (gmap string level_params))
    (debug debug' : option (gmap string bool)) (st st' : trace_state) :
  simFormulaSet simC fpow F1 F2 cw1 cw2 pw1 pw2 kw1 kw2 params debug st
  = simFormulaSet simC fpow F1 F2 cw1 cw2 pw1 pw2 kw1 kw2 params debug st' ∧
  rmap fst (simFormulaSet simC fpow F1 F2 cw1 cw2 pw1 pw2 kw1 kw2 params
              debug st).1
  = rmap fst (simFormulaSet simC fpow F1 F2 cw1 cw2 pw1 pw2 kw1 kw2 params
                debug' st').1.
Proof.
  split; [reflexivity|]. by rewrite !simFormulaSet_score.
Qed.

(** X2. In the trace returned by [simFormulaSet], the weighted literal
    level never holds two entries for the same unordered pair of literals,
    whatever the inputs and the [debug] flags. *)
Theorem literal_weighted_pairs_recorded_once
    (simC : string → string → Qc) (fpow : Qc → Qc → Qc) (F1 F2 : Formula)
    (cw1 cw2 : gmap Clause Qc) (pw1 pw2 kw1 kw2 : gmap string Qc)
    (params : option (gmap string level_params))
    (debug : option (gmap string bool)) :
  ensures
    (simFormulaSet simC fpow F1 F2 cw1 cw2 pw1 pw2 kw1 kw2 params debug)
    (λ r _, NoDup (omap literal_key (r.2 literal_weighted))).
Proof.
  intros st.
  pose proof (simFormulaSet_returns_buffers simC fpow F1 F2 cw1 cw2 pw1 pw2
                kw1 kw2 params debug st) as Hret.
  assert (Hinv : literal_trace_ok literal_weighted
            (simFormulaSet simC fpow F1 F2 cw1 cw2 pw1 pw2 kw1 kw2 params
               debug st).2).
  { apply simFormulaSet_preserves.
    - split; [apply NoDup_nil_2|]. intros k Hk. by inversion Hk.
    - intros lv e [->|[->| ->]]; by apply append_summary_other_level.
    - intros. apply simLiteral_literal_trace. }
  destruct (simFormulaSet _ _ _ _ _ _ _ _ _ _ _ _ st) as [[[s tr]|e] st'];
    [|done].
  simpl in *. subst tr. apply Hinv.
Qed.

(** X3. [simFormulaSet] hands [simLiteral_flat] over without its [debug]
    argument, so the flat literal level of the returned trace is always
    empty, even when the literal level is traced. *)
Theorem literal_flat_level_stays_empty
    (simC : string → string → Qc) (fpow : Qc → Qc → Qc) (F1 F2 : Formula)
    (cw1 cw2 : gmap Clause Qc) (pw1 pw2 kw1 kw2 : gmap string Qc)
    (params : option (gmap string level_params))
    (debug : option (gmap string bool)) :
  ensures
    (simFormulaSet simC fpow F1 F2 cw1 cw2 pw1 pw2 kw1 kw2 params debug)
    (λ r _, r.2 literal_flat = []).
Proof.
  intros st.
  pose proof (simFormulaSet_returns_buffers simC fpow F1 F2 cw1 cw2 pw1 pw2
                kw1 kw2 params debug st) as Hret.
  assert (Hinv : debug_summary
            (simFormulaSet simC fpow F1 F2 cw1 cw2 pw1 pw2 kw1 kw2 params
               debug st).2 literal_flat = []).
  { apply (simFormulaSet_preserves simC fpow
             (λ st, debug_summary st literal_flat = [])); [done| |].
    - intros lv e Hlv st0 Hst0. simpl. rewrite decide_False; [done|].
      destruct Hlv as [->|[->| ->]]; done.
    - intros l1 l2 pw cw diff. unfold simLiteral.
      apply preserves_bind; [apply preserves_lift|]. intros [[sp sa] sc].
      apply preserves_bind; [|intros; apply preserves_ret].
      destruct (debug_on debug "literal"); [|apply preserves_ret].
      destruct (canonical l1 l2) as [o1 o2]. intros st0 Hst0.
      unfold record_debug. by case_decide. }
  destruct (simFormulaSet _ _ _ _ _ _ _ _ _ _ _ _ st) as [[[s tr]|e] st'];
    [|done].
  simpl in *. by subst tr.
Qed.

(** ** Scores lie in [[0,1]] *)

Lemma unit_interval_0 : unit_interval 0.
Proof. by split. Qed.

Lemma unit_interval_1 : unit_interval 1.
Proof. by split. Qed.

Lemma nonneg_default {K} `{Countable K} (w : gmap K Qc) k :
  nonneg_weights w → 0 ≤ default 0 (w !! k).
Proof.
  intros Hw. destruct (w !! k) as [v|] eqn:Hk; cbn [default]; [by eapply Hw|done].
Qed.

Lemma nonneg_unit_weights args : nonneg_weights (unit_weights args).
Proof.
  intros k v Hk. unfold unit_weights in Hk.
  apply elem_of_list_to_map_2, list_elem_of_fmap in Hk as (a & [= _ ->] & _).
  done.
Qed.

Lemma guarded_ratio_range (s t d : Qc) :
  0 ≤ s → s ≤ t → 0 ≤ d →
  ∃ v, (if decide (0 < t) then fdiv s (t + d) else Ok 0) = Ok v ∧
       unit_interval v.
Proof.
  intros Hs Hst Hd. case_decide as Ht; [|exists 0; by split].
  unfold fdiv. rewrite decide_False by (intros Hz; qc_lra).
  eexists. split; [done|]. split.
  - apply Qc_div_nonneg; [done|qc_lra].
  - apply Qc_div_le_1; qc_lra.
Qed.

Lemma qmax_list_range x l :
  unit_interval x → Forall unit_interval l → unit_interval (qmax_list x l).
Proof.
  unfold qmax_list. intros Hx Hl. revert x Hx.
  induction Hl as [|y l Hy _ IH]; intros x Hx; cbn [foldl]; [done|].
  case_decide; by apply IH.
Qed.

Lemma py_max_in_range : agg_in_range py_max.
Proof.
  intros [|x l] Hne Hl; [done|]. apply Forall_cons in Hl as [Hx Hl].
  eexists. split; [done|]. by apply qmax_list_range.
Qed.

Section Bounds.
Variable simC : string → string → Qc.
Variable fpow : Qc → Qc → Qc.
Hypothesis simC_range : ∀ a b, unit_interval (simC a b).

Lemma pos_fold_range w1 w2 l acc :
  nonneg_weights w1 → nonneg_weights w2 →
  0 ≤ acc.1 → acc.1 ≤ acc.2 →
  let r := foldl (pos_step simC w1 w2) acc l in 0 ≤ r.1 ∧ r.1 ≤ r.2.
Proof using simC_range.
  intros Hw1 Hw2. revert acc. induction l as [|a l IH]; intros acc H0 H1;
    cbn [foldl]; [done|].
  pose proof (Qc_mul_nonneg _ _ (nonneg_default w1 a.1 Hw1)
                (nonneg_default w2 a.2 Hw2)).
  destruct (simC_range a.1 a.2).
  apply IH; unfold pos_step; cbn [fst snd]; qc_nra.
Qed.

Lemma best_fold_range w2 a1 (w1 : Qc) l acc :
  nonneg_weights w2 → 0 ≤ w1 →
  unit_interval acc.1 → 0 ≤ acc.2 →
  let r := foldl (best_step simC w2 a1 w1) acc l in
  unit_interval r.1 ∧ 0 ≤ r.2.
Proof using simC_range.
  intros Hw2 Hw1. revert acc. induction l as [|a l IH]; intros acc H0 H1;
    cbn [foldl]; [done|].
  pose proof (Qc_mul_nonneg _ _ Hw1 (nonneg_default w2 a Hw2)).
  apply IH; unfold best_step; case_decide; cbn [fst snd]; done.
Qed.

Lemma unordered_fold_range w1 w2 args2 l acc :
  nonneg_weights w1 → nonneg_weights w2 →
  0 ≤ acc.1 → acc.1 ≤ acc.2 →
  let r := foldl (unordered_step simC w1 w2 args2) acc l in
  0 ≤ r.1 ∧ r.1 ≤ r.2.
Proof using simC_range.
  intros Hw1 Hw2. revert acc. induction l as [|a l IH]; intros acc H0 H1;
    cbn [foldl]; [done|].
  destruct (best_fold_range w2 a (default 0 (w1 !! a)) args2 (0, 0))
    as [[Hb0 Hb1] Hb2]; [done|by apply nonneg_default|apply unit_interval_0|done|].
  apply IH; unfold unordered_step; cbn [fst snd];
    set (b := foldl _ _ args2) in *; qc_nra.
Qed.

Lemma pointwise_range args1 args2 w1 w2 pw uw diff :
  nonneg_weights w1 → nonneg_weights w2 →
  0 ≤ pw → 0 ≤ uw → pw + uw ≤ 1 → 0 ≤ diff →
  ∃ v, pointwise_similarity_weighted simC args1 args2 w1 w2 pw uw diff = Ok v ∧
       unit_interval v.
Proof using simC_range.
  intros Hw1 Hw2 Hpw Huw Hsum Hd. unfold pointwise_similarity_weighted.
  destruct args1 as [|a1 args1]; [exists 0; by split|].
  destruct args2 as [|a2 args2]; [exists 0; by split|].
  set (pos := foldl _ _ (zip _ _)). set (uno := foldl _ _ (a1 :: _)).
  destruct (pos_fold_range w1 w2 (zip (a1 :: args1) (a2 :: args2)) (0, 0))
    as [Hp0 Hp1]; [done..|].
  destruct (unordered_fold_range w1 w2 (a2 :: args2) (a1 :: args1) (0, 0))
    as [Hu0 Hu1]; [done..|].
  destruct (guarded_ratio_range pos.1 pos.2 diff) as (sp & -> & Hsp0 & Hsp1);
    [done..|].
  destruct (guarded_ratio_range uno.1 uno.2 diff) as (su & -> & Hsu0 & Hsu1);
    [done..|].
  cbn [rbind]. eexists. split; [done|]. split; qc_nra.
Qed.

Lemma flat_components_range l1 l2 diff :
  0 ≤ diff →
  ∃ sp sa v, flat_components simC l1 l2 diff = Ok (sp, sa, v) ∧
             unit_interval v.
Proof using simC_range.
  intros Hd. unfold flat_components.
  destruct (pointwise_range l1.2 l2.2 (unit_weights l1.2) (unit_weights l2.2)
              q_08 q_02 diff) as (sa & -> & Hsa0 & Hsa1);
    [apply nonneg_unit_weights..|done|done|done|done|].
  cbn [rbind]. do 3 eexists. split; [done|].
  destruct (simC_range l1.1 l2.1). split; qc_lra.
Qed.

Lemma qsum_cross_nonneg (cw : gmap string Qc) args1 args2 :
  nonneg_weights cw →
  0 ≤ qsum (flat_map (λ a1,
         map (λ a2, default 0 (cw !! a1) * default 0 (cw !! a2)) args2)
         args1).
Proof.
  intros Hcw. apply qsum_nonneg. apply Forall_forall. intros x Hx.
  apply list_elem_of_In, in_flat_map in Hx as (a1 & _ & Hx).
  apply in_map_iff in Hx as (a2 & <- & _).
  pose proof (nonneg_default cw a1 Hcw). pose proof (nonneg_default cw a2 Hcw).
  qc_nra.
Qed.

Lemma weighted_components_range l1 l2 pw cw diff :
  nonneg_weights pw → nonneg_weights cw → 0 ≤ diff →
  ∃ sp sa v, weighted_components simC l1 l2 pw cw diff = Ok (sp, sa, v) ∧
             unit_interval v.
Proof using simC_range.
  intros Hpw Hcw Hd. unfold weighted_components.
  destruct (pointwise_range l1.2 l2.2 cw cw q_08 q_02 diff)
    as (sa & -> & Hsa0 & Hsa1); [done..|].
  cbn [rbind].
  pose proof (qsum_cross_nonneg cw l1.2 l2.2 Hcw) as Hia.
  set (ia := qsum _) in *.
  pose proof (nonneg_default pw l1.1 Hpw) as Hp1.
  pose proof (nonneg_default pw l2.1 Hpw) as Hp2.
  destruct (simC_range l1.1 l2.1) as [Hs0 Hs1].
  set (ip := default 0 (pw !! l1.1) * default 0 (pw !! l2.1)).
  assert (0 ≤ ip) as Hip by (unfold ip; qc_nra).
  destruct (guarded_ratio_range (simC l1.1 l2.1 * ip + sa * ia) (ip + ia) diff)
    as (v & -> & Hv); [qc_nra|qc_nra|done|].
  cbn [rbind]. by do 3 eexists.
Qed.

Lemma flat_literal_score_range l1 l2 :
  ∃ v, flat_literal_score simC l1 l2 = Ok v ∧ unit_interval v.
Proof using simC_range.
  unfold flat_literal_score.
  destruct (flat_components_range l1 l2 0) as (sp & sa & v & -> & Hv);
    [done|].
  by exists v.
Qed.

Lemma weighted_literal_score_range pw cw diff l1 l2 :
  nonneg_weights pw → nonneg_weights cw → 0 ≤ diff →
  ∃ v, weighted_literal_score simC pw cw diff l1 l2 = Ok v ∧ unit_interval v.
Proof using simC_range.
  intros Hpw Hcw Hd. unfold weighted_literal_score.
  destruct (weighted_components_range l1 l2 pw cw diff)
    as (sp & sa & v & -> & Hv); [done..|].
  by exists v.
Qed.

End Bounds.

Lemma rmapM_Forall {A B} (g : A → result B) (P : B → Prop) l :
  (∀ x, x ∈ l → ∃ v, g x = Ok v ∧ P v) →
  ∃ vs, rmapM g l = Ok vs ∧ Forall P vs ∧ length vs = length l.
Proof.
  induction l as [|x l IH]; intros Hg.
  - exists []. by split.
  - destruct (Hg x) as (v & Hv & HP); [left|].
    destruct IH as (vs & Hvs & HPs & Hlen); [intros; apply Hg; by right|].
    exists (v :: vs). cbn [rmapM]. rewrite Hv, Hvs. cbn [rbind].
    split; [done|]. split; [by constructor|]. cbn [length]. by rewrite Hlen.
Qed.

Lemma qsum_complement_nonneg l :
  Forall unit_interval l → 0 ≤ qsum ((λ s, 1 - s) <$> l).
Proof.
  intros Hl. apply qsum_nonneg, Forall_fmap. eapply Forall_impl; [done|].
  intros x Hx. cbn. qc_lra.
Qed.

Lemma qsum_unit_nonneg l : Forall unit_interval l → 0 ≤ qsum l.
Proof.
  intros Hl. apply qsum_nonneg. eapply Forall_impl; [done|]. by intros x [].
Qed.

Lemma tversky_ratio_range alpha beta mX mY :
  0 ≤ alpha → 0 ≤ beta → Forall unit_interval mX → Forall unit_interval mY →
  ∃ v, tversky_ratio alpha beta mX mY = Ok v ∧ unit_interval v.
Proof.
  intros Ha Hb HX HY. unfold tversky_ratio.
  pose proof (qsum_unit_nonneg mX HX) as HsX.
  pose proof (qsum_unit_nonneg mY HY) as HsY.
  pose proof (Qc_mul_nonneg _ _ Ha (qsum_complement_nonneg mX HX)) as HbX.
  pose proof (Qc_mul_nonneg _ _ Hb (qsum_complement_nonneg mY HY)) as HcY.
  set (a := (qsum mX + qsum mY) / q_two) in *.
  set (b := alpha * qsum _) in *. set (c := beta * qsum _) in *.
  assert (0 ≤ a) as Ha0 by (unfold a; qc_lra).
  case_decide as Hden; [|exists 0; by split].
  unfold fdiv. rewrite decide_False by (intros Hz; rewrite Hz in Hden; done).
  eexists. split; [done|]. split.
  - by apply Qc_div_nonneg.
  - apply Qc_div_le_1; [qc_lra|done].
Qed.

Lemma tversky_score_range (fpow : Qc → Qc → Qc) `{Countable A}
    (X Y : gset A) (sim : A → A → result Qc) alpha beta p agg :
  (∀ x y, ∃ v, sim x y = Ok v ∧ unit_interval v) →
  0 ≤ alpha → 0 ≤ beta → pow_in_range fpow p → agg_in_range agg →
  ∃ v, tversky_score fpow X Y sim alpha beta p agg = Ok v ∧ unit_interval v.
Proof.
  intros Hsim Ha Hb Hpow Hagg. unfold tversky_score.
  case_decide as HXY; [exists 0; by split|].
  assert (Hm : ∀ x (Z : gset A), Z ≠ ∅ →
    ∃ v, membership_score fpow sim p agg x Z = Ok v ∧ unit_interval v).
  { intros x Z HZ. unfold membership_score.
    destruct (rmapM_Forall (λ y, let+ s := sim x y in Ok (fpow s p))
                unit_interval (elements Z)) as (scores & -> & Hs & Hlen).
    { intros y _. destruct (Hsim x y) as (v & -> & Hv). cbn [rbind].
      eexists. split; [done|]. by apply Hpow. }
    cbn [rbind]. apply Hagg; [|done]. intros ->.
    apply elements_nonempty in HZ. by destruct (elements Z). }
  destruct (rmapM_Forall (λ x, membership_score fpow sim p agg x Y)
              unit_interval (elements X)) as (mX & -> & HmX & _).
  { intros x _. apply Hm. tauto. }
  destruct (rmapM_Forall (λ y, membership_score fpow sim p agg y X)
              unit_interval (elements Y)) as (mY & -> & HmY & _).
  { intros y _. apply Hm. tauto. }
  cbn [rbind]. by apply tversky_ratio_range.
Qed.

Lemma final_score_range ws :
  Forall (λ sw : Qc * Qc, unit_interval sw.1 ∧ 0 ≤ sw.2) ws →
  ∃ v, final_score ws = Ok v ∧ unit_interval v.
Proof.
  intros Hws. unfold final_score.
  assert (0 ≤ qsum ((λ sw, sw.1 * sw.2) <$> ws) ∧
          qsum ((λ sw, sw.1 * sw.2) <$> ws) ≤ qsum (snd <$> ws)) as [H0 H1].
  { induction Hws as [|[s w] ws [[Hs0 Hs1] Hw] _ [IH0 IH1]]; [done|].
    cbn [fmap list_fmap fst snd]. rewrite !qsum_cons. cbn [fst snd] in *.
    split; qc_nra. }
  destruct (guarded_ratio_range _ (qsum (snd <$> ws)) 0 H0 H1)
    as (v & Hv & Hr); [done|].
  exists v. split; [|done]. rewrite <- Hv. case_decide; [|done].
  f_equal. ring.
Qed.

Lemma nonneg_merge_weights w1 w2 :
  nonneg_weights w1 → nonneg_weights w2 → nonneg_weights (merge_weights w1 w2).
Proof.
  intros H1 H2 k v. unfold merge_weights.
  intros [Hk|[_ Hk]]%lookup_union_Some_raw; eauto.
Qed.

Section FormulaBounds.
Variable simC : string → string → Qc.
Variable fpow : Qc → Qc → Qc.
Hypothesis simC_range : ∀ a b, unit_interval (simC a b).

Lemma weighted_step_score_range cw1 cw2 pw cw params diff item :
  nonneg_weights cw1 → nonneg_weights cw2 →
  nonneg_weights pw → nonneg_weights cw → 0 ≤ diff →
  params_in_range fpow params →
  ∃ sw, weighted_step_score simC fpow cw1 cw2 pw cw params diff item = Ok sw ∧
        unit_interval sw.1 ∧ 0 ≤ sw.2.
Proof using simC_range.
  intros Hcw1 Hcw2 Hpw Hcw Hd (ps & -> & Ha & Hb & Hp & Hagg).
  unfold weighted_step_score, weighted_clause_score.
  destruct (tversky_score_range fpow item.1.1 item.1.2
              (weighted_literal_score simC pw cw diff)
              (default q_half (lp_alpha (default empty_level_params
                                           (ps !! "clause"%string))))
              (default q_half (lp_beta (default empty_level_params
                                          (ps !! "clause"%string))))
              (default 1 (lp_p (default empty_level_params
                                  (ps !! "clause"%string))))
              (default py_max (lp_agg (default empty_level_params
                                         (ps !! "clause"%string)))))
    as (v & Hv & Hr); [|done..|].
  { intros x y. by apply weighted_literal_score_range. }
  cbv zeta. rewrite Hv. cbn [rbind]. eexists. split; [done|].
  cbn [fst snd]. split; [done|].
  assert (∀ (w : gmap Clause Qc) c, nonneg_weights w → 0 ≤ default 1 (w !! c))
    as Hdef.
  { intros w c Hw. destruct (w !! c) as [x|] eqn:Hx; cbn [default];
      [by eapply Hw|done]. }
  pose proof (Hdef cw1 item.1.1 Hcw1). pose proof (Hdef cw2 item.1.2 Hcw2).
  qc_lra.
Qed.

Lemma formula_score_range F1 F2 cw1 cw2 pw1 pw2 kw1 kw2 params :
  nonneg_weights cw1 → nonneg_weights cw2 →
  nonneg_weights pw1 → nonneg_weights pw2 →
  nonneg_weights kw1 → nonneg_weights kw2 →
  0 ≤ correction pw1 pw2 kw1 kw2 →
  params_in_range fpow params →
  (F1 = ∅ ↔ F2 = ∅) →
  ∃ v, formula_score simC fpow F1 F2 cw1 cw2 pw1 pw2 kw1 kw2 params = Ok v ∧
       unit_interval v.
Proof using simC_range.
  intros Hcw1 Hcw2 Hpw1 Hpw2 Hkw1 Hkw2 Hd Hparams Hempty.
  destruct (decide (F1 = ∅)) as [->|HF1].
  { rewrite (proj1 Hempty eq_refl), formula_score_both_empty.
    exists 0. by split. }
  assert (F2 ≠ ∅) as HF2 by tauto.
  unfold formula_score.
  destruct (correspondence_ok simC fpow F1 F2 HF1 HF2)
    as (flat & bm & Hflat & Hbm & _).
  rewrite Hflat. cbn [rbind]. rewrite Hbm. cbn [rbind].
  match goal with |- context [rmapM ?g bm] =>
    destruct (rmapM_Forall g (λ sw, unit_interval sw.1 ∧ 0 ≤ sw.2) bm)
      as (ws & -> & Hws & _)
  end.
  { intros item _.
    apply weighted_step_score_range; auto using nonneg_merge_weights. }
  cbn [rbind]. by apply final_score_range.
Qed.

End FormulaBounds.

(** ** Facts on the instances used in examples *)

Lemma sim_exact_range a b : unit_interval (sim_exact a b).
Proof. unfold sim_exact. case_decide; by split. Qed.

Lemma sim_exact_refl a : sim_exact a a = 1.
Proof. unfold sim_exact. by rewrite decide_True. Qed.

Lemma pow_nat_one x : pow_nat x 1 = x.
Proof.
  unfold pow_nat. change (Z.to_nat (Qnum (this 1))) with 1%nat.
  cbn [Qcpower]. ring.
Qed.

Lemma pow_nat_one_in_range : pow_in_range pow_nat 1.
Proof. intros x Hx. by rewrite pow_nat_one. Qed.

Lemma agg_max_in_range : agg_in_range agg_max.
Proof.
  intros [|x l] Hne Hl; [done|]. by apply py_max_in_range.
Qed.

Lemma ex_params_in_range : params_in_range pow_nat (Some ex_params).
Proof.
  exists ex_params. split; [done|]. unfold ex_params.
  rewrite lookup_singleton_eq. cbn [default lp_alpha lp_beta lp_p lp_agg].
  split; [done|]. split; [done|].
  split; [apply pow_nat_one_in_range|apply agg_max_in_range].
Qed.





(** X6. [generalized_tversky_similarity] returns a value of [[0,1]] when
    the pairwise similarity does, [alpha] and [beta] are non-negative, and
    the power and the aggregation keep [[0,1]] stable. *)
Theorem tversky_in_unit_interval
    (fpow : Qc → Qc → Qc) {A : Type} `{Countable A}
    (pair_entry : A → A → Qc → entry) (X Y : gset A)
    (sim : A → A → M Qc) (f : A → A → result Qc)
    (alpha beta p : Qc) (agg : list Qc → result Qc)
    (debug : option (gmap string bool)) (debug_level : string)
    (st : trace_state) :
  (∀ x y, value_pure (sim x y) (f x y)) →
  (∀ x y, ∃ v, f x y = Ok v ∧ unit_interval v) →
  0 ≤ alpha → 0 ≤ beta → pow_in_range fpow p → agg_in_range agg →
  (debug_on debug debug_level = true → is_Some (level_of_name debug_level)) →
  ∃ v, (generalized_tversky_similarity fpow pair_entry X Y sim alpha beta p
          agg debug debug_level st).1 = Ok v ∧ unit_interval v.
Proof.
  intros Hsim Hf Ha Hb Hp Hagg Hlv.
  rewrite (tversky_value fpow pair_entry sim f Hsim) by done.
  by apply tversky_score_range.
Qed.

Lemma tversky_in_unit_interval_witness :
  ∃ v, (generalized_tversky_similarity pow_nat EClausePair
          ex_teasing_dm ex_teasing_md
          (λ l1 l2, simLiteral_flat sim_exact l1 l2 None 0)
          1 1 1 py_max (Some ex_debug) "clause_flat" init_state).1 = Ok v ∧
       unit_interval v.
Proof.
  apply (tversky_in_unit_interval pow_nat EClausePair ex_teasing_dm
           ex_teasing_md (λ l1 l2, simLiteral_flat sim_exact l1 l2 None 0)
           (flat_literal_score sim_exact)).
  - intros x y. apply simLiteral_flat_value.
  - intros x y. apply flat_literal_score_range, sim_exact_range.
  - compute_done.
  - compute_done.
  - apply pow_nat_one_in_range.
  - apply py_max_in_range.
  - intros _. by eexists.
Defined.



(** ** Symmetry *)

Lemma tversky_ratio_sym alpha mX mY :
  tversky_ratio alpha alpha mX mY = tversky_ratio alpha alpha mY mX.
Proof.
  unfold tversky_ratio.
  set (bX := qsum ((λ s, 1 - s) <$> mX)). set (bY := qsum ((λ s, 1 - s) <$> mY)).
  replace ((qsum mY + qsum mX) / q_two) with ((qsum mX + qsum mY) / q_two)
    by (f_equal; ring).
  set (a := (qsum mX + qsum mY) / q_two).
  replace (a + alpha * bY + alpha * bX) with (a + alpha * bX + alpha * bY)
    by ring.
  done.
Qed.

Lemma tversky_score_sym (fpow : Qc → Qc → Qc) `{Countable A}
    (X Y : gset A) (sim : A → A → result Qc) alpha p agg :
  outcome (tversky_score fpow X Y sim alpha alpha p agg)
  = outcome (tversky_score fpow Y X sim alpha alpha p agg).
Proof.
  unfold tversky_score.
  destruct (decide (X = ∅ ∨ Y = ∅)) as [HXY|HXY].
  { rewrite decide_True by tauto. done. }
  rewrite decide_False by tauto.
  destruct (rmapM (λ x, membership_score fpow sim p agg x Y) (elements X))
    as [mX|e1];
    destruct (rmapM (λ y, membership_score fpow sim p agg y X) (elements Y))
    as [mY|e2]; cbn [rbind outcome]; try done.
  by rewrite tversky_ratio_sym.
Qed.

Lemma merge_weights_comm w1 w2 :
  weights_agree w1 w2 → merge_weights w1 w2 = merge_weights w2 w1.
Proof.
  intros Hagree. unfold merge_weights. apply map_eq. intros k.
  rewrite !lookup_union.
  destruct (w1 !! k) as [v1|] eqn:H1, (w2 !! k) as [v2|] eqn:H2;
    cbn; try done.
  f_equal. symmetry. by eapply Hagree.
Qed.

Lemma correction_comm pw1 pw2 kw1 kw2 :
  correction pw1 pw2 kw1 kw2 = correction pw2 pw1 kw2 kw1.
Proof.
  unfold correction.
  replace (sum_values pw2 + sum_values pw1)
    with (sum_values pw1 + sum_values pw2) by ring.
  replace (sum_values kw2 + sum_values kw1)
    with (sum_values kw1 + sum_values kw2) by ring.
  done.
Qed.

Lemma outcome_rmapM_ext {A B} (f g : A → result B) l :
  (∀ x, x ∈ l → outcome (f x) = outcome (g x)) →
  outcome (rmapM f l) = outcome (rmapM g l).
Proof.
  induction l as [|x l IH]; intros Hfg; [done|]. cbn [rmapM].
  pose proof (Hfg x ltac:(left)) as Hx.
  pose proof (IH (λ y Hy, Hfg y ltac:(by right))) as Hl.
  destruct (f x), (g x); cbn in Hx; try done.
  - injection Hx as ->. cbn [rbind].
    destruct (rmapM f l), (rmapM g l); cbn in Hl; try done.
    by injection Hl as ->.
Qed.

Lemma rmapM_fmap {A B C} (f : B → result C) (h : A → B) l :
  rmapM f (h <$> l) = rmapM (λ x, f (h x)) l.
Proof. induction l as [|x l IH]; [done|]. cbn. by rewrite IH. Qed.

Lemma same_up_to_order_trans {A} (r1 r2 r3 : result (list A)) :
  same_up_to_order r1 r2 → same_up_to_order r2 r3 → same_up_to_order r1 r3.
Proof.
  destruct r1, r2, r3; cbn; try done. intros H1 H2. by rewrite H1.
Qed.

Lemma rmapM_perm {A B} (f : A → result B) l l' :
  l ≡ₚ l' → same_up_to_order (rmapM f l) (rmapM f l').
Proof.
  induction 1 as [|x l l' _ IH|x y l|l1 l2 l3 _ IH1 _ IH2].
  - by cbn.
  - cbn [rmapM]. destruct (f x); [|by cbn]. cbn [rbind].
    destruct (rmapM f l), (rmapM f l'); cbn in *; try done.
    by constructor.
  - cbn [rmapM].
    destruct (f x), (f y); cbn [rbind]; destruct (rmapM f l); cbn; try done.
    apply Permutation_swap.
  - by eapply same_up_to_order_trans.
Qed.

Lemma final_score_perm ws ws' : ws ≡ₚ ws' → final_score ws = final_score ws'.
Proof.
  intros Hp. unfold final_score.
  rewrite (qsum_perm (snd <$> ws) (snd <$> ws')) by by rewrite Hp.
  rewrite (qsum_perm ((λ sw, sw.1 * sw.2) <$> ws)
             ((λ sw, sw.1 * sw.2) <$> ws')) by by rewrite Hp.
  done.
Qed.

Lemma outcome_final_score_perm (r r' : result (list (Qc * Qc))) :
  same_up_to_order r r' →
  outcome (rbind r final_score) = outcome (rbind r' final_score).
Proof.
  destruct r, r'; cbn; try done. intros Hp. by rewrite (final_score_perm _ _ Hp).
Qed.

Section FormulaSymmetry.
Variable simC : string → string → Qc.
Variable fpow : Qc → Qc → Qc.

Lemma flat_value_sym c1 c2 :
  flat_value simC fpow c1 c2 = flat_value simC fpow c2 c1.
Proof.
  pose proof (tversky_score_sym fpow c1 c2 (flat_literal_score simC) 1 1
                py_max) as Hsym.
  fold (flat_clause_score simC fpow c1 c2) in Hsym.
  fold (flat_clause_score simC fpow c2 c1) in Hsym.
  rewrite !flat_clause_score_value in Hsym. by injection Hsym.
Qed.

Lemma weighted_step_score_sym cw1 cw2 pw cw params diff c1 c2 v v' :
  clause_alpha params = clause_beta params →
  outcome (weighted_step_score simC fpow cw1 cw2 pw cw params diff (c1, c2, v))
  = outcome (weighted_step_score simC fpow cw2 cw1 pw cw params diff
               (c2, c1, v')).
Proof.
  intros Hab. unfold weighted_step_score, weighted_clause_score.
  destruct params as [ps|]; [|done].
  unfold clause_alpha, clause_beta in Hab.
  change (default ∅ (Some ps)) with ps in Hab.
  cbv zeta. cbn [fst snd]. rewrite <- Hab.
  match goal with |- context [tversky_score fpow c1 c2 ?s ?a ?a ?p ?g] =>
    pose proof (tversky_score_sym fpow c1 c2 s a p g) as Hsym;
    destruct (tversky_score fpow c1 c2 s a a p g) as [s1|];
    destruct (tversky_score fpow c2 c1 s a a p g) as [s2|]
  end; cbn in Hsym; try done.
  injection Hsym as ->. cbn [rbind outcome]. do 2 f_equal. f_equal. ring.
Qed.

Lemma best_matches_swap F1 F2 flat flat' bm bm' :
  flat_table simC fpow (sorted_clauses F1) (sorted_clauses F2) = Ok flat →
  flat_table simC fpow (sorted_clauses F2) (sorted_clauses F1) = Ok flat' →
  best_matches (sorted_clauses F1) (sorted_clauses F2) flat = Ok bm →
  best_matches (sorted_clauses F2) (sorted_clauses F1) flat' = Ok bm' →
  bm'.*1 ≡ₚ (λ k, (k.2, k.1)) <$> bm.*1.
Proof.
  intros Hflat Hflat' Hbm Hbm'.
  destruct (flat_table_spec simC fpow (sorted_clauses F1) (sorted_clauses F2))
    as (f1 & Hf1 & Hl). rewrite Hflat in Hf1. injection Hf1 as <-.
  destruct (flat_table_spec simC fpow (sorted_clauses F2) (sorted_clauses F1))
    as (f2 & Hf2 & Hl'). rewrite Hflat' in Hf2. injection Hf2 as <-.
  apply best_matches_spec in Hbm as (Hnd & Hk & _).
  apply best_matches_spec in Hbm' as (Hnd' & Hk' & _).
  assert (Hget : ∀ a b, a ∈ sorted_clauses F1 → b ∈ sorted_clauses F2 →
    dict_get flat (a, b) = dict_get flat' (b, a)).
  { intros a b Ha Hb. unfold dict_get.
    rewrite Hl, Hl', !decide_True by done. by rewrite flat_value_sym. }
  apply NoDup_Permutation; [done| |].
  { apply NoDup_fmap_2; [|done]. by intros [a b] [a' b'] [= -> ->]. }
  intros [b a]. rewrite Hk', list_elem_of_fmap. split.
  - intros [(c & x & Hc & Hmax & [= <- <-])|(c & x & Hc & Hmax & [= <- <-])].
    + exists (a, b). split; [done|]. apply Hk. right. exists b, a.
      split; [done|]. split; [|done]. rewrite <- Hmax.
      apply max_by_ext. intros y Hy. by apply Hget.
    + exists (a, b). split; [done|]. apply Hk. left. exists a, b.
      split; [done|]. split; [|done]. rewrite <- Hmax.
      apply max_by_ext. intros y Hy. by apply Hget.
  - intros ([a' b'] & [= -> ->] & Hin). apply Hk in Hin.
    destruct Hin as [(c & x & Hc & Hmax & [= <- <-])
                    |(c & x & Hc & Hmax & [= <- <-])].
    + right. exists a', b'. split; [done|]. split; [|done]. rewrite <- Hmax.
      symmetry. apply max_by_ext. intros y Hy. by apply Hget.
    + left. exists b', a'. split; [done|]. split; [|done]. rewrite <- Hmax.
      symmetry. apply max_by_ext. intros y Hy. by apply Hget.
Qed.

Lemma weighted_step_score_key cw1 cw2 pw cw params diff item :
  weighted_step_score simC fpow cw1 cw2 pw cw params diff item
  = weighted_step_score simC fpow cw1 cw2 pw cw params diff (item.1, 0).
Proof. done. Qed.

Lemma formula_score_sym F1 F2 cw1 cw2 pw1 pw2 kw1 kw2 params :
  weights_agree pw1 pw2 → weights_agree kw1 kw2 →
  clause_alpha params = clause_beta params →
  outcome (formula_score simC fpow F1 F2 cw1 cw2 pw1 pw2 kw1 kw2 params)
  = outcome (formula_score simC fpow F2 F1 cw2 cw1 pw2 pw1 kw2 kw1 params).
Proof.
  intros Hpw Hkw Hab.
  destruct (decide (F1 = ∅)) as [->|HF1], (decide (F2 = ∅)) as [->|HF2].
  - by rewrite !formula_score_both_empty.
  - by rewrite !formula_score_one_empty by auto.
  - by rewrite !formula_score_one_empty by auto.
  - unfold formula_score.
    rewrite (merge_weights_comm pw2 pw1), (merge_weights_comm kw2 kw1)
      by (intros k v1 v2 H1 H2; symmetry; eauto).
    rewrite (correction_comm pw2 pw1 kw2 kw1).
    destruct (correspondence_ok simC fpow F1 F2 HF1 HF2)
      as (flat & bm & Hflat & Hbm & _).
    destruct (correspondence_ok simC fpow F2 F1 HF2 HF1)
      as (flat' & bm' & Hflat' & Hbm' & _).
    rewrite Hflat, Hflat'. cbn [rbind]. rewrite Hbm, Hbm'. cbn [rbind].
    apply outcome_final_score_perm.
    pose proof (best_matches_swap F1 F2 flat flat' bm bm' Hflat Hflat' Hbm
                  Hbm') as Hperm.
    set (g1 := weighted_step_score simC fpow cw1 cw2 (merge_weights pw1 pw2)
                 (merge_weights kw1 kw2) params (correction pw1 pw2 kw1 kw2)).
    set (g2 := weighted_step_score simC fpow cw2 cw1 (merge_weights pw1 pw2)
                 (merge_weights kw1 kw2) params (correction pw1 pw2 kw1 kw2)).
    assert (H1 : rmapM g1 bm = rmapM (λ k, g1 (k, 0)) bm.*1).
    { rewrite rmapM_fmap. by apply rmapM_ext. }
    assert (H2 : rmapM g2 bm' = rmapM (λ k, g2 (k, 0)) bm'.*1).
    { rewrite rmapM_fmap. by apply rmapM_ext. }
    rewrite H1, H2.
    eapply same_up_to_order_trans;
      [|apply rmapM_perm; symmetry; exact Hperm].
    rewrite (rmapM_fmap (λ k, g2 (k, 0)) (λ k : Clause * Clause, (k.2, k.1))).
    pose proof (outcome_rmapM_ext (λ k, g1 (k, 0))
                  (λ k, g2 ((k.2, k.1), 0)) bm.*1) as Hout.
    destruct (rmapM (λ k, g1 (k, 0)) bm.*1) as [ws|] eqn:E1,
             (rmapM (λ k, g2 ((k.2, k.1), 0)) bm.*1) as [ws'|] eqn:E2;
      cbn [same_up_to_order].
    + assert (Some ws = Some ws') as [= ->]; [|done].
      apply Hout. intros [a b] _. by apply weighted_step_score_sym.
    + assert (Some ws = None) as [=]. apply Hout.
      intros [a b] _. by apply weighted_step_score_sym.
    + assert (None = Some ws') as [=]. apply Hout.
      intros [a b] _. by apply weighted_step_score_sym.
    + done.
Qed.

End FormulaSymmetry.





(** ** Missing weights *)

Lemma foldl_fun_ext {A B} (f g : A → B → A) a l :
  (∀ a x, f a x = g a x) → foldl f a l = foldl g a l.
Proof.
  intros Hfg. revert a. induction l as [|x l IH]; intros a; [done|].
  cbn [foldl]. by rewrite Hfg, IH.
Qed.

Lemma sum_values_insert_zero (w : gmap string Qc) k :
  w !! k = None → sum_values (<[k:=0]> w) = sum_values w.
Proof.
  intros Hk. unfold sum_values.
  rewrite (qsum_perm _ (snd <$> (k, 0) :: map_to_list w)).
  - cbn [fmap list_fmap snd]. rewrite qsum_cons. ring.
  - by rewrite map_to_list_insert.
Qed.

Lemma default_insert_same {K} `{Countable K} (w : gmap K Qc) k d k' :
  w !! k = None → default d (<[k:=d]> w !! k') = default d (w !! k').
Proof.
  intros Hk. destruct (decide (k = k')) as [<-|Hne].
  - by rewrite lookup_insert_eq, Hk.
  - by rewrite lookup_insert_ne.
Qed.

Lemma default_merge_insert_zero w1 w2 k k' :
  w1 !! k = None → w2 !! k = None →
  default 0 (merge_weights (<[k:=0]> w1) (<[k:=0]> w2) !! k')
  = default 0 (merge_weights w1 w2 !! k').
Proof.
  intros H1 H2. unfold merge_weights. rewrite !lookup_union.
  destruct (decide (k = k')) as [<-|Hne].
  - by rewrite !lookup_insert_eq, H1, H2.
  - by rewrite !lookup_insert_ne.
Qed.

Section WeightLookups.
Variable simC : string → string → Qc.
Variable fpow : Qc → Qc → Qc.

Lemma pointwise_weights_ext args1 args2 w1 w2 w1' w2' pw uw diff :
  (∀ k, default 0 (w1 !! k) = default 0 (w1' !! k)) →
  (∀ k, default 0 (w2 !! k) = default 0 (w2' !! k)) →
  pointwise_similarity_weighted simC args1 args2 w1 w2 pw uw diff
  = pointwise_similarity_weighted simC args1 args2 w1' w2' pw uw diff.
Proof.
  intros H1 H2. unfold pointwise_similarity_weighted.
  destruct args1 as [|a1 args1]; [done|].
  destruct args2 as [|a2 args2]; [done|].
  rewrite (foldl_fun_ext (pos_step simC w1 w2) (pos_step simC w1' w2')).
  2: { intros acc a. unfold pos_step. by rewrite H1, H2. }
  rewrite (foldl_fun_ext (unordered_step simC w1 w2 (a2 :: args2))
             (unordered_step simC w1' w2' (a2 :: args2))); [done|].
  intros acc a. unfold unordered_step. rewrite H1.
  rewrite (foldl_fun_ext (best_step simC w2 a (default 0 (w1' !! a)))
             (best_step simC w2' a (default 0 (w1' !! a)))); [done|].
  intros acc' b. unfold best_step. by rewrite H2.
Qed.

Lemma weighted_literal_score_ext pw cw pw' cw' diff l1 l2 :
  (∀ k, default 0 (pw !! k) = default 0 (pw' !! k)) →
  (∀ k, default 0 (cw !! k) = default 0 (cw' !! k)) →
  weighted_literal_score simC pw cw diff l1 l2
  = weighted_literal_score simC pw' cw' diff l1 l2.
Proof.
  intros Hp Hc. unfold weighted_literal_score, weighted_components.
  rewrite !Hp.
  rewrite (pointwise_weights_ext l1.2 l2.2 cw cw cw' cw') by done.
  replace (flat_map (λ a1, map (λ a2, default 0 (cw !! a1)
                                      * default 0 (cw !! a2)) l2.2) l1.2)
    with (flat_map (λ a1, map (λ a2, default 0 (cw' !! a1)
                                     * default 0 (cw' !! a2)) l2.2) l1.2);
    [done|].
  induction l1.2 as [|a l IH]; [done|]. cbn [flat_map]. rewrite IH.
  f_equal. apply map_ext. intros b. by rewrite !Hc.
Qed.

Lemma tversky_score_ext `{Countable A} (X Y : gset A)
    (sim sim' : A → A → result Qc) alpha beta p agg :
  (∀ x y, sim x y = sim' x y) →
  tversky_score fpow X Y sim alpha beta p agg
  = tversky_score fpow X Y sim' alpha beta p agg.
Proof.
  intros Hsim. unfold tversky_score. case_decide; [done|].
  assert (Hm : ∀ x Z, membership_score fpow sim p agg x Z
                      = membership_score fpow sim' p agg x Z).
  { intros x Z. unfold membership_score.
    rewrite (rmapM_ext _ (λ y, let+ s := sim' x y in Ok (fpow s p))); [done|].
    intros y _. by rewrite Hsim. }
  rewrite (rmapM_ext _ (λ x, membership_score fpow sim' p agg x Y))
    by (intros; apply Hm).
  rewrite (rmapM_ext (λ y, membership_score fpow sim p agg y X)
             (λ y, membership_score fpow sim' p agg y X))
    by (intros; apply Hm).
  done.
Qed.

Lemma formula_score_weights_ext F1 F2 cw1 cw2 pw1 pw2 kw1 kw2
    cw1' cw2' pw1' pw2' kw1' kw2' params :
  (∀ c, default 1 (cw1 !! c) = default 1 (cw1' !! c)) →
  (∀ c, default 1 (cw2 !! c) = default 1 (cw2' !! c)) →
  (∀ k, default 0 (merge_weights pw1 pw2 !! k)
        = default 0 (merge_weights pw1' pw2' !! k)) →
  (∀ k, default 0 (merge_weights kw1 kw2 !! k)
        = default 0 (merge_weights kw1' kw2' !! k)) →
  correction pw1 pw2 kw1 kw2 = correction pw1' pw2' kw1' kw2' →
  formula_score simC fpow F1 F2 cw1 cw2 pw1 pw2 kw1 kw2 params
  = formula_score simC fpow F1 F2 cw1' cw2' pw1' pw2' kw1' kw2' params.
Proof.
  intros Hc1 Hc2 Hp Hk Hd. unfold formula_score. rewrite Hd.
  destruct (flat_table simC fpow _ _) as [flat|]; [|done]. cbn [rbind].
  destruct (best_matches _ _ flat) as [bm|]; [|done]. cbn [rbind].
  f_equal. apply rmapM_ext. intros item _.
  unfold weighted_step_score, weighted_clause_score.
  destruct params as [ps|]; [|done]. cbv zeta. rewrite Hc1, Hc2.
  erewrite tversky_score_ext; [done|].
  intros x y. by apply weighted_literal_score_ext.
Qed.

End WeightLookups.

(** X10. Missing weights.  A predicate or a constant that has no weight on
    either side counts with weight [0.0], and a clause that is absent from
    the clause weights of its side counts with weight [1.0]: writing these
    defaults into the maps does not change the score. *)
Theorem missing_weights_take_their_defaults
    (simC : string → string → Qc) (fpow : Qc → Qc → Qc) (F1 F2 : Formula)
    (cw1 cw2 : gmap Clause Qc) (pw1 pw2 kw1 kw2 : gmap string Qc)
    (params : option (gmap string level_params))
    (debug : option (gmap string bool)) (st : trace_state)
    (pred const : string) (c1 c2 : Clause) :
  pw1 !! pred = None → pw2 !! pred = None →
  kw1 !! const = None → kw2 !! const = None →
  cw1 !! c1 = None → cw2 !! c2 = None →
  rmap fst (simFormulaSet simC fpow F1 F2 (<[c1:=1]> cw1) (<[c2:=1]> cw2)
              (<[pred:=0]> pw1) (<[pred:=0]> pw2)
              (<[const:=0]> kw1) (<[const:=0]> kw2) params debug st).1
  = rmap fst (simFormulaSet simC fpow F1 F2 cw1 cw2 pw1 pw2 kw1 kw2 params
                debug st).1.
Proof.
  intros Hp1 Hp2 Hk1 Hk2 Hc1 Hc2. rewrite !simFormulaSet_score.
  apply formula_score_weights_ext.
  - intros c. by apply default_insert_same.
  - intros c. by apply default_insert_same.
  - intros k. by apply default_merge_insert_zero.
  - intros k. by apply default_merge_insert_zero.
  - unfold correction. by rewrite !sum_values_insert_zero.
Qed.

Lemma missing_weights_take_their_defaults_witness :
  rmap fst (simFormulaSet sim_exact pow_nat ex_F1 ex_F2
              (<[ex_teasing_md:=1]> ex_clause_weights1)
              (<[ex_teasing_dm:=1]> ex_clause_weights2)
              (<["Feeding"%string:=0]> ex_predicate_weights)
              (<["Feeding"%string:=0]> ex_predicate_weights)
              (<["Cat"%string:=0]> ex_constant_weights)
              (<["Cat"%string:=0]> ex_constant_weights)
              (Some ex_params) None init_state).1
  = rmap fst (simFormulaSet sim_exact pow_nat ex_F1 ex_F2
                ex_clause_weights1 ex_clause_weights2
                ex_predicate_weights ex_predicate_weights
                ex_constant_weights ex_constant_weights
                (Some ex_params) None init_state).1.
Proof.
  apply (missing_weights_take_their_defaults sim_exact pow_nat ex_F1 ex_F2
           ex_clause_weights1 ex_clause_weights2 ex_predicate_weights
           ex_predicate_weights ex_constant_weights ex_constant_weights
           (Some ex_params) None init_state "Feeding" "Cat"
           ex_teasing_md ex_teasing_dm); by vm_compute.
Defined.

(** ** Which exceptions can be raised *)

Lemma guarded_fdiv_raise (n t d : Qc) e :
  (if decide (0 < t) then fdiv n (t + d) else Ok 0) = Raise e →
  e = ZeroDivisionError ∧ d < 0.
Proof.
  case_decide as Ht; [|done]. unfold fdiv. case_decide as Hz; [|done].
  intros [= <-]. split; [done|]. qc_lra.
Qed.

Lemma rmapM_raise_inv {A B} (g : A → result B) l e :
  rmapM g l = Raise e → ∃ x, x ∈ l ∧ g x = Raise e.
Proof.
  induction l as [|x l IH]; [done|]. cbn [rmapM].
  destruct (g x) as [y|e'] eqn:Hx; cbn [rbind].
  - destruct (rmapM g l) as [ys|e'] eqn:Hl; cbn [rbind]; [done|].
    intros [= ->]. destruct IH as (z & Hz & Hg); [done|].
    exists z. split; [by right|done].
  - intros [= ->]. exists x. split; [left|done].
Qed.

Section Failures.
Variable simC : string → string → Qc.
Variable fpow : Qc → Qc → Qc.

Lemma pointwise_raise_inv args1 args2 w1 w2 pw uw diff e :
  pointwise_similarity_weighted simC args1 args2 w1 w2 pw uw diff = Raise e →
  e = ZeroDivisionError ∧ diff < 0.
Proof.
  unfold pointwise_similarity_weighted.
  destruct args1 as [|a1 args1]; [done|].
  destruct args2 as [|a2 args2]; [done|].
  set (pos := foldl _ _ (zip _ _)). set (uno := foldl _ _ (a1 :: _)).
  destruct (if decide (0 < pos.2) then _ else _) as [sp|e1] eqn:Hp;
    cbn [rbind].
  - destruct (if decide (0 < uno.2) then _ else _) as [su|e2] eqn:Hu;
      cbn [rbind]; [done|].
    intros [= ->]. by eapply guarded_fdiv_raise.
  - intros [= ->]. by eapply guarded_fdiv_raise.
Qed.

Lemma weighted_literal_score_raise_inv pw cw diff l1 l2 e :
  weighted_literal_score simC pw cw diff l1 l2 = Raise e →
  e = ZeroDivisionError ∧ diff < 0.
Proof.
  unfold weighted_literal_score, weighted_components.
  destruct (pointwise_similarity_weighted simC l1.2 l2.2 cw cw q_08 q_02 diff)
    as [sa|e1] eqn:Hpw; cbn [rbind].
  - match goal with |- context [if ?c then ?a else ?b] =>
      destruct (if c then a else b) as [v|e2] eqn:Hv
    end; cbn [rbind rmap]; [done|].
    intros [= ->]. by eapply guarded_fdiv_raise.
  - intros [= ->]. by eapply pointwise_raise_inv.
Qed.

Lemma tversky_score_raise_inv `{Countable A} (X Y : gset A)
    (sim : A → A → result Qc) alpha beta p agg e :
  (∀ l, l ≠ [] → is_ok (agg l)) →
  tversky_score fpow X Y sim alpha beta p agg = Raise e →
  ∃ x y, sim x y = Raise e.
Proof.
  intros Hagg. unfold tversky_score. case_decide as HXY; [done|].
  assert (Hm : ∀ x (Z : gset A), Z ≠ ∅ →
    membership_score fpow sim p agg x Z = Raise e → ∃ y, sim x y = Raise e).
  { intros x Z HZ. unfold membership_score.
    destruct (rmapM _ (elements Z)) as [scores|e1] eqn:Hs; cbn [rbind].
    - intros Hraise. destruct (Hagg scores) as [v Hv]; [|congruence].
      intros ->. apply rmapM_length in Hs.
      apply elements_nonempty in HZ. by destruct (elements Z).
    - intros [= ->]. apply rmapM_raise_inv in Hs as (y & _ & Hy).
      exists y. by destruct (sim x y). }
  destruct (rmapM _ (elements X)) as [mX|e1] eqn:HmX; cbn [rbind].
  - destruct (rmapM _ (elements Y)) as [mY|e2] eqn:HmY; cbn [rbind].
    + intros Hr. destruct (tversky_ratio_ok alpha beta mX mY) as [v Hv].
      congruence.
    + intros [= ->]. apply rmapM_raise_inv in HmY as (y & _ & Hy).
      apply Hm in Hy as [x Hx]; [eauto|tauto].
  - intros [= ->]. apply rmapM_raise_inv in HmX as (x & _ & Hx).
    apply Hm in Hx as [y Hy]; [eauto|tauto].
Qed.

Lemma final_score_ok ws : is_ok (final_score ws).
Proof.
  unfold final_score. case_decide as Ht; [|by eexists]. unfold fdiv.
  case_decide as Hz; [|by eexists]. rewrite Hz in Ht. done.
Qed.

Lemma formula_score_raise_inv F1 F2 cw1 cw2 pw1 pw2 kw1 kw2 params e :
  agg_total params →
  formula_score simC fpow F1 F2 cw1 cw2 pw1 pw2 kw1 kw2 params = Raise e →
  (e = ValueError ∧ ((F1 = ∅ ∧ F2 ≠ ∅) ∨ (F1 ≠ ∅ ∧ F2 = ∅))) ∨
  (e = AttributeError ∧ params = None ∧ F1 ≠ ∅ ∧ F2 ≠ ∅) ∨
  (e = ZeroDivisionError ∧ correction pw1 pw2 kw1 kw2 < 0
   ∧ F1 ≠ ∅ ∧ F2 ≠ ∅).
Proof.
  intros Hagg Hraise.
  destruct (decide (F1 = ∅)) as [->|HF1], (decide (F2 = ∅)) as [->|HF2].
  - by rewrite formula_score_both_empty in Hraise.
  - rewrite formula_score_one_empty in Hraise by auto.
    injection Hraise as <-. left. auto.
  - rewrite formula_score_one_empty in Hraise by auto.
    injection Hraise as <-. left. auto.
  - right. destruct params as [ps|].
    2: { rewrite formula_score_no_params in Hraise by done.
         injection Hraise as <-. by left. }
    right. unfold formula_score in Hraise.
    destruct (correspondence_ok simC fpow F1 F2 HF1 HF2)
      as (flat & bm & Hflat & Hbm & _).
    rewrite Hflat in Hraise. cbn [rbind] in Hraise.
    rewrite Hbm in Hraise. cbn [rbind] in Hraise.
    destruct (rmapM _ bm) as [ws|e1] eqn:Hws; cbn [rbind] in Hraise.
    { destruct (final_score_ok ws) as [v Hv]. congruence. }
    injection Hraise as ->.
    apply rmapM_raise_inv in Hws as (item & _ & Hitem).
    unfold weighted_step_score, weighted_clause_score in Hitem.
    cbv zeta in Hitem.
    match type of Hitem with context [tversky_score fpow ?X ?Y ?s ?a ?b ?p ?g] =>
      destruct (tversky_score fpow X Y s a b p g) as [v|e1] eqn:Htv
    end; cbn [rbind] in Hitem; [done|]. injection Hitem as ->.
    apply tversky_score_raise_inv in Htv as (x & y & Hxy); [|apply Hagg].
    apply weighted_literal_score_raise_inv in Hxy as [-> Hd]. done.
Qed.

End Failures.

(** X11. [pointwise_similarity_weighted] and [simLiteral] can only fail
    with [ZeroDivisionError], and only for a negative correction term
    [diff] (their guards test the weight mass, not the mass plus [diff]). *)
Theorem literal_scoring_fails_only_by_division
    (simC : string → string → Qc) (l1 l2 : Literal)
    (predicate_weights constant_weights weights1 weights2 : gmap string Qc)
    (positional_weight unordered_weight diff : Qc)
    (debug : option (gmap string bool)) (st : trace_state) (e : exn) :
  pointwise_similarity_weighted simC l1.2 l2.2 weights1 weights2
    positional_weight unordered_weight diff = Raise e ∨
  (simLiteral simC l1 l2 predicate_weights constant_weights debug diff st).1
  = Raise e →
  e = ZeroDivisionError ∧ diff < 0.
Proof.
  intros [Hraise|Hraise].
  - by eapply pointwise_raise_inv.
  - rewrite simLiteral_value in Hraise.
    by eapply weighted_literal_score_raise_inv.
Qed.

Lemma literal_scoring_fails_only_by_division_witness :
  ZeroDivisionError = ZeroDivisionError ∧ (-1 : Qc) < 0.
Proof.
  apply (literal_scoring_fails_only_by_division sim_exact
           ("P"%string, ["A"%string]%list) ("P"%string, ["A"%string]%list)
           heavy_predicate_weights heavy_constant_weights
           heavy_constant_weights heavy_constant_weights q_08 q_02 (-1)
           None init_state ZeroDivisionError).
  left. by vm_compute.
Defined.



(** ** The aggregations [agg_max] and [agg_avg] *)

Lemma qmax_list_spec x l :
  qmax_list x l ∈ x :: l ∧ ∀ y, y ∈ x :: l → y ≤ qmax_list x l.
Proof.
  unfold qmax_list. revert x. induction l as [|z l IH]; intros x.
  - cbn [foldl]. split; [left|]. intros y ->%list_elem_of_singleton.
    apply Qcle_refl.
  - cbn [foldl]. case_decide as Hlt.
    + destruct (IH z) as [Hin Hub]. split; [by right|].
      intros y [->|Hy]%elem_of_cons; [|by apply Hub].
      pose proof (Hub z ltac:(left)). qc_lra.
    + destruct (IH x) as [Hin Hub]. split.
      * apply elem_of_cons in Hin as [->|Hin]; [left|right; by right].
      * intros y [->|[->|Hy]%elem_of_cons]%elem_of_cons.
        -- apply Hub. left.
        -- pose proof (Hub x ltac:(left)). qc_lra.
        -- apply Hub. by right.
Qed.

Lemma qlen_cons {A} (x : A) l : qlen (x :: l) = 1 + qlen l.
Proof.
  unfold qlen. cbn [length]. rewrite Nat2Z.inj_succ. unfold Z.succ.
  apply Qc_eq_this. rewrite this_plus, !this_Q2Qc, inject_Z_plus.
  change (this 1) with 1%Q. change (inject_Z 1) with 1%Q. ring.
Qed.

Lemma qlen_nonneg {A} (l : list A) : 0 ≤ qlen l.
Proof.
  induction l as [|x l IH]; [done|]. rewrite qlen_cons. qc_lra.
Qed.

Lemma qlen_nil {A} : qlen (@nil A) = 0.
Proof. by apply Qc_is_canon. Qed.

Lemma qsum_upper hi l : (∀ x, x ∈ l → x ≤ hi) → qsum l ≤ hi * qlen l.
Proof.
  induction l as [|x l IH]; intros Hl.
  - rewrite (@qlen_nil Qc), qsum_nil. qc_lra.
  - pose proof (Hl x ltac:(left)) as Hhi.
    pose proof (IH (λ y Hy, Hl y ltac:(by right))) as IHhi.
    rewrite qsum_cons, qlen_cons. qc_lra.
Qed.

Lemma qsum_lower lo l : (∀ x, x ∈ l → lo ≤ x) → lo * qlen l ≤ qsum l.
Proof.
  induction l as [|x l IH]; intros Hl.
  - rewrite (@qlen_nil Qc), qsum_nil. qc_lra.
  - pose proof (Hl x ltac:(left)) as Hlo.
    pose proof (IH (λ y Hy, Hl y ltac:(by right))) as IHlo.
    rewrite qsum_cons, qlen_cons. qc_lra.
Qed.

Lemma agg_avg_value l :
  l ≠ [] → agg_avg l = Ok (qsum l / qlen l) ∧ 0 < qlen l.
Proof.
  destruct l as [|x l]; [done|]. intros _.
  assert (0 < qlen (x :: l)) as Hpos.
  { rewrite qlen_cons. pose proof (qlen_nonneg l). qc_lra. }
  split; [|done]. cbn [agg_avg]. unfold fdiv.
  fold (qlen (x :: l)). rewrite decide_False; [done|].
  intros Hz. rewrite Hz in Hpos. done.
Qed.

Lemma agg_avg_upper l hi :
  l ≠ [] → (∀ x, x ∈ l → x ≤ hi) → qsum l / qlen l ≤ hi.
Proof.
  intros Hne Hl. destruct (agg_avg_value l Hne) as [_ Hpos].
  pose proof (qsum_upper hi l Hl) as Hs.
  assert (Hmul : qsum l / qlen l * qlen l = qsum l).
  { apply Qc_div_mul. intros Hz. rewrite Hz in Hpos. done. }
  set (v := qsum l / qlen l) in *. set (n := qlen l) in *.
  set (s := qsum l) in *. clearbody v n s.
  destruct (Qclt_le_dec hi v) as [Hlt|]; [|done]. exfalso. qc_nra.
Qed.

Lemma agg_avg_lower l lo :
  l ≠ [] → (∀ x, x ∈ l → lo ≤ x) → lo ≤ qsum l / qlen l.
Proof.
  intros Hne Hl. destruct (agg_avg_value l Hne) as [_ Hpos].
  pose proof (qsum_lower lo l Hl) as Hs.
  assert (Hmul : qsum l / qlen l * qlen l = qsum l).
  { apply Qc_div_mul. intros Hz. rewrite Hz in Hpos. done. }
  set (v := qsum l / qlen l) in *. set (n := qlen l) in *.
  set (s := qsum l) in *. clearbody v n s.
  destruct (Qclt_le_dec v lo) as [Hlt|]; [|done]. exfalso. qc_nra.
Qed.

(** X13. [agg_max] never raises: it is [0.0] on the empty list and
    otherwise an element of the list that no element exceeds; hence it
    does not depend on the order of the scores. *)
Theorem agg_max_is_the_maximum (scores scores' : list Qc) :
  agg_max [] = Ok 0 ∧
  (∃ m, agg_max scores = Ok m ∧
        (scores = [] ∨ (m ∈ scores ∧ ∀ x, x ∈ scores → x ≤ m))) ∧
  (scores ≡ₚ scores' → agg_max scores = agg_max scores').
Proof.
  assert (Hmax : ∀ l, l ≠ [] →
    ∃ m, agg_max l = Ok m ∧ m ∈ l ∧ ∀ x, x ∈ l → x ≤ m).
  { intros [|x l] Hl; [done|]. exists (qmax_list x l).
    split; [done|]. apply qmax_list_spec. }
  split; [done|]. split.
  - destruct scores as [|x l]; [exists 0; auto|].
    destruct (Hmax (x :: l)) as (m & Hm & Hin & Hub); [done|]. eauto.
  - intros Hperm. destruct (decide (scores = [])) as [->|Hne].
    { apply Permutation_nil_l in Hperm. by subst. }
    assert (scores' ≠ []) as Hne'.
    { intros ->. by apply Permutation_nil_r in Hperm. }
    destruct (Hmax scores Hne) as (m & -> & Hin & Hub).
    destruct (Hmax scores' Hne') as (m' & -> & Hin' & Hub').
    f_equal. apply Qcle_antisym.
    + apply Hub'. by rewrite <- Hperm.
    + apply Hub. by rewrite Hperm.
Qed.

Lemma agg_max_is_the_maximum_witness :
  agg_max [q_half; 1; 0] = agg_max [1; 0; q_half].
Proof.
  apply (agg_max_is_the_maximum [q_half; 1; 0] [1; 0; q_half]).
  apply (Permutation_cons_append [1; 0] q_half).
Defined.



(** ** How many entries the trace holds *)

Lemma appends_ret {A} lv (a : A) : appends lv 0 (ret a).
Proof. intros st b st' [= _ <-]. lia. Qed.

Lemma appends_lift {A} lv (r : result A) : appends lv 0 (lift r).
Proof. intros st b st' [= _ <-]. lia. Qed.

Lemma appends_bind {A B} lv n1 n2 (m : M A) (k : A → M B) :
  appends lv n1 m → (∀ a, appends lv n2 (k a)) →
  appends lv (n1 + n2) (bind m k).
Proof.
  intros Hm Hk st b st'. unfold bind.
  destruct (m st) as [[a|e] st1] eqn:E; [|done]. intros Hb.
  rewrite (Hk a _ _ _ Hb), (Hm _ _ _ E). lia.
Qed.

Lemma appends_bind_0 {A B} lv (m : M A) (k : A → M B) :
  appends lv 0 m → (∀ a, appends lv 0 (k a)) → appends lv 0 (bind m k).
Proof. apply (appends_bind lv 0 0). Qed.

Lemma appends_mapM {A B} lv n (f : A → M B) l :
  (∀ x, appends lv n (f x)) → appends lv (length l * n) (mapM f l).
Proof.
  intros Hf. induction l as [|x l IH]; [apply appends_ret|].
  cbn [mapM length]. replace (S (length l) * n)%nat
    with (n + (length l * n + 0))%nat by lia.
  apply appends_bind; [done|]. intros y.
  apply appends_bind; [done|]. intros ys. apply appends_ret.
Qed.

Lemma appends_foldM {A T} lv n (f : T → A → M T) l s :
  (∀ s x, appends lv n (f s x)) → appends lv (length l * n) (foldM f s l).
Proof.
  intros Hf. revert s. induction l as [|x l IH]; intros s;
    [apply appends_ret|].
  cbn [foldM length]. replace (S (length l) * n)%nat
    with (n + length l * n)%nat by lia.
  apply appends_bind; [done|]. intros s'. apply IH.
Qed.

Lemma appends_foldM_0 {A T} lv (f : T → A → M T) l s :
  (∀ s x, appends lv 0 (f s x)) → appends lv 0 (foldM f s l).
Proof.
  intros Hf. replace 0%nat with (length l * 0)%nat by lia.
  by apply appends_foldM.
Qed.

Lemma appends_mapM_0 {A B} lv (f : A → M B) l :
  (∀ x, appends lv 0 (f x)) → appends lv 0 (mapM f l).
Proof.
  intros Hf. replace 0%nat with (length l * 0)%nat by lia.
  by apply appends_mapM.
Qed.

Lemma appends_append_same lv e : appends lv 1 (append_summary lv e).
Proof.
  intros st [] st' [= <-]. cbn. rewrite decide_True by done.
  rewrite length_app. cbn. lia.
Qed.

Lemma appends_append_other lv lv' e :
  lv ≠ lv' → appends lv 0 (append_summary lv' e).
Proof.
  intros Hne st [] st' [= <-]. cbn. rewrite decide_False by done. lia.
Qed.

Lemma appends_record_other lv lv' key e :
  lv ≠ lv' → appends lv 0 (record_debug lv' key e).
Proof.
  intros Hne st [] st'. unfold record_debug. case_decide.
  - intros [= <-]. lia.
  - intros [= <-]. cbn. rewrite decide_False by done. lia.
Qed.

Section TraceSizes.
Variable simC : string → string → Qc.
Variable fpow : Qc → Qc → Qc.

Lemma appends_simLiteral lv l1 l2 pw cw debug diff :
  lv ≠ literal_weighted →
  appends lv 0 (simLiteral simC l1 l2 pw cw debug diff).
Proof.
  intros Hne. unfold simLiteral.
  apply appends_bind_0; [apply appends_lift|]. intros [[sp sa] sc].
  apply appends_bind_0; [|intros; apply appends_ret].
  destruct (debug_on debug "literal"); [|apply appends_ret].
  destruct (canonical l1 l2) as [o1 o2]. by apply appends_record_other.
Qed.

Lemma appends_simLiteral_flat lv l1 l2 diff :
  appends lv 0 (simLiteral_flat simC l1 l2 None diff).
Proof.
  unfold simLiteral_flat.
  apply appends_bind_0; [apply appends_lift|]. intros [[sp sa] sc].
  apply appends_bind_0; intros; apply appends_ret.
Qed.

Lemma appends_tversky `{Countable A} lv (pair_entry : A → A → Qc → entry)
    (X Y : gset A) sim alpha beta p agg debug debug_level :
  debug_on debug debug_level = false →
  (∀ x y, appends lv 0 (sim x y)) →
  appends lv 0 (generalized_tversky_similarity fpow pair_entry X Y sim
                  alpha beta p agg debug debug_level).
Proof.
  intros Hoff Hsim. unfold generalized_tversky_similarity.
  case_decide; [apply appends_ret|]. rewrite Hoff.
  assert (Hm : ∀ x Z, appends lv 0 (membership fpow sim p agg x Z)).
  { intros x Z. apply appends_bind_0; [|intros; apply appends_lift].
    apply appends_mapM_0. intros y.
    apply appends_bind_0; [done|]. intros; apply appends_ret. }
  apply appends_bind_0; [by apply appends_mapM_0|]. intros mX.
  apply appends_bind_0; [by apply appends_mapM_0|]. intros mY.
  apply appends_bind_0; [apply appends_lift|]. intros score.
  apply appends_bind_0; intros; apply appends_ret.
Qed.

Lemma appends_flat_phase lv all1 all2 debug :
  debug_on debug "clause_flat" = false →
  appends lv (length all1 * (length all2 *
                if decide (lv = clause_flat) then 1 else 0))
    (flat_phase simC fpow all1 all2 debug).
Proof.
  intros Hoff. apply appends_foldM. intros flat c1.
  apply appends_foldM. intros flat' c2.
  replace (if decide (lv = clause_flat) then 1 else 0)%nat
    with (0 + ((if decide (lv = clause_flat) then 1 else 0) + 0))%nat by lia.
  apply appends_bind.
  { apply appends_tversky; [done|]. intros. apply appends_simLiteral_flat. }
  intros sim. apply appends_bind; [|intros; apply appends_ret].
  case_decide as Hlv; [subst; apply appends_append_same|].
  by apply appends_append_other.
Qed.

Lemma appends_weighted_step lv cw1 cw2 pw cw params debug diff item :
  lv ≠ literal_weighted →
  debug_on debug "clause_weighted" = false →
  appends lv (if decide (lv = clause_weighted) then 1 else 0)
    (weighted_step simC fpow cw1 cw2 pw cw params debug diff item).
Proof.
  intros Hlit Hoff. unfold weighted_step.
  destruct params as [ps|]; [|by intros st a st'].
  replace (if decide (lv = clause_weighted) then 1 else 0)%nat
    with (0 + ((if decide (lv = clause_weighted) then 1 else 0) + 0))%nat
    by lia.
  apply appends_bind.
  { apply appends_tversky; [done|]. intros. by apply appends_simLiteral. }
  intros sim. apply appends_bind; [|intros; apply appends_ret].
  case_decide as Hlv; [subst; apply appends_append_same|].
  by apply appends_append_other.
Qed.

End TraceSizes.

Lemma rfoldM_dict_set_length {A B K V} `{EqDecision K} (gb : A → result B)
    (gv : A → B → result V) (mk : A → B → K) l d0 d :
  rfoldM (λ d x, let+ b := gb x in let+ v := gv x b in
                 Ok (dict_set (mk x b) v d)) d0 l = Ok d →
  (length d ≤ length d0 + length l)%nat.
Proof.
  revert d0. induction l as [|x l IH]; intros d0; cbn [rfoldM].
  - intros [= ->]. lia.
  - destruct (gb x) as [b|]; [|done]. cbn [rbind].
    destruct (gv x b) as [v|]; [|done]. cbn [rbind].
    intros Hd%IH. cbn [length].
    assert (length (dict_set (mk x b) v d0) ≤ S (length d0))%nat; [|lia].
    clear. induction d0 as [|[k' v'] d0 IHd]; cbn; [lia|].
    case_decide; cbn; lia.
Qed.

(** The correspondence has at least as many pairs as the larger formula
    has clauses, and at most as many as both formulas together. *)
Lemma best_matches_length F1 F2 flat bm :
  best_matches (sorted_clauses F1) (sorted_clauses F2) flat = Ok bm →
  (size F1 `max` size F2 ≤ length bm ∧ length bm ≤ size F1 + size F2)%nat.
Proof.
  intros Hbm.
  assert (Hsize : ∀ F : Formula, length (sorted_clauses F) = size F).
  { intros F. by rewrite sorted_clauses_perm. }
  split.
  - pose proof (best_matches_cover _ _ _ _ Hbm) as [H1 H2].
    assert (length (sorted_clauses F1) ≤ length bm)%nat.
    { transitivity (length (fst <$> bm.*1)); [|by rewrite !length_fmap].
      apply submseteq_length, NoDup_submseteq; [apply NoDup_sorted_clauses|].
      intros c1 Hc1. destruct (H1 c1 Hc1) as (c2 & _ & Hin).
      apply list_elem_of_fmap. by exists (c1, c2). }
    assert (length (sorted_clauses F2) ≤ length bm)%nat.
    { transitivity (length (snd <$> bm.*1)); [|by rewrite !length_fmap].
      apply submseteq_length, NoDup_submseteq; [apply NoDup_sorted_clauses|].
      intros c2 Hc2. destruct (H2 c2 Hc2) as (c1 & _ & Hin).
      apply list_elem_of_fmap. by exists (c1, c2). }
    rewrite <- !Hsize. lia.
  - unfold best_matches in Hbm.
    destruct (rfoldM _ [] (sorted_clauses F1)) as [bm1|] eqn:H1; [|done].
    cbn [rbind] in Hbm.
    apply (rfoldM_dict_set_length
             (λ c1, max_by (λ c2, dict_get flat (c1, c2)) (sorted_clauses F2))
             (λ c1 b, dict_get flat (c1, b)) (λ c1 b, (c1, b))) in H1.
    apply (rfoldM_dict_set_length
             (λ c2, max_by (λ c1, dict_get flat (c1, c2)) (sorted_clauses F1))
             (λ c2 b, dict_get flat (b, c2)) (λ c2 b, (b, c2))) in Hbm.
    rewrite <- !Hsize. cbn [length] in H1. lia.
Qed.

(** X15. Sizes of the returned trace when the tracing of the two clause
    levels inside [generalized_tversky_similarity] is off (the flags
    ["clause_flat"] and ["clause_weighted"], which the notebook never
    sets): the flat clause level holds one entry per pair of clauses of
    the two formulas, the weighted clause level one entry per selected
    pair, between the size of the larger formula and the sum of both
    sizes, and the formula level one entry more. *)
Theorem trace_sizes
    (simC : string → string → Qc) (fpow : Qc → Qc → Qc) (F1 F2 : Formula)
    (cw1 cw2 : gmap Clause Qc) (pw1 pw2 kw1 kw2 : gmap string Qc)
    (params : option (gmap string level_params))
    (debug : option (gmap string bool)) :
  debug_on debug "clause_flat" = false →
  debug_on debug "clause_weighted" = false →
  ensures
    (simFormulaSet simC fpow F1 F2 cw1 cw2 pw1 pw2 kw1 kw2 params debug)
    (λ r _,
       length (r.2 clause_flat) = (size F1 * size F2)%nat ∧
       length (r.2 formula) = S (length (r.2 clause_weighted)) ∧
       (size F1 `max` size F2 ≤ length (r.2 clause_weighted))%nat ∧
       (length (r.2 clause_weighted) ≤ size F1 + size F2)%nat).
Proof.
  intros Hf Hw st. unfold simFormulaSet.
  unfold bind at 1, clear_trace at 1. cbv beta iota zeta.
  unfold bind at 1.
  destruct (flat_phase simC fpow _ _ debug init_state) as [[flat|e] st1] eqn:E1;
    [|done].
  pose proof (appends_flat_phase simC fpow clause_flat _ _ debug Hf _ _ _ E1)
    as Lcf1.
  pose proof (appends_flat_phase simC fpow clause_weighted _ _ debug Hf _ _ _
                E1) as Lcw1.
  pose proof (appends_flat_phase simC fpow formula _ _ debug Hf _ _ _ E1)
    as Lfo1.
  unfold bind at 1, lift at 1.
  destruct (best_matches _ _ flat) as [bm|] eqn:Hbm; [|done].
  unfold bind at 1.
  match goal with |- context [mapM ?f bm st1] =>
    destruct (mapM f bm st1) as [[ws|e] st2] eqn:E2; [|done];
    pose proof (appends_mapM clause_flat _ f bm
      (λ item, appends_weighted_step simC fpow clause_flat cw1 cw2 _ _ params
                 debug _ item ltac:(done) Hw) _ _ _ E2) as Lcf2;
    pose proof (appends_mapM clause_weighted _ f bm
      (λ item, appends_weighted_step simC fpow clause_weighted cw1 cw2 _ _
                 params debug _ item ltac:(done) Hw) _ _ _ E2) as Lcw2;
    pose proof (appends_mapM formula _ f bm
      (λ item, appends_weighted_step simC fpow formula cw1 cw2 _ _ params
                 debug _ item ltac:(done) Hw) _ _ _ E2) as Lfo2
  end.
  unfold bind at 1, lift at 1. destruct (final_score ws) as [score|]; [|done].
  unfold bind at 1.
  destruct (append_summary formula (ETotal 0 0 0 score) st2) as [[[]|e] st3]
    eqn:E3; [|done].
  pose proof (appends_append_same formula _ _ _ _ E3) as Lfo3.
  pose proof (appends_append_other clause_flat formula _ ltac:(done) _ _ _ E3)
    as Lcf3.
  pose proof (appends_append_other clause_weighted formula _ ltac:(done)
                _ _ _ E3) as Lcw3.
  unfold bind at 1, lift at 1.
  destruct (rmapM _ bm) as [pairs|] eqn:Hpairs; [|done].
  apply rmapM_length in Hpairs.
  unfold bind at 1.
  destruct (mapM (append_summary formula) pairs st3) as [[u|e] st4] eqn:E4;
    [|done].
  pose proof (appends_mapM formula 1 (append_summary formula) pairs
                (appends_append_same formula) _ _ _ E4) as Lfo4.
  pose proof (appends_mapM clause_flat 0 (append_summary formula) pairs
                (λ e, appends_append_other clause_flat formula e ltac:(done))
                _ _ _ E4) as Lcf4.
  pose proof (appends_mapM clause_weighted 0 (append_summary formula) pairs
                (λ e, appends_append_other clause_weighted formula e
                        ltac:(done)) _ _ _ E4) as Lcw4.
  cbn [snd fst].
  pose proof (best_matches_length F1 F2 flat bm Hbm) as [Hlo Hhi].
  assert (Hsize : ∀ F : Formula, length (sorted_clauses F) = size F).
  { intros F. by rewrite sorted_clauses_perm. }
  rewrite !Hsize in Lcf1.
  repeat match goal with
  | H : context [decide (?a = ?b)] |- _ =>
      first [ rewrite (decide_True (P := a = b)) in H by done
            | rewrite (decide_False (P := a = b)) in H by done ]
  end.
  cbn [init_state debug_summary length] in Lcf1, Lcw1, Lfo1.
  split; [nia|]. split; [nia|]. split; nia.
Qed.

Lemma trace_sizes_witness :
  ensures
    (simFormulaSet sim_exact pow_nat ex_F1 ex_F2 ex_clause_weights1
       ex_clause_weights2 ex_predicate_weights ex_predicate_weights
       ex_constant_weights ex_constant_weights (Some ex_params)
       (Some ex_debug))
    (λ r _,
       length (r.2 clause_flat) = (size ex_F1 * size ex_F2)%nat ∧
       length (r.2 formula) = S (length (r.2 clause_weighted)) ∧
       (size ex_F1 `max` size ex_F2 ≤ length (r.2 clause_weighted))%nat ∧
       (length (r.2 clause_weighted) ≤ size ex_F1 + size ex_F2)%nat).
Proof.
  apply (trace_sizes sim_exact pow_nat ex_F1 ex_F2); by vm_compute.
Defined.

(** ** A formula compared with itself *)

Section PerfectArguments.
Variable simC : string → string → Qc.
Hypothesis simC_range : ∀ a b, unit_interval (simC a b).

Lemma pos_fold_perfect w1 w2 l acc :
  (∀ ab, ab ∈ l → 0 < default 0 (w1 !! ab.1) * default 0 (w2 !! ab.2)) →
  acc.1 ≤ acc.2 →
  let r := foldl (pos_step simC w1 w2) acc l in
  acc.2 ≤ r.2 ∧ (l ≠ [] → acc.2 < r.2) ∧ r.1 ≤ r.2 ∧
  (r.1 = r.2 ↔ acc.1 = acc.2 ∧ ∀ ab, ab ∈ l → simC ab.1 ab.2 = 1).
Proof using simC_range.
  revert acc. induction l as [|ab l IH]; intros acc Hw Hacc; cbn [foldl].
  - split; [apply Qcle_refl|]. split; [done|]. split; [done|].
    split; [|by intros []]. intros ->. split; [done|].
    intros ab Hab. by inversion Hab.
  - pose proof (Hw ab ltac:(left)) as Himp.
    destruct (simC_range ab.1 ab.2) as [Hs0 Hs1].
    set (imp := default 0 (w1 !! ab.1) * default 0 (w2 !! ab.2)) in *.
    set (acc' := pos_step simC w1 w2 acc ab).
    assert (Ha1 : acc'.1 = acc.1 + imp * simC ab.1 ab.2) by done.
    assert (Ha2 : acc'.2 = acc.2 + imp) by done.
    clearbody acc' imp.
    destruct (IH acc') as (H2 & _ & H1 & Heq).
    { intros; apply Hw; by right. }
    { rewrite Ha1, Ha2. qc_nra. }
    set (r := foldl (pos_step simC w1 w2) acc' l) in *. clearbody r.
    rewrite Ha2 in H2.
    split; [qc_lra|]. split; [intros _; qc_lra|]. split; [done|].
    rewrite Heq, Ha1, Ha2. split.
    + intros [Hacc' Hl]. assert (simC ab.1 ab.2 = 1 ∧ acc.1 = acc.2) as [Hs Ha].
      { split.
        - destruct (Qclt_le_dec (simC ab.1 ab.2) 1) as [Hlt|Hge];
            [exfalso; qc_nra|qc_lra].
        - destruct (Qclt_le_dec (acc.1) (acc.2)) as [Hlt|Hge];
            [exfalso; qc_nra|qc_lra]. }
      split; [done|]. intros x [->|Hx]%elem_of_cons; auto.
    + intros [Ha Hl]. split; [|intros; apply Hl; by right].
      rewrite (Hl ab ltac:(left)), Ha. ring.
Qed.

Lemma best_fold_spec w2 a1 (w1 : Qc) l acc :
  0 < w1 → (∀ a2, a2 ∈ l → 0 < default 0 (w2 !! a2)) →
  0 ≤ acc.1 → (acc.1 = 0 → acc.2 = 0) → (0 < acc.1 → 0 < acc.2) →
  let r := foldl (best_step simC w2 a1 w1) acc l in
  r.1 = foldl (λ best a2, if decide (best < simC a1 a2) then simC a1 a2
                          else best) acc.1 l ∧
  0 ≤ r.1 ∧ (r.1 = 0 → r.2 = 0) ∧ (0 < r.1 → 0 < r.2).
Proof.
  intros Hw1. revert acc. induction l as [|a2 l IH];
    intros acc Hw2 H0 Hz Hp; cbn [foldl]; [done|].
  pose proof (Hw2 a2 ltac:(left)) as Hw.
  assert (Hstep : best_step simC w2 a1 w1 acc a2
                  = if decide (acc.1 < simC a1 a2)
                    then (simC a1 a2, w1 * default 0 (w2 !! a2)) else acc)
    by done.
  destruct (decide (acc.1 < simC a1 a2)) as [Hlt|Hge]; rewrite Hstep.
  - apply IH; cbn [fst snd].
    + intros; apply Hw2; by right.
    + qc_lra.
    + intros Hs. rewrite Hs in Hlt. exfalso. qc_lra.
    + intros _. qc_nra.
  - apply IH; [intros; apply Hw2; by right|done..].
Qed.

Lemma best_sim_range a1 l : unit_interval (best_sim simC a1 l).
Proof using simC_range.
  unfold best_sim. generalize unit_interval_0. generalize (0 : Qc).
  induction l as [|a2 l IH]; intros b Hb; cbn [foldl]; [done|].
  case_decide; by apply IH.
Qed.

Lemma best_sim_ge a1 l a2 : a2 ∈ l → simC a1 a2 ≤ best_sim simC a1 l.
Proof.
  unfold best_sim. generalize (0 : Qc).
  assert (Hmono : ∀ l b, b ≤ foldl (λ best a2,
            if decide (best < simC a1 a2) then simC a1 a2 else best) b l).
  { clear. induction l as [|x l IH]; intros b; cbn [foldl];
      [apply Qcle_refl|].
    case_decide as Hlt; [|apply IH].
    pose proof (IH (simC a1 x)). qc_lra. }
  induction l as [|x l IH]; intros b Hin; [by inversion Hin|].
  cbn [foldl]. apply elem_of_cons in Hin as [->|Hin]; [|by apply IH].
  case_decide as Hlt; [apply Hmono|].
  pose proof (Hmono l b). qc_lra.
Qed.

Lemma unordered_fold_perfect w1 w2 args2 l acc :
  (∀ a1, a1 ∈ l → 0 < default 0 (w1 !! a1)) →
  (∀ a2, a2 ∈ args2 → 0 < default 0 (w2 !! a2)) →
  acc.1 ≤ acc.2 →
  let r := foldl (unordered_step simC w1 w2 args2) acc l in
  acc.2 ≤ r.2 ∧ r.1 ≤ r.2 ∧
  ((∃ a1, a1 ∈ l ∧ 0 < best_sim simC a1 args2) → acc.2 < r.2) ∧
  (r.1 = r.2 ↔
   acc.1 = acc.2 ∧
   ∀ a1, a1 ∈ l → best_sim simC a1 args2 = 0 ∨ best_sim simC a1 args2 = 1).
Proof using simC_range.
  revert acc. induction l as [|a1 l IH]; intros acc Hw1 Hw2 Hacc; cbn [foldl].
  - split; [apply Qcle_refl|]. split; [done|].
    split; [by intros (a & Ha & _); inversion Ha|].
    split; [|by intros []]. intros ->. split; [done|].
    intros a Ha. by inversion Ha.
  - destruct (best_fold_spec w2 a1 (default 0 (w1 !! a1)) args2 (0, 0))
      as (HB & HB0 & HBz & HBp); [apply Hw1; left|done..|].
    cbn [fst] in HB. fold (best_sim simC a1 args2) in HB.
    destruct (best_sim_range a1 args2) as [_ HB1]. rewrite <- HB in *.
    set (acc' := unordered_step simC w1 w2 args2 acc a1).
    set (best := foldl (best_step simC w2 a1 (default 0 (w1 !! a1))) (0, 0)
                   args2) in *.
    assert (Ha1 : acc'.1 = acc.1 + best.1 * best.2) by done.
    assert (Ha2 : acc'.2 = acc.2 + best.2) by done.
    clearbody acc' best.
    assert (0 ≤ best.2 ∧ best.1 * best.2 ≤ best.2) as [HI HBI].
    { destruct (decide (best.1 = 0)) as [Hz|Hnz].
      - rewrite (HBz Hz), Hz. split; qc_lra.
      - assert (0 < best.1) as Hp by qc_lra. pose proof (HBp Hp).
        split; qc_nra. }
    destruct (IH acc') as (H2 & H1 & Hpos & Heq).
    { intros; apply Hw1; by right. }
    { done. }
    { rewrite Ha1, Ha2. qc_lra. }
    set (r := foldl (unordered_step simC w1 w2 args2) acc' l) in *.
    clearbody r. rewrite Ha2 in H2, Hpos.
    split; [qc_lra|]. split; [done|]. split.
    + intros (a & [->|Ha]%elem_of_cons & Hbest).
      * rewrite <- HB in Hbest. pose proof (HBp Hbest). qc_lra.
      * assert (acc.2 + best.2 < r.2) by eauto. qc_lra.
    + rewrite Heq, Ha1, Ha2. split.
      * intros [Hacc' Hl].
        assert (acc.1 = acc.2 ∧ (best.1 = 0 ∨ best.1 = 1)) as [Ha Hb].
        { destruct (decide (best.1 = 0)) as [Hz|Hnz].
          - rewrite (HBz Hz), Hz in Hacc'. split; [qc_lra|by left].
          - assert (0 < best.1) as Hp by qc_lra. pose proof (HBp Hp).
            split.
            + destruct (Qclt_le_dec (acc.1) (acc.2)) as [Hlt|Hge];
                [exfalso; qc_nra|qc_lra].
            + right. destruct (Qclt_le_dec (best.1) 1) as [Hlt|Hge];
                [exfalso; qc_nra|qc_lra]. }
        split; [done|]. intros x [->|Hx]%elem_of_cons; auto.
        by rewrite <- HB.
      * intros [Ha Hl]. split; [|intros; apply Hl; by right].
        destruct (Hl a1 ltac:(left)) as [Hz|Ho]; rewrite <- HB in *.
        -- rewrite (HBz Hz), Hz, Ha. ring.
        -- rewrite Ho, Ha. ring.
Qed.

Lemma unit_weights_lookup args a :
  a ∈ args → default 0 (unit_weights args !! a) = 1.
Proof.
  unfold unit_weights. induction args as [|x args IH]; [by inversion 1|].
  intros Ha. cbn [fmap list_fmap list_to_map foldr fst snd].
  destruct (decide (x = a)) as [->|Hne].
  - by rewrite lookup_insert_eq.
  - rewrite lookup_insert_ne by done. apply IH.
    by apply elem_of_cons in Ha as [->|Ha].
Qed.

Lemma Qc_zero_ne_one : (0 : Qc) ≠ 1.
Proof. intros H. by apply Qc_eq_this in H. Qed.

Lemma guarded_ratio_one (s t : Qc) :
  s ≤ t →
  ∃ v, (if decide (0 < t) then fdiv s (t + 0) else Ok 0) = Ok v ∧ v ≤ 1 ∧
       (v = 1 ↔ 0 < t ∧ s = t).
Proof.
  intros Hst. case_decide as Ht.
  - unfold fdiv. rewrite decide_False by (intros Hz; qc_lra).
    eexists. split; [done|].
    assert (Hm : s / (t + 0) * (t + 0) = s).
    { apply Qc_div_mul. intros Hz. qc_lra. }
    set (v := s / (t + 0)) in *. clearbody v. split.
    + destruct (Qclt_le_dec 1 v) as [Hlt|]; [exfalso; qc_nra|done].
    + split; [intros ->; split; [done|qc_lra]|].
      intros [_ ->]. destruct (Qclt_le_dec v 1) as [Hlt|Hge].
      * exfalso. qc_nra.
      * destruct (Qclt_le_dec 1 v) as [Hlt|Hle]; [exfalso; qc_nra|qc_lra].
  - exists 0. split; [done|]. split; [done|]. split.
    + intros H. by apply Qc_zero_ne_one in H.
    + by intros [].
Qed.

Lemma pointwise_perfect args1 args2 w1 w2 :
  positive_on w1 args1 → positive_on w2 args2 →
  ∃ v, pointwise_similarity_weighted simC args1 args2 w1 w2 q_08 q_02 0
       = Ok v ∧ v ≤ 1 ∧ (v = 1 ↔ perfect_args simC args1 args2).
Proof using simC_range.
  intros Hw1 Hw2. unfold pointwise_similarity_weighted, perfect_args.
  destruct args1 as [|a1 args1].
  { exists 0. split; [done|]. split; [done|]. split; [|by intros []].
    intros H. by apply Qc_zero_ne_one in H. }
  destruct args2 as [|a2 args2].
  { exists 0. split; [done|]. split; [done|]. split; [|by intros (_ & ? & _)].
    intros H. by apply Qc_zero_ne_one in H. }
  destruct (pos_fold_perfect w1 w2 (zip (a1 :: args1) (a2 :: args2)) (0, 0))
    as (_ & Hpos & Hp1 & Hpeq); [|done|].
  { intros [a b] Hab. cbn [fst snd].
    pose proof (Hw1 a (elem_of_zip_l _ _ _ _ Hab)).
    pose proof (Hw2 b (elem_of_zip_r _ _ _ _ Hab)). qc_nra. }
  destruct (unordered_fold_perfect w1 w2 (a2 :: args2) (a1 :: args1) (0, 0))
    as (_ & Hu1 & Hupos & Hueq); [done..|].
  set (pos := foldl _ _ (zip _ _)) in *. set (uno := foldl _ _ (a1 :: _)) in *.
  cbn [fst snd] in Hpos, Hpeq, Hupos, Hueq.
  destruct (guarded_ratio_one pos.1 pos.2 Hp1) as (sp & -> & Hsp1 & Hspeq).
  destruct (guarded_ratio_one uno.1 uno.2 Hu1) as (su & -> & Hsu1 & Hsueq).
  cbn [rbind]. eexists. split; [done|]. split; [qc_lra|].
  assert (q_08 * sp + q_02 * su = 1 ↔ sp = 1 ∧ su = 1) as ->.
  { split; [|intros [-> ->]; qc_lra]. intros H. split; qc_lra. }
  rewrite Hspeq, Hsueq, Hpeq, Hueq. split.
  - intros [[_ [_ Hz]] [_ [_ Hb]]]. done.
  - intros (_ & _ & Hz & Hb). split; [split; [by apply Hpos|done]|].
    split; [|done]. apply Hupos. exists a1. split; [left|].
    pose proof (best_sim_ge a1 (a2 :: args2) a2 ltac:(left)) as Hge.
    pose proof (Hz (a1, a2) ltac:(left)) as Hone. cbn [fst snd] in Hone.
    rewrite Hone in Hge. qc_lra.
Qed.

Lemma flat_literal_score_perfect l1 l2 :
  ∃ v, flat_literal_score simC l1 l2 = Ok v ∧ unit_interval v ∧
       (v = 1 ↔ perfect_literals simC l1 l2).
Proof using simC_range.
  unfold flat_literal_score, flat_components, perfect_literals.
  destruct (pointwise_perfect l1.2 l2.2 (unit_weights l1.2) (unit_weights l2.2))
    as (sa & Hsa & Hsa1 & Hsaeq).
  { intros a Ha. by rewrite unit_weights_lookup. }
  { intros a Ha. by rewrite unit_weights_lookup. }
  destruct (pointwise_range simC simC_range l1.2 l2.2 (unit_weights l1.2)
              (unit_weights l2.2) q_08 q_02 0) as (sa' & Hsa' & Hsa0 & _);
    [apply nonneg_unit_weights..|done|done|done|done|].
  rewrite Hsa in Hsa'. injection Hsa' as <-. rewrite Hsa. cbn [rbind rmap snd].
  destruct (simC_range l1.1 l2.1) as [Hs0 Hs1].
  eexists. split; [done|]. split; [split; qc_lra|].
  rewrite <- Hsaeq. split; [|intros [-> ->]; qc_lra].
  intros H. split; qc_lra.
Qed.

Lemma weighted_literal_score_perfect pw kw l1 l2 :
  perfect_literals simC l1 l2 →
  positive_on pw [l1.1] → positive_on pw [l2.1] →
  positive_on kw l1.2 → positive_on kw l2.2 →
  weighted_literal_score simC pw kw 0 l1 l2 = Ok 1.
Proof using simC_range.
  intros [Hpred Hargs] Hp1 Hp2 Hk1 Hk2.
  unfold weighted_literal_score, weighted_components.
  destruct (pointwise_perfect l1.2 l2.2 kw kw Hk1 Hk2)
    as (sa & -> & _ & Hsaeq).
  apply Hsaeq in Hargs as ->. cbn [rbind]. rewrite Hpred.
  pose proof (Hp1 l1.1 ltac:(left)) as H1. pose proof (Hp2 l2.1 ltac:(left)) as H2.
  set (ip := default 0 (pw !! l1.1) * default 0 (pw !! l2.1)).
  assert (0 < ip) as Hip by (unfold ip; qc_nra). clearbody ip.
  match goal with |- context [qsum ?l] => assert (0 ≤ qsum l) as Hia end.
  { apply qsum_nonneg, Forall_forall. intros x Hx.
    apply list_elem_of_In, in_flat_map in Hx as (a1 & Ha1 & Hx).
    apply in_map_iff in Hx as (a2 & <- & Ha2).
    pose proof (Hk1 a1 ltac:(by apply list_elem_of_In)).
    pose proof (Hk2 a2 ltac:(by apply list_elem_of_In)). qc_nra. }
  match goal with |- context [qsum ?l] => set (ia := qsum l) in * end.
  clearbody ia. rewrite decide_True by qc_lra.
  unfold fdiv. rewrite decide_False by (intros Hz; qc_lra).
  cbn [rbind rmap snd]. f_equal.
  replace (1 * ip + 1 * ia) with (ip + ia + 0) by ring.
  apply Qc_div_same. intros Hz. qc_lra.
Qed.

End PerfectArguments.

Lemma Ok_inj {A} (x y : A) : @Ok A x = Ok y → x = y.
Proof. by intros [=]. Qed.

Lemma rmapM_Forall2 {A B} (f : A → result B) l ys :
  rmapM f l = Ok ys → Forall2 (λ x y, f x = Ok y) l ys.
Proof.
  revert ys. induction l as [|x l IH]; intros ys; cbn [rmapM].
  - intros [= <-]. constructor.
  - destruct (f x) as [y|] eqn:Hx; [|done]. cbn [rbind].
    destruct (rmapM f l) as [ys'|]; [|done]. cbn [rbind].
    intros [= <-]. constructor; [done|]. by apply IH.
Qed.

Lemma qsum_ones l : Forall (λ m, m = 1) l → qsum l = qlen l.
Proof.
  induction 1 as [|x l -> _ IH]; [by rewrite (@qlen_nil Qc)|].
  by rewrite qsum_cons, qlen_cons, IH.
Qed.

Lemma qsum_complement_ones l :
  Forall (λ m, m = 1) l → qsum ((λ s, 1 - s) <$> l) = 0.
Proof.
  intros Hl. apply qsum_zero, Forall_fmap. eapply Forall_impl; [done|].
  intros x ->. cbn. ring.
Qed.

Lemma qsum_complement_zero_inv l :
  Forall unit_interval l → qsum ((λ s, 1 - s) <$> l) = 0 →
  Forall (λ m, m = 1) l.
Proof.
  induction 1 as [|x l Hx Hl IH]; [constructor|].
  cbn [fmap list_fmap]. rewrite qsum_cons. intros Hs.
  pose proof (qsum_complement_nonneg l Hl) as Hrest.
  set (rest := qsum _) in *. clearbody rest.
  constructor; [qc_lra|]. apply IH. qc_lra.
Qed.

Lemma qlen_pos {A} (l : list A) : l ≠ [] → 0 < qlen l.
Proof.
  destruct l as [|x l]; [done|]. intros _. rewrite qlen_cons.
  pose proof (qlen_nonneg l). qc_lra.
Qed.

Lemma tversky_ratio_ones alpha beta mX mY :
  mX ≠ [] → Forall (λ m, m = 1) mX → Forall (λ m, m = 1) mY →
  tversky_ratio alpha beta mX mY = Ok 1.
Proof.
  intros Hne HX HY. unfold tversky_ratio.
  rewrite (qsum_complement_ones mX HX), (qsum_complement_ones mY HY).
  rewrite (qsum_ones mX HX), (qsum_ones mY HY).
  pose proof (qlen_pos mX Hne) as HpX. pose proof (qlen_nonneg mY) as HpY.
  set (nX := qlen mX) in *. set (nY := qlen mY) in *. clearbody nX nY.
  replace ((nX + nY) / q_two + alpha * 0 + beta * 0) with ((nX + nY) / q_two)
    by ring.
  assert (0 < (nX + nY) / q_two) as Ha by qc_lra.
  rewrite decide_True by done. unfold fdiv.
  rewrite decide_False by (intros Hz; rewrite Hz in Ha; done).
  f_equal. apply Qc_div_same. intros Hz. rewrite Hz in Ha. done.
Qed.

Lemma tversky_ratio_one_inv alpha beta mX mY :
  0 < alpha → 0 < beta →
  Forall unit_interval mX → Forall unit_interval mY →
  tversky_ratio alpha beta mX mY = Ok 1 →
  Forall (λ m, m = 1) mX ∧ Forall (λ m, m = 1) mY.
Proof.
  intros Ha Hbeta HX HY. unfold tversky_ratio.
  pose proof (qsum_complement_nonneg mX HX) as Hb.
  pose proof (qsum_complement_nonneg mY HY) as Hc.
  pose proof (qsum_complement_zero_inv mX HX) as HbX.
  pose proof (qsum_complement_zero_inv mY HY) as HcY.
  set (b := qsum ((λ s, 1 - s) <$> mX)) in *.
  set (c := qsum ((λ s, 1 - s) <$> mY)) in *.
  set (a := (qsum mX + qsum mY) / q_two). clearbody a b c.
  case_decide as Hden.
  2: { intros [= Hz]; by apply Qc_zero_ne_one in Hz. }
  unfold fdiv. case_decide as Hz; [done|]. intros Hone%Ok_inj.
  assert (a / (a + alpha * b + beta * c) * (a + alpha * b + beta * c) = a)
    as Hm by by apply Qc_div_mul.
  rewrite Hone in Hm.
  destruct (Qclt_le_dec 0 b) as [Hbpos|Hb0].
  { exfalso. pose proof (Qc_mul_nonneg beta c ltac:(qc_lra) Hc). qc_nra. }
  destruct (Qclt_le_dec 0 c) as [Hcpos|Hc0].
  { exfalso. pose proof (Qc_mul_nonneg alpha b ltac:(qc_lra) Hb). qc_nra. }
  split; [apply HbX|apply HcY]; qc_lra.
Qed.

Lemma py_max_one l :
  l ≠ [] → Forall unit_interval l →
  ∃ m, py_max l = Ok m ∧ unit_interval m ∧ (m = 1 ↔ 1 ∈ l).
Proof.
  intros Hne Hl. destruct l as [|x l]; [done|].
  destruct (qmax_list_spec x l) as [Hin Hub].
  exists (qmax_list x l). split; [done|].
  rewrite Forall_forall in Hl. split; [by apply Hl|]. split.
  - intros Hm. by rewrite <- Hm.
  - intros H1. apply Hub in H1. destruct (Hl _ Hin). qc_lra.
Qed.

Section PerfectClauses.
Variable fpow : Qc → Qc → Qc.
Context {A : Type} `{Countable A}.
Variable sim : A → A → result Qc.
Variable agg : list Qc → result Qc.
Variable p : Qc.
Hypothesis sim_range : ∀ x y, ∃ v, sim x y = Ok v ∧ unit_interval v.
Hypothesis agg_is_max : ∀ l, l ≠ [] → agg l = py_max l.
Hypothesis pow_range : pow_in_range fpow p.

(** With the maximum as aggregation, the membership of [x] in [Z] is 1
    exactly when some element of [Z] is, after the power, fully similar
    to [x]. *)
Lemma membership_score_one x (Z : gset A) :
  Z ≠ ∅ →
  ∃ m, membership_score fpow sim p agg x Z = Ok m ∧ unit_interval m ∧
       (m = 1 ↔ ∃ y v, y ∈ Z ∧ sim x y = Ok v ∧ fpow v p = 1).
Proof using sim_range agg_is_max pow_range.
  intros HZ. unfold membership_score.
  destruct (rmapM_Forall (λ y, let+ s := sim x y in Ok (fpow s p))
              unit_interval (elements Z)) as (scores & Hs & Hr & Hlen).
  { intros y _. destruct (sim_range x y) as (v & -> & Hv). cbn [rbind].
    eexists. split; [done|]. by apply pow_range. }
  rewrite Hs. cbn [rbind].
  assert (scores ≠ []) as Hne.
  { intros ->. apply elements_nonempty in HZ. by destruct (elements Z). }
  rewrite agg_is_max by done.
  destruct (py_max_one scores Hne Hr) as (m & -> & Hm & Hmeq).
  exists m. split; [done|]. split; [done|]. rewrite Hmeq.
  apply rmapM_Forall2 in Hs. split.
  - intros Hin. apply list_elem_of_lookup in Hin as [i Hi].
    destruct (Forall2_lookup_r _ _ _ _ _ Hs Hi) as (y & Hy & Hxy).
    destruct (sim_range x y) as (v & Hv & _). rewrite Hv in Hxy.
    cbn [rbind] in Hxy. injection Hxy as Hxy.
    exists y, v. split; [|done]. apply elem_of_elements.
    by eapply list_elem_of_lookup_2.
  - intros (y & v & Hy & Hv & Hpow).
    apply elem_of_elements, list_elem_of_lookup in Hy as [i Hi].
    destruct (Forall2_lookup_l _ _ _ _ _ Hs Hi) as (s & Hsi & Hxy).
    rewrite Hv in Hxy. cbn [rbind] in Hxy. injection Hxy as <-.
    rewrite Hpow in Hsi. by eapply list_elem_of_lookup_2.
Qed.

Lemma memberships_one (X Z : gset A) :
  Z ≠ ∅ →
  ∃ ms, rmapM (λ x, membership_score fpow sim p agg x Z) (elements X) = Ok ms ∧
        Forall unit_interval ms ∧ length ms = length (elements X) ∧
        (Forall (λ m, m = 1) ms ↔
         ∀ x, x ∈ X → ∃ y v, y ∈ Z ∧ sim x y = Ok v ∧ fpow v p = 1).
Proof using sim_range agg_is_max pow_range.
  intros HZ.
  destruct (rmapM_Forall (λ x, membership_score fpow sim p agg x Z)
              unit_interval (elements X)) as (ms & Hms & Hr & Hlen).
  { intros x _. destruct (membership_score_one x Z HZ) as (m & Hm & Hu & _).
    eauto. }
  exists ms. split; [done|]. split; [done|]. split; [done|].
  apply rmapM_Forall2 in Hms. split.
  - intros Hones x Hx.
    apply elem_of_elements, list_elem_of_lookup in Hx as [i Hi].
    destruct (Forall2_lookup_l _ _ _ _ _ Hms Hi) as (m & Hmi & Hxm).
    destruct (membership_score_one x Z HZ) as (m' & Hm' & _ & Heq).
    rewrite Hm' in Hxm. injection Hxm as ->. apply Heq.
    rewrite Forall_forall in Hones. apply Hones.
    by eapply list_elem_of_lookup_2.
  - intros Hcover. apply Forall_forall. intros m Hm.
    apply list_elem_of_lookup in Hm as [i Hi].
    destruct (Forall2_lookup_r _ _ _ _ _ Hms Hi) as (x & Hxi & Hxm).
    destruct (membership_score_one x Z HZ) as (m' & Hm' & _ & Heq).
    rewrite Hm' in Hxm. injection Hxm as ->. apply Heq, Hcover.
    apply elem_of_elements. by eapply list_elem_of_lookup_2.
Qed.

Lemma tversky_score_one_intro (X Y : gset A) alpha beta :
  X ≠ ∅ → Y ≠ ∅ →
  (∀ x, x ∈ X → ∃ y v, y ∈ Y ∧ sim x y = Ok v ∧ fpow v p = 1) →
  (∀ y, y ∈ Y → ∃ x v, x ∈ X ∧ sim y x = Ok v ∧ fpow v p = 1) →
  tversky_score fpow X Y sim alpha beta p agg = Ok 1.
Proof using sim_range agg_is_max pow_range.
  intros HX HY H1 H2. unfold tversky_score. rewrite decide_False by tauto.
  destruct (memberships_one X Y HY) as (mX & -> & _ & HlenX & HeqX).
  destruct (memberships_one Y X HX) as (mY & -> & _ & _ & HeqY).
  cbn [rbind]. apply tversky_ratio_ones; [|by apply HeqX|by apply HeqY].
  intros ->. apply elements_nonempty in HX. by destruct (elements X).
Qed.

Lemma tversky_score_one_inv (X Y : gset A) alpha beta :
  0 < alpha → 0 < beta →
  tversky_score fpow X Y sim alpha beta p agg = Ok 1 →
  X ≠ ∅ ∧ Y ≠ ∅ ∧
  (∀ x, x ∈ X → ∃ y v, y ∈ Y ∧ sim x y = Ok v ∧ fpow v p = 1) ∧
  (∀ y, y ∈ Y → ∃ x v, x ∈ X ∧ sim y x = Ok v ∧ fpow v p = 1).
Proof using sim_range agg_is_max pow_range.
  intros Ha Hb. unfold tversky_score. case_decide as HXY.
  { intros [= Hz]; by apply Qc_zero_ne_one in Hz. }
  assert (HX : X ≠ ∅) by tauto. assert (HY : Y ≠ ∅) by tauto.
  destruct (memberships_one X Y HY) as (mX & -> & HrX & _ & HeqX).
  destruct (memberships_one Y X HX) as (mY & -> & HrY & _ & HeqY).
  cbn [rbind]. intros [HoX HoY]%tversky_ratio_one_inv; [|done..].
  split; [done|]. split; [done|]. split; [by apply HeqX|by apply HeqY].
Qed.

End PerfectClauses.

Lemma final_score_ones ws :
  ws ≠ [] → Forall (λ sw : Qc * Qc, sw.1 = 1 ∧ 0 < sw.2) ws →
  final_score ws = Ok 1.
Proof.
  intros Hne Hws. unfold final_score.
  assert (qsum ((λ sw, sw.1 * sw.2) <$> ws) = qsum (snd <$> ws)) as ->.
  { f_equal. apply list_fmap_ext. intros i [s w] Hi.
    rewrite Forall_forall in Hws.
    destruct (Hws (s, w)) as [Hs _]; [by eapply list_elem_of_lookup_2|].
    cbn [fst snd] in *. rewrite Hs. ring. }
  assert (0 < qsum (snd <$> ws)) as Hpos.
  { destruct Hws as [|[s w] ws [_ Hw] Hws]; [done|].
    cbn [fmap list_fmap snd] in *. rewrite qsum_cons.
    assert (0 ≤ qsum (snd <$> ws)); [|qc_lra].
    apply qsum_nonneg, Forall_fmap. eapply Forall_impl; [done|].
    intros [s' w'] [_ Hw']. unfold compose. cbn [snd] in *. qc_lra. }
  rewrite decide_True by done. unfold fdiv.
  rewrite decide_False by (intros Hz; rewrite Hz in Hpos; done).
  f_equal. apply Qc_div_same. intros Hz. rewrite Hz in Hpos. done.
Qed.

Section Identity.
Variable simC : string → string → Qc.
Variable fpow : Qc → Qc → Qc.
Hypothesis simC_range : ∀ a b, unit_interval (simC a b).
Hypothesis simC_refl : ∀ a, simC a a = 1.
Hypothesis pow_one : ∀ x, fpow x 1 = x.

Lemma pow_in_range_one : pow_in_range fpow 1.
Proof using pow_one. intros x Hx. by rewrite pow_one. Qed.

Lemma perfect_literals_refl l : l.2 ≠ [] → perfect_literals simC l l.
Proof using simC_range simC_refl.
  intros Hne. split; [done|]. split; [done|]. split; [done|]. split.
  - intros [a b] Hab. cbn [fst snd].
    assert (a = b) as ->; [|done].
    clear -Hab. induction l.2 as [|x args IH]; [by inversion Hab|].
    cbn [zip zip_with] in Hab. apply elem_of_cons in Hab as [[= -> ->]|Hab];
      [done|by apply IH].
  - intros a1 Ha1. right.
    pose proof (best_sim_ge simC a1 l.2 a1 Ha1) as Hge.
    destruct (best_sim_range simC simC_range a1 l.2) as [_ Hle].
    rewrite simC_refl in Hge. qc_lra.
Qed.

(** A clause without empty literal is flatly fully similar to itself. *)
Lemma flat_value_refl (c : Clause) :
  c ≠ ∅ → (∀ l, l ∈ c → l.2 ≠ []) → flat_value simC fpow c c = 1.
Proof using simC_range simC_refl pow_one.
  intros Hc Hargs. unfold flat_value, flat_clause_score.
  rewrite (tversky_score_one_intro fpow (flat_literal_score simC) py_max 1);
    [done| |done|apply pow_in_range_one|done|done|..].
  - intros x y. destruct (flat_literal_score_perfect simC simC_range x y)
      as (v & Hv & Hr & _). eauto.
  - intros l Hl.
    destruct (flat_literal_score_perfect simC simC_range l l)
      as (v & Hv & _ & Heq).
    exists l, v. split; [done|]. split; [done|]. rewrite pow_one.
    by apply Heq, perfect_literals_refl, Hargs.
  - intros l Hl.
    destruct (flat_literal_score_perfect simC simC_range l l)
      as (v & Hv & _ & Heq).
    exists l, v. split; [done|]. split; [done|]. rewrite pow_one.
    by apply Heq, perfect_literals_refl, Hargs.
Qed.

Lemma flat_value_range c1 c2 : unit_interval (flat_value simC fpow c1 c2).
Proof using simC_range pow_one.
  unfold flat_value, flat_clause_score.
  destruct (tversky_score_range fpow c1 c2 (flat_literal_score simC)
              1 1 1 py_max) as (v & -> & Hv); [|done|done| | |done].
  - intros x y. destruct (flat_literal_score_perfect simC simC_range x y)
      as (v & Hv & Hr & _). eauto.
  - apply pow_in_range_one.
  - intros l Hl Hr. destruct (py_max_one l Hl Hr) as (m & Hm & Hu & _). eauto.
Qed.

(** Two clauses whose flat score is [1.0] have, literal by literal, a
    perfect partner on the other side. *)
Lemma flat_value_one_inv c1 c2 :
  flat_value simC fpow c1 c2 = 1 →
  c1 ≠ ∅ ∧ c2 ≠ ∅ ∧
  (∀ l1, l1 ∈ c1 → ∃ l2, l2 ∈ c2 ∧ perfect_literals simC l1 l2) ∧
  (∀ l2, l2 ∈ c2 → ∃ l1, l1 ∈ c1 ∧ perfect_literals simC l2 l1).
Proof using simC_range pow_one.
  intros Hv.
  assert (flat_clause_score simC fpow c1 c2 = Ok 1) as Hs.
  { rewrite flat_clause_score_value. by f_equal. }
  apply (tversky_score_one_inv fpow (flat_literal_score simC) py_max 1)
    in Hs as (H1 & H2 & Hl & Hr); [| |done|apply pow_in_range_one|done|done].
  2: { intros x y. destruct (flat_literal_score_perfect simC simC_range x y)
         as (v & Hxy & Hu & _). eauto. }
  split; [done|]. split; [done|]. split.
  - intros l1 Hl1. destruct (Hl l1 Hl1) as (l2 & v & Hl2 & Hxy & Hp).
    exists l2. split; [done|].
    destruct (flat_literal_score_perfect simC simC_range l1 l2)
      as (v' & Hv' & _ & Heq).
    rewrite Hv' in Hxy. apply Ok_inj in Hxy as ->. apply Heq.
    by rewrite <- (pow_one v).
  - intros l2 Hl2. destruct (Hr l2 Hl2) as (l1 & v & Hl1 & Hxy & Hp).
    exists l1. split; [done|].
    destruct (flat_literal_score_perfect simC simC_range l2 l1)
      as (v' & Hv' & _ & Heq).
    rewrite Hv' in Hxy. apply Ok_inj in Hxy as ->. apply Heq.
    by rewrite <- (pow_one v).
Qed.

(** A pair of flat score [1.0] keeps the score [1.0] in the weighted
    phase, when the weights are positive where they are looked up, the
    correction term is zero and the clause level aggregates by maximum. *)
Lemma weighted_clause_score_one pw kw cfg c1 c2 :
  nonneg_weights pw → nonneg_weights kw →
  (∀ l, l ∈ c1 ∪ c2 → positive_on pw [l.1] ∧ positive_on kw l.2) →
  pow_in_range fpow (default 1 (lp_p cfg)) →
  fpow 1 (default 1 (lp_p cfg)) = 1 →
  (∀ l, l ≠ [] → default py_max (lp_agg cfg) l = py_max l) →
  flat_value simC fpow c1 c2 = 1 →
  weighted_clause_score simC fpow pw kw cfg 0 c1 c2 = Ok 1.
Proof using simC_range pow_one.
  clear simC_refl.
  intros Hpw Hkw Hpos Hpr Hp1 Hagg (H1 & H2 & Hl & Hr)%flat_value_one_inv.
  unfold weighted_clause_score.
  apply tversky_score_one_intro; [|done..| |].
  - intros x y. by apply weighted_literal_score_range.
  - intros l1 Hl1. destruct (Hl l1 Hl1) as (l2 & Hl2 & Hperf).
    exists l2, 1. split; [done|]. split; [|done].
    destruct (Hpos l1) as [? ?]; [set_solver|].
    destruct (Hpos l2) as [? ?]; [set_solver|].
    by apply weighted_literal_score_perfect.
  - intros l2 Hl2. destruct (Hr l2 Hl2) as (l1 & Hl1 & Hperf).
    exists l1, 1. split; [done|]. split; [|done].
    destruct (Hpos l1) as [? ?]; [set_solver|].
    destruct (Hpos l2) as [? ?]; [set_solver|].
    by apply weighted_literal_score_perfect.
Qed.

(** Comparing a formula with itself, every selected pair has the flat
    score [1.0]. *)
Lemma best_matches_self_one (F : Formula) flat bm :
  (∀ c, c ∈ F → c ≠ ∅ ∧ ∀ l, l ∈ c → l.2 ≠ []) →
  flat_table simC fpow (sorted_clauses F) (sorted_clauses F) = Ok flat →
  best_matches (sorted_clauses F) (sorted_clauses F) flat = Ok bm →
  ∀ c1 c2, (c1, c2) ∈ bm.*1 →
    c1 ∈ F ∧ c2 ∈ F ∧ flat_value simC fpow c1 c2 = 1.
Proof using simC_range simC_refl pow_one.
  intros HF Hflat Hbm c1 c2 Hin.
  destruct (flat_table_spec simC fpow (sorted_clauses F) (sorted_clauses F))
    as (flat' & Hflat' & Hlook).
  rewrite Hflat in Hflat'. apply Ok_inj in Hflat' as <-.
  destruct (best_matches_members flat _ _ bm c1 c2 Hbm Hin) as [Hc1 Hc2].
  split; [by apply elem_of_sorted_clauses|].
  split; [by apply elem_of_sorted_clauses|].
  assert (Hkey1 : ∀ d1, d1 ∈ sorted_clauses F →
    ∀ x, x ∈ sorted_clauses F →
      dict_get flat (d1, x) = Ok (flat_value simC fpow d1 x)).
  { intros d1 Hd1 x Hx. unfold dict_get.
    by rewrite Hlook, decide_True by done. }
  apply best_matches_spec in Hbm as (_ & Hk & _).
  destruct (flat_value_range c1 c2) as [_ Hle].
  apply Hk in Hin as [(d1 & b & Hd1 & Hb & [= -> ->])
                     |(d2 & b & Hd2 & Hb & [= -> ->])].
  - pose proof (max_by_max (λ x, dict_get flat (d1, x))
                  (λ x, flat_value simC fpow d1 x) _ b
                  (Hkey1 d1 Hd1) Hb d1 Hd1) as Hge.
    cbv beta in Hge. rewrite flat_value_refl in Hge.
    + qc_lra.
    + apply HF. by apply elem_of_sorted_clauses.
    + apply HF. by apply elem_of_sorted_clauses.
  - pose proof (max_by_max (λ x, dict_get flat (x, d2))
                  (λ x, flat_value simC fpow x d2) _ b
                  (λ x Hx, Hkey1 x Hx d2 Hd2) Hb d2 Hd2) as Hge.
    cbv beta in Hge. rewrite flat_value_refl in Hge.
    + qc_lra.
    + apply HF. by apply elem_of_sorted_clauses.
    + apply HF. by apply elem_of_sorted_clauses.
Qed.

Lemma formula_score_identity (F : Formula) cw1 cw2 pw kw ps :
  let cfg := default empty_level_params (ps !! "clause"%string) in
  F ≠ ∅ → weighted_formula F pw kw →
  nonneg_weights pw → nonneg_weights kw →
  correction pw pw kw kw = 0 →
  (∀ c, c ∈ F → 0 < default 1 (cw1 !! c) ∧ 0 < default 1 (cw2 !! c)) →
  pow_in_range fpow (default 1 (lp_p cfg)) →
  fpow 1 (default 1 (lp_p cfg)) = 1 →
  (∀ l, l ≠ [] → default py_max (lp_agg cfg) l = py_max l) →
  formula_score simC fpow F F cw1 cw2 pw pw kw kw (Some ps) = Ok 1.
Proof using simC_range simC_refl pow_one.
  intros cfg HF Hwf Hpw Hkw Hdiff Hcw Hpr Hp1 Hagg.
  unfold formula_score. rewrite Hdiff.
  destruct (correspondence_ok simC fpow F F HF HF)
    as (flat & bm & Hflat & Hbm & Hne).
  rewrite Hflat. cbn [rbind]. rewrite Hbm. cbn [rbind].
  assert (merge_weights pw pw = pw) as ->
    by (unfold merge_weights; apply map_union_idemp).
  assert (merge_weights kw kw = kw) as ->
    by (unfold merge_weights; apply map_union_idemp).
  assert (Hone : ∀ c1 c2, (c1, c2) ∈ bm.*1 →
            c1 ∈ F ∧ c2 ∈ F ∧ flat_value simC fpow c1 c2 = 1).
  { apply (best_matches_self_one F flat bm); [|done..].
    intros c Hc. destruct (Hwf c Hc) as [Hce Hl]. split; [done|].
    intros l Hl'. by destruct (Hl l Hl'). }
  match goal with |- context [rmapM ?g bm] =>
    destruct (rmapM_Forall g (λ sw : Qc * Qc, sw.1 = 1 ∧ 0 < sw.2) bm)
      as (ws & -> & Hws & Hlen)
  end.
  { intros [[c1 c2] v] Hitem.
    destruct (Hone c1 c2) as (Hc1 & Hc2 & Hv).
    { apply list_elem_of_fmap. by exists (c1, c2, v). }
    unfold weighted_step_score. cbv zeta. cbn [fst snd].
    rewrite (weighted_clause_score_one pw kw); [|done|done| |done..].
    - cbn [rbind]. eexists. split; [done|]. cbn [fst snd]. split; [done|].
      destruct (Hcw c1 Hc1) as [? _]. destruct (Hcw c2 Hc2) as [_ ?]. qc_lra.
    - intros l [Hl|Hl]%elem_of_union.
      + destruct (Hwf c1 Hc1) as [_ Hlit]. by destruct (Hlit l Hl) as (_ & ? & ?).
      + destruct (Hwf c2 Hc2) as [_ Hlit]. by destruct (Hlit l Hl) as (_ & ? & ?). }
  cbn [rbind]. apply final_score_ones; [|done].
  intros ->. by destruct bm.
Qed.

End Identity.







(** ** The canonical order of literals and clauses *)

Section LexOrder.
Context {A : Type} (cmp : A → A → comparison).
Hypothesis cmp_antisym : ∀ x y, cmp x y = CompOpp (cmp y x).
Hypothesis cmp_eq : ∀ x y, cmp x y = Eq → x = y.
Hypothesis cmp_trans : ∀ x y z, cmp x y = Lt → cmp y z = Lt → cmp x z = Lt.

Lemma cmp_refl x : cmp x x = Eq.
Proof using cmp_antisym.
  pose proof (cmp_antisym x x) as Hx. by destruct (cmp x x).
Qed.

Lemma lex_compare_antisym l1 l2 :
  lex_compare cmp l1 l2 = CompOpp (lex_compare cmp l2 l1).
Proof using cmp_antisym.
  revert l2. induction l1 as [|x l1 IH]; intros [|y l2]; cbn; try done.
  rewrite (cmp_antisym y x). destruct (cmp x y); cbn; [apply IH|done|done].
Qed.

Lemma lex_compare_eq l1 l2 : lex_compare cmp l1 l2 = Eq → l1 = l2.
Proof using cmp_eq.
  revert l2. induction l1 as [|x l1 IH]; intros [|y l2]; cbn; try done.
  destruct (cmp x y) eqn:Hxy; [|done|done].
  intros Hl. apply cmp_eq in Hxy as ->. f_equal. by apply IH.
Qed.

Lemma lex_compare_trans l1 l2 l3 :
  lex_compare cmp l1 l2 = Lt → lex_compare cmp l2 l3 = Lt →
  lex_compare cmp l1 l3 = Lt.
Proof using cmp_antisym cmp_eq cmp_trans.
  revert l2 l3.
  induction l1 as [|x l1 IH]; intros [|y l2] [|z l3]; cbn; try done.
  destruct (cmp x y) eqn:Hxy; [|clear IH|done].
  - apply cmp_eq in Hxy as ->. destruct (cmp y z); [apply IH|done|done].
  - destruct (cmp y z) eqn:Hyz; [| |done].
    + apply cmp_eq in Hyz as ->. by rewrite Hxy.
    + by rewrite (cmp_trans x y z).
Qed.

End LexOrder.

Lemma string_compare_trans (x y z : string) :
  String.compare x y = Lt → String.compare y z = Lt → String.compare x z = Lt.
Proof.
  intros Hxy Hyz.
  apply (proj2 (OrderedTypeEx.String_as_OT.cmp_lt x z)).
  apply (OrderedTypeEx.String_as_OT.lt_trans x y z);
    by apply OrderedTypeEx.String_as_OT.cmp_lt.
Qed.

Lemma lit_compare_antisym l1 l2 :
  lit_compare l1 l2 = CompOpp (lit_compare l2 l1).
Proof.
  unfold lit_compare. rewrite (String.compare_antisym l2.1 l1.1).
  destruct (String.compare l1.1 l2.1); cbn; [|done|done].
  apply lex_compare_antisym, String.compare_antisym.
Qed.

Lemma lit_compare_eq l1 l2 : lit_compare l1 l2 = Eq → l1 = l2.
Proof.
  unfold lit_compare. destruct l1 as [p1 a1], l2 as [p2 a2]. cbn [fst snd].
  destruct (String.compare p1 p2) eqn:Hp; [|done|done].
  intros Ha. apply String.compare_eq_iff in Hp as ->.
  apply lex_compare_eq in Ha as ->; [done|apply String.compare_eq_iff].
Qed.

Lemma lit_compare_trans l1 l2 l3 :
  lit_compare l1 l2 = Lt → lit_compare l2 l3 = Lt → lit_compare l1 l3 = Lt.
Proof.
  unfold lit_compare.
  destruct (String.compare l1.1 l2.1) eqn:H12; [| |done].
  - apply String.compare_eq_iff in H12 as ->.
    destruct (String.compare l2.1 l3.1); [|done|done].
    apply lex_compare_trans;
      [apply String.compare_antisym|apply String.compare_eq_iff
      |apply string_compare_trans].
  - intros _. destruct (String.compare l2.1 l3.1) eqn:H23; [| |done].
    + apply String.compare_eq_iff in H23 as <-. by rewrite H12.
    + intros _. by rewrite (string_compare_trans _ _ _ H12 H23).
Qed.

Section SortedBy.
Context {A K : Type} (cmp : K → K → comparison) (key : A → K).
Hypothesis cmp_antisym : ∀ x y, cmp x y = CompOpp (cmp y x).
Hypothesis cmp_eq : ∀ x y, cmp x y = Eq → x = y.
Hypothesis cmp_trans : ∀ x y z, cmp x y = Lt → cmp y z = Lt → cmp x z = Lt.
Hypothesis key_inj : ∀ x y, key x = key y → x = y.

Let ltb (k1 k2 : K) : bool :=
  match cmp k1 k2 with Lt => true | _ => false end.
Let le (x y : A) : Prop := cmp (key x) (key y) ≠ Gt.

Lemma le_trans x y z : le x y → le y z → le x z.
Proof using cmp_eq cmp_trans.
  unfold le. intros Hxy Hyz.
  destruct (cmp (key x) (key y)) eqn:H1; [| |done].
  - apply cmp_eq in H1. by rewrite H1.
  - destruct (cmp (key y) (key z)) eqn:H2; [| |done].
    + apply cmp_eq in H2. by rewrite <- H2, H1.
    + by rewrite (cmp_trans _ _ _ H1 H2).
Qed.

Lemma insert_by_sorted x l :
  StronglySorted le l → StronglySorted le (insert_by ltb key x l).
Proof using cmp_antisym cmp_eq cmp_trans.
  induction 1 as [|y l Hl IH Hy]; cbn [insert_by].
  - repeat constructor.
  - unfold ltb at 1. destruct (cmp (key x) (key y)) eqn:Hxy.
    + constructor; [by apply IH|]. rewrite insert_by_perm.
      constructor; [|done]. unfold le.
      by rewrite cmp_antisym, Hxy.
    + assert (le x y) as Hle by (unfold le; by rewrite Hxy).
      constructor; [by constructor|]. constructor; [done|].
      eapply Forall_impl; [done|]. intros z Hz. by eapply le_trans.
    + constructor; [by apply IH|]. rewrite insert_by_perm.
      constructor; [|done]. unfold le.
      by rewrite cmp_antisym, Hxy.
Qed.

Lemma sorted_by_sorted l : StronglySorted le (sorted_by ltb key l).
Proof using cmp_antisym cmp_eq cmp_trans.
  unfold sorted_by.
  assert (Hg : ∀ acc, StronglySorted le acc →
    StronglySorted le (foldl (λ acc x, insert_by ltb key x acc) acc l)).
  { induction l as [|x l IH]; intros acc Hacc; cbn [foldl]; [done|].
    by apply IH, insert_by_sorted. }
  apply Hg. constructor.
Qed.

Lemma sorted_by_unique l l' :
  l ≡ₚ l' → sorted_by ltb key l = sorted_by ltb key l'.
Proof using cmp_antisym cmp_eq cmp_trans key_inj.
  intros Hp. apply (StronglySorted_unique_strong le).
  - intros x1 x2 _ _ H12 H21. apply key_inj, cmp_eq. unfold le in *.
    rewrite cmp_antisym in H21.
    by destruct (cmp (key x1) (key x2)).
  - apply sorted_by_sorted.
  - apply sorted_by_sorted.
  - by rewrite !sorted_by_perm.
Qed.

End SortedBy.

Lemma safe_sort_clause_inj (c1 c2 : Clause) :
  safe_sort_clause c1 = safe_sort_clause c2 → c1 = c2.
Proof.
  intros Heq. apply set_eq. intros l.
  rewrite <- !elem_of_elements.
  rewrite <- (sorted_by_perm lit_ltb id (elements c1)).
  rewrite <- (sorted_by_perm lit_ltb id (elements c2)).
  unfold safe_sort_clause in Heq. by rewrite Heq.
Qed.

(** X20. The canonical orders do not depend on the order in which the
    sets are enumerated: sorting any enumeration of a clause gives
    [safe_sort_clause], sorting any enumeration of a formula gives the
    clause list of [simFormulaSet], and both results are ascending. *)
Theorem canonical_order_independent_of_enumeration
    (c : Clause) (F : Formula) (ls : list Literal) (cs : list Clause) :
  ls ≡ₚ elements c → cs ≡ₚ elements F →
  sorted_by lit_ltb id ls = safe_sort_clause c ∧
  sorted_by clause_key_ltb safe_sort_clause cs = sorted_clauses F ∧
  StronglySorted (λ l1 l2, lit_compare l1 l2 ≠ Gt) (safe_sort_clause c) ∧
  StronglySorted
    (λ c1 c2, lex_compare lit_compare (safe_sort_clause c1)
                (safe_sort_clause c2) ≠ Gt)
    (sorted_clauses F).
Proof.
  intros Hls Hcs.
  assert (Hanti := lex_compare_antisym lit_compare lit_compare_antisym).
  assert (Heq := lex_compare_eq lit_compare lit_compare_eq).
  assert (Htrans := lex_compare_trans lit_compare lit_compare_antisym
                      lit_compare_eq lit_compare_trans).
  split; [|split; [|split]].
  - apply (sorted_by_unique lit_compare id);
      [apply lit_compare_antisym|apply lit_compare_eq|apply lit_compare_trans
      |done|done].
  - apply (sorted_by_unique (lex_compare lit_compare) safe_sort_clause);
      [done|done|done|apply safe_sort_clause_inj|done].
  - apply (sorted_by_sorted lit_compare id);
      [apply lit_compare_antisym|apply lit_compare_eq|apply lit_compare_trans].
  - by apply (sorted_by_sorted (lex_compare lit_compare) safe_sort_clause).
Qed.

Lemma canonical_order_independent_of_enumeration_witness :
  sorted_by lit_ltb id (reverse (elements ex_teasing_dm))
  = safe_sort_clause ex_teasing_dm ∧
  sorted_by clause_key_ltb safe_sort_clause (reverse (elements ex_F1))
  = sorted_clauses ex_F1 ∧
  StronglySorted (λ l1 l2, lit_compare l1 l2 ≠ Gt)
    (safe_sort_clause ex_teasing_dm) ∧
  StronglySorted
    (λ c1 c2, lex_compare lit_compare (safe_sort_clause c1)
                (safe_sort_clause c2) ≠ Gt)
    (sorted_clauses ex_F1).
Proof.
  apply (canonical_order_independent_of_enumeration ex_teasing_dm ex_F1).
  - apply reverse_Permutation.
  - apply reverse_Permutation.
Defined.
